(** * vscode-tikz: render scheduling and caching, verified against the sources

    The development embeds the TypeScript sources of the extension
    (preprocessor, CacheEntry, CacheManager, DocumentParser, PreviewManager)
    as Rocq functions and state machines and proves the properties the
    specification states about them. *)

From Stdlib Require Import ZArith NArith Lia Bool DecimalString.
From stdpp Require Import gmap strings list fin_maps.

Open Scope N_scope.

(** ** JavaScript strings

    A JavaScript string is a sequence of UTF-16 code units.  The text
    functions of the sources ([trim], [split], [replace], regular
    expressions) work on code units, some of them above the Latin-1 range,
    so a string is modelled as a list of code-unit numbers. *)
Module JSString.

Definition char16 := N.
Definition jsstring := list N.

(** Literal ASCII text as code units. *)
Fixpoint u16 (s : string) : jsstring :=
  match s with
  | EmptyString => []
  | String a r => Ascii.N_of_ascii a :: u16 r
  end.

Definition LF : N := 10.
Definition CR : N := 13.
Definition SPACE : N := 32.
Definition NBSP : N := 160.

(** ECMAScript LineTerminator: LF, CR, U+2028, U+2029. *)
Definition is_line_terminator (c : N) : bool :=
  (c =? 10) || (c =? 13) || (c =? 8232) || (c =? 8233).

(** ECMAScript WhiteSpace together with LineTerminator: the set stripped
    by [String.prototype.trim] and matched by the regular-expression
    class [\s]. *)
Definition is_space (c : N) : bool :=
  (c =? 9) || (c =? 10) || (c =? 11) || (c =? 12) || (c =? 13) ||
  (c =? 32) || (c =? 160) || (c =? 5760) ||
  ((8192 <=? c) && (c <=? 8202)) ||
  (c =? 8232) || (c =? 8233) || (c =? 8239) || (c =? 8287) ||
  (c =? 12288) || (c =? 65279).

Fixpoint trimStart (s : jsstring) : jsstring :=
  match s with
  | [] => []
  | c :: r => if is_space c then trimStart r else s
  end.

Fixpoint trimEnd (s : jsstring) : jsstring :=
  match s with
  | [] => []
  | c :: r =>
      match trimEnd r with
      | [] => if is_space c then [] else [c]
      | r' => c :: r'
      end
  end.

(** [String.prototype.trim]. *)
Definition trim (s : jsstring) : jsstring := trimEnd (trimStart s).

(** [s.split('\n')]: never empty; the empty string splits into one empty
    piece. *)
Fixpoint split_nl (s : jsstring) : list jsstring :=
  match s with
  | [] => [[]]
  | c :: r =>
      if c =? LF then [] :: split_nl r
      else match split_nl r with
           | l :: ls => (c :: l) :: ls
           | [] => [[c]]
           end
  end.

(** [lines.join('\n')]. *)
Fixpoint join_nl (ls : list jsstring) : jsstring :=
  match ls with
  | [] => []
  | [l] => l
  | l :: ls' => l ++ LF :: join_nl ls'
  end.

(** [s.includes(t)] and [s.indexOf(t)] building block: [t] is a prefix of
    [s]. *)
Fixpoint starts_with (t s : jsstring) : bool :=
  match t, s with
  | [], _ => true
  | _ :: _, [] => false
  | a :: t', b :: s' => (a =? b) && starts_with t' s'
  end.

Fixpoint includes (s t : jsstring) : bool :=
  starts_with t s ||
  match s with
  | [] => false
  | _ :: r => includes r t
  end.

(** The first character and the last character of a string, when it has
    one. *)
Definition first_char (s : jsstring) : option N := head s.
Definition last_char (s : jsstring) : option N := last s.

(** No leading and no trailing white space. *)
Definition trimmed (s : jsstring) : Prop :=
  (forall c, first_char s = Some c -> is_space c = false) /\
  (forall c, last_char s = Some c -> is_space c = false).

End JSString.

Import JSString.

(** ** utils/preprocessor.ts *)
Module Preprocessor.

(** [source.replace(/\u00A0/g, ' ')]. *)
Definition replace_nbsp (s : jsstring) : jsstring :=
  map (fun c => if c =? NBSP then SPACE else c) s.

Definition nonempty (l : jsstring) : bool := negb (length l =? 0)%nat.

Definition preprocessSource (source : jsstring) : jsstring :=
  let processed := replace_nbsp source in
  let lines := filter (fun l => nonempty l = true) (map trim (split_nl processed)) in
  join_nl lines.

(** The lines of a text, for stating properties of the output: the pieces
    between line feeds; the empty text has no line at all. *)
Definition lines_of (s : jsstring) : list jsstring :=
  match s with
  | [] => []
  | _ => split_nl s
  end.

(** The lines [preprocessSource] joins, and what each of them satisfies. *)
Definition cleaned_lines (s : jsstring) : list jsstring :=
  filter (fun l => nonempty l = true) (map trim (split_nl (replace_nbsp s))).

Definition clean_line (l : jsstring) : Prop :=
  trimmed l /\ l <> [] /\ Forall (fun c => c <> LF) l /\ Forall (fun c => c <> NBSP) l.

End Preprocessor.

(** ** Regular expressions

    The fragment of ECMAScript regular expressions the sources use, with
    the backtracking matcher of the language: a greedy star tries the
    longest repetition first, a lazy star the shortest, an alternative its
    left branch first.  Stars range over character classes only, which is
    all the sources' patterns need.  The patterns have at most one
    capturing group. *)
Module Regex.

Inductive re :=
  | Eps
  | Chr (p : N -> bool)             (* one code unit of a class *)
  | Seq (a b : re)
  | Alt (a b : re)
  | Star (greedy : bool) (p : N -> bool)
  | Bol (multiline : bool)           (* ^ *)
  | Eol (multiline : bool)           (* $ *)
  | Group (r : re).                  (* ( ... ) *)

(** Matching context: the text before the current position, latest
    character first, and the text of the capturing group. *)
Record ctx := { before : list N; cap : option jsstring }.

Definition advance (c : N) (x : ctx) : ctx :=
  {| before := c :: before x; cap := cap x |}.

Definition at_bol (multiline : bool) (pre : list N) : bool :=
  match pre with
  | [] => true
  | c :: _ => multiline && is_line_terminator c
  end.

Definition at_eol (multiline : bool) (s : jsstring) : bool :=
  match s with
  | [] => true
  | c :: _ => multiline && is_line_terminator c
  end.

(** The context after the word [w] has been consumed. *)
Definition adv (w : jsstring) (x : ctx) : ctx :=
  {| before := rev w ++ before x; cap := cap x |}.

(** The text consumed between context [x0] and the later context [x]. *)
Definition consumed (x0 x : ctx) : jsstring :=
  rev (take (length (before x) - length (before x0)) (before x)).

Definition close_group (x0 x : ctx) : ctx :=
  {| before := before x; cap := Some (consumed x0 x) |}.

Section Matcher.
Context {R : Type}.

Fixpoint mt (r : re) (k : ctx -> jsstring -> option R) : ctx -> jsstring -> option R :=
  match r with
  | Eps => k
  | Chr p => fun x s =>
      match s with
      | c :: s' => if p c then k (advance c x) s' else None
      | [] => None
      end
  | Seq a b => mt a (mt b k)
  | Alt a b => fun x s =>
      match mt a k x s with
      | Some res => Some res
      | None => mt b k x s
      end
  | Star true p =>
      fix star (x : ctx) (s : jsstring) {struct s} : option R :=
        match s with
        | c :: s' =>
            if p c then
              match star (advance c x) s' with
              | Some res => Some res
              | None => k x s
              end
            else k x s
        | [] => k x s
        end
  | Star false p =>
      fix star (x : ctx) (s : jsstring) {struct s} : option R :=
        match k x s with
        | Some res => Some res
        | None =>
            match s with
            | c :: s' => if p c then star (advance c x) s' else None
            | [] => None
            end
        end
  | Bol m => fun x s => if at_bol m (before x) then k x s else None
  | Eol m => fun x s => if at_eol m s then k x s else None
  | Group r => fun x s => mt r (fun x' s' => k (close_group x x') s') x s
  end.

End Matcher.

(** What an expression denotes: [denotes r pre w post c c'] says that the
    word [w] matches [r] when the text before it is [pre] (latest
    character first) and the text after it is [post], and that the
    capture goes from [c] to [c'] on the way.  The surroundings matter to
    the anchors only.  The matcher is related to it in [RegexFacts]. *)
Fixpoint denotes (r : re) (pre : list N) (w post : jsstring) (c c' : option jsstring) : Prop :=
  match r with
  | Eps => w = [] /\ c' = c
  | Chr p => (exists a, w = [a] /\ p a = true) /\ c' = c
  | Seq a b =>
      exists w1 w2 c1, w = w1 ++ w2 /\ denotes a pre w1 (w2 ++ post) c c1 /\
                       denotes b (rev w1 ++ pre) w2 post c1 c'
  | Alt a b => denotes a pre w post c c' \/ denotes b pre w post c c'
  | Star _ p => Forall (fun a => p a = true) w /\ c' = c
  | Bol m => (w = [] /\ at_bol m pre = true) /\ c' = c
  | Eol m => (w = [] /\ at_eol m post = true) /\ c' = c
  | Group r => (exists c1, denotes r pre w post c c1) /\ c' = Some w
  end.

(** A word the expression matches from a fresh capture, and the capture
    it leaves. *)
Definition matches (r : re) (pre : list N) (w post : jsstring) : Prop :=
  exists g, denotes r pre w post None g.

(** The result of a successful match: [match.index], [match[0]],
    [match[1]], and the text after the match. *)
Record rmatch := {
  m_index : nat;
  m_text : jsstring;
  m_group : option jsstring;
  m_upto : list N;      (* the text up to the end of the match, latest first *)
  m_rest : jsstring
}.

(** An attempt at the current position. *)
Definition match_here (r : re) (pre : list N) (s : jsstring) : option rmatch :=
  let x0 := {| before := pre; cap := None |} in
  mt r (fun x s' => Some {| m_index := length pre;
                            m_text := consumed x0 x;
                            m_group := cap x;
                            m_upto := before x;
                            m_rest := s' |}) x0 s.

(** The search of [exec]: the leftmost position at which an attempt
    succeeds; [pre] is the text already passed, latest character first. *)
Fixpoint search (r : re) (pre : list N) (s : jsstring) : option rmatch :=
  match match_here r pre s with
  | Some m => Some m
  | None =>
      match s with
      | [] => None
      | c :: s' => search r (c :: pre) s'
      end
  end.

(** [re.exec(s)] of an expression without the global flag. *)
Definition exec (r : re) (s : jsstring) : option rmatch := search r [] s.

(** [s.replace(re, t)] for an expression without the global flag and a
    replacement text without [$] patterns: the first match is replaced. *)
Definition replace_first (r : re) (t s : jsstring) : jsstring :=
  match exec r s with
  | Some m => take (m_index m) s ++ t ++ m_rest m
  | None => s
  end.

(** Pattern building blocks. *)
Definition chr (c : N) : re := Chr (N.eqb c).

Fixpoint lit (s : jsstring) : re :=
  match s with
  | [] => Eps
  | [c] => chr c
  | c :: s' => Seq (chr c) (lit s')
  end.

(** Case folding of the [i] flag (without the [u] flag): a character is
    compared through its upper-case form, and a character outside ASCII
    never folds onto an ASCII one.  The definition is exact whenever one
    of the two compared characters is ASCII, which holds for every
    literal of the sources' patterns. *)
Definition canonicalize (c : N) : N :=
  if (97 <=? c) && (c <=? 122) then c - 32 else c.

Definition chr_i (c : N) : re := Chr (fun d => canonicalize d =? canonicalize c).

Fixpoint lit_i (s : jsstring) : re :=
  match s with
  | [] => Eps
  | [c] => chr_i c
  | c :: s' => Seq (chr_i c) (lit_i s')
  end.

Fixpoint seq (rs : list re) : re :=
  match rs with
  | [] => Eps
  | [r] => r
  | r :: rs' => Seq r (seq rs')
  end.

(** Character classes. *)
Definition cls_space : N -> bool := is_space.                       (* \s *)
Definition cls_digit (c : N) : bool := (48 <=? c) && (c <=? 57).    (* \d *)
Definition cls_digit_dot (c : N) : bool := cls_digit c || (c =? 46). (* [\d.] *)
Definition cls_any (c : N) : bool := true.                          (* [\s\S] *)
Definition cls_dot (c : N) : bool := negb (is_line_terminator c).   (* . *)
Definition cls_not (x : N) (c : N) : bool := negb (c =? x).         (* [^x] *)

Definition plus (p : N -> bool) : re := Seq (Chr p) (Star true p).  (* p+ *)

End Regex.

(** ** PreviewManager: the text functions *)
Module PreviewText.
Import Regex Preprocessor.

(** [/\\pgfplotsset\s*\{\s*compat\s*=\s*[\d.]+\s*\}/] *)
Definition COMPAT_REGEX : re :=
  seq [ lit (u16 "\pgfplotsset"); Star true cls_space;
        chr 123; Star true cls_space;
        lit (u16 "compat"); Star true cls_space;
        chr 61; Star true cls_space;
        plus cls_digit_dot; Star true cls_space;
        chr 125 ].

Definition COMPAT_1_16 : jsstring := u16 "\pgfplotsset{compat=1.16}".

(** The compat downgrade of [_renderTikzToSvg]. *)
Definition downgrade_compat (processed : jsstring) : jsstring :=
  replace_first COMPAT_REGEX COMPAT_1_16 processed.

(** A compat directive as the pattern reads it: optional white space
    around the brace, the key and the equals sign, and a version made of
    digits and dots. *)
Definition compat_directive (ws1 ws2 ws3 ws4 ver ws5 : jsstring) : jsstring :=
  u16 "\pgfplotsset" ++ ws1 ++ [123] ++ ws2 ++ u16 "compat" ++ ws3 ++ [61] ++ ws4 ++
  ver ++ ws5 ++ [125].

Definition all_space (ws : jsstring) : Prop := Forall (fun c => is_space c = true) ws.

Definition is_version (ver : jsstring) : Prop :=
  ver <> [] /\ Forall (fun c => cls_digit_dot c = true) ver.

Definition is_compat_directive (d : jsstring) : Prop :=
  exists ws1 ws2 ws3 ws4 ver ws5,
    d = compat_directive ws1 ws2 ws3 ws4 ver ws5 /\
    all_space ws1 /\ all_space ws2 /\ all_space ws3 /\ all_space ws4 /\
    is_version ver /\ all_space ws5.

(** The text [_renderTikzToSvg] hands to [tex2svg]. *)
Definition engine_source (source : jsstring) : jsstring :=
  downgrade_compat (preprocessSource source).

(** A thrown value that [_extractTexError] reads as a text: an error
    object with its [name] and [message] (both strings), or another
    value, given by its [String(...)] conversion.  The values it cannot
    read (a [message] that is truthy and not a string, a value [String]
    cannot convert) are added in [PreviewCatch.any]. *)
Inductive thrown :=
  | ErrorObject (name message : jsstring)
  | OtherValue (text : jsstring).

(** [String(err)]. *)
Definition to_String (err : thrown) : jsstring :=
  match err with
  | ErrorObject name [] => name
  | ErrorObject [] message => message
  | ErrorObject name message => name ++ u16 ": " ++ message
  | OtherValue text => text
  end.

(** [err?.message || String(err)]: an empty message is falsy. *)
Definition error_text (err : thrown) : jsstring :=
  match err with
  | ErrorObject _ (c :: m) => c :: m
  | _ => to_String err
  end.

(** [/!(.*?)(?:\n|$)/] *)
Definition TEX_ERROR_REGEX : re :=
  Seq (chr 33) (Seq (Group (Star false cls_dot)) (Alt (chr LF) (Eol false))).

(** [_extractTexError(err)] for a thrown value that reads as a text;
    [PreviewCatch._extractTexError] is the function on any value. *)
Definition _extractTexError (err : thrown) : jsstring :=
  let msg := error_text err in
  match exec TEX_ERROR_REGEX msg with
  | Some m =>
      u16 "TeX compilation failed: " ++ trim (default [] (m_group m))
  | None =>
      if includes msg (u16 "timed out") then msg
      else u16 "TeX compilation failed. Check your LaTeX syntax." ++ [LF] ++ take 300 msg
  end.

(** The rejection of the timeout timer:
    [new Error(`Render timed out after ${timeout}ms`)]; [digits] is the
    decimal text of the timeout. *)
Definition timeout_error (digits : jsstring) : thrown :=
  ErrorObject (u16 "Error") (u16 "Render timed out after " ++ digits ++ u16 "ms").

End PreviewText.

(** ** A state monad for the stateful code

    The asynchronous methods of the sources are modelled in sequence, as
    each call is awaited: a computation takes the state and returns a
    value with the new state.  [IllTyped] is the one way such a
    computation can leave the model: it finds, under a key of the store, a
    value of another shape than the code expects (the JavaScript code
    would go on with [undefined] fields or throw a [TypeError]). *)
Module StateMonad.

Inductive outcome (S A : Type) : Type :=
  | Ok (a : A) (s : S)
  | IllTyped.
Arguments Ok {S A} a s.
Arguments IllTyped {S A}.

Definition M (S A : Type) : Type := S -> outcome S A.

Definition ret {S A} (a : A) : M S A := fun s => Ok a s.

Definition bind {S A B} (m : M S A) (k : A -> M S B) : M S B :=
  fun s => match m s with
           | Ok a s' => k a s'
           | IllTyped => IllTyped
           end.

Definition ill_typed {S A} : M S A := fun _ => IllTyped.

Fixpoint for_each {S A} (l : list A) (body : A -> M S unit) : M S unit :=
  match l with
  | [] => ret tt
  | a :: l' => bind (body a) (fun _ => for_each l' body)
  end.

(** The final state of a computation that stays in the model. *)
Definition final_state {S A} (o : outcome S A) : option S :=
  match o with
  | Ok _ s => Some s
  | IllTyped => None
  end.

Definition result_of {S A} (o : outcome S A) : option A :=
  match o with
  | Ok a _ => Some a
  | IllTyped => None
  end.

End StateMonad.

Import StateMonad.

Declare Scope monad_scope.
Delimit Scope monad_scope with monad.
Notation "'let*' x := m 'in' k" := (bind m (fun x => k))
  (at level 10, x name, m at level 100, k at level 200) : monad_scope.
Notation "m ;; k" := (bind m (fun _ => k))
  (at level 100, k at level 200, right associativity) : monad_scope.

(** ** core/CacheEntry.ts *)
Module CacheEntry.

(** Time stamps are milliseconds since the epoch and the access count is a
    counter: both are JavaScript numbers holding integers, modelled as
    integers (the increment of [touch] is exact below 2^53). *)
Record CacheEntry := {
  hash : string;
  svg : jsstring;
  timestamp : Z;
  accessCount : Z
}.

(** [new CacheEntry(hash, svg, timestamp, accessCount)]. *)
Definition new_full (hash : string) (svg : jsstring) (timestamp accessCount : Z) : CacheEntry :=
  {| hash := hash; svg := svg; timestamp := timestamp; accessCount := accessCount |}.

(** [new CacheEntry(hash, svg)]: the time stamp defaults to [Date.now()],
    here [now], the access count to 0. *)
Definition new (now : Z) (hash : string) (svg : jsstring) : CacheEntry :=
  new_full hash svg now 0.

Definition isExpired (now : Z) (e : CacheEntry) (maxAge : Z) : bool :=
  (now - timestamp e >? maxAge)%Z.

Definition touch (e : CacheEntry) : CacheEntry :=
  {| hash := hash e; svg := svg e; timestamp := timestamp e;
     accessCount := (accessCount e + 1)%Z |}.

End CacheEntry.

(** ** core/CacheManager.ts *)
Module CacheManager.
Import CacheEntry.
Local Open Scope monad_scope.
Local Open Scope string_scope.

(** What [globalState] holds under a key: the plain object of an entry,
    or the array of the index. *)
Inductive stored :=
  | EntryData (d : CacheEntry)
  | IndexData (index : list string).

(** The [vscode.Memento] behind the cache. *)
Abbreviation Memento := (gmap string stored).

Definition CACHE_KEY_PREFIX : string := "tikzjax.cache.".
Definition CACHE_INDEX_KEY : string := "tikzjax.cache.index".

Definition getCacheKey (hash : string) : string := CACHE_KEY_PREFIX ++ hash.

(** [globalState.update(key, value)]; [undefined] removes the key. *)
Definition update (key : string) (value : option stored) : M Memento unit :=
  fun st => Ok tt match value with
                  | Some v => <[key := v]> st
                  | None => delete key st
                  end.

Definition get (hash : string) : M Memento (option CacheEntry) :=
  let key := getCacheKey hash in
  fun st =>
    match st !! key with
    | None => Ok None st
    | Some (EntryData data) =>
        let entry := touch (new_full (CacheEntry.hash data) (svg data) (timestamp data)
                                     (accessCount data)) in
        (update key (Some (EntryData entry)) ;; ret (Some entry)) st
    | Some (IndexData _) => IllTyped
    end.

Definition getIndex : M Memento (list string) :=
  fun st =>
    match st !! CACHE_INDEX_KEY with
    | None => Ok [] st
    | Some (IndexData index) => Ok index st
    | Some (EntryData _) => IllTyped
    end.

Definition addToIndex (hash : string) : M Memento unit :=
  let* index := getIndex in
  if bool_decide (hash ∈ index) then ret tt
  else update CACHE_INDEX_KEY (Some (IndexData (index ++ [hash]))).

Definition removeFromIndex (hash : string) : M Memento unit :=
  let* index := getIndex in
  let newIndex := filter (fun h => h <> hash) index in
  update CACHE_INDEX_KEY (Some (IndexData newIndex)).

Definition set (hash : string) (diagram : CacheEntry) : M Memento unit :=
  let key := getCacheKey hash in
  update key (Some (EntryData diagram)) ;;
  addToIndex hash.

Definition invalidate (hash : string) : M Memento unit :=
  let key := getCacheKey hash in
  update key None ;;
  removeFromIndex hash.

Definition clear : M Memento unit :=
  let* index := getIndex in
  for_each index (fun hash => update (getCacheKey hash) None) ;;
  update CACHE_INDEX_KEY None.

Record CacheStats := { entryCount : nat; totalSize : nat }.

Fixpoint sum_sizes (index : list string) (totalSize : nat) : M Memento nat :=
  match index with
  | [] => ret totalSize
  | hash :: rest =>
      let* entry := get hash in
      match entry with
      | Some e => sum_sizes rest (totalSize + (length (svg e) + 100))
      | None => sum_sizes rest totalSize
      end
  end.

Definition getStats : M Memento CacheStats :=
  let* index := getIndex in
  let* totalSize := sum_sizes index 0%nat in
  ret {| entryCount := length index; totalSize := totalSize |}.

(** *** Clients of the cache, for stating its properties *)

(** A call of the cache's interface. *)
Inductive op :=
  | OpSet (hash : string) (diagram : CacheEntry)
  | OpInvalidate (hash : string)
  | OpClear
  | OpGet (hash : string)
  | OpStats.

Definition run_op (o : op) : M Memento unit :=
  match o with
  | OpSet h d => set h d
  | OpInvalidate h => invalidate h
  | OpClear => clear
  | OpGet h => get h ;; ret tt
  | OpStats => getStats ;; ret tt
  end.

Definition run_ops (ops : list op) : M Memento unit := for_each ops run_op.

(** A hash is usable as a cache key unless its storage key is the key of
    the index, that is, unless it is the word after the last dot of
    [CACHE_INDEX_KEY].  Content hashes are 64 hexadecimal digits and
    always usable. *)
Definition usable (hash : string) : Prop := hash <> "index".

Definition op_usable (o : op) : Prop :=
  match o with
  | OpSet h _ => usable h
  | OpInvalidate h => usable h
  | OpGet h => usable h
  | OpClear | OpStats => True
  end.

(** The operation stores an entry under hash [h]. *)
Definition sets_hash (h : string) (o : op) : Prop :=
  match o with
  | OpSet h' _ => h' = h
  | _ => False
  end.

(** Two versions of an entry that differ in the access count at most. *)
Definition same_but_count (d d' : CacheEntry) : Prop :=
  hash d' = hash d /\ svg d' = svg d /\ timestamp d' = timestamp d.

(** What is stored for a hash after some operations was stored before
    them, with the same hash, artifact and time stamp, unless it is gone. *)
Definition kept_or_removed (before after : option CacheEntry) : Prop :=
  match after with
  | None => True
  | Some d' => exists d, before = Some d /\ same_but_count d d'
  end.

(** The set [{h | P h}] has [n] elements. *)
Definition counts (P : string -> Prop) (n : nat) : Prop :=
  exists l : list string, NoDup l /\ (forall h, h ∈ l <-> P h) /\ length l = n.

(** [get(h)] is present. *)
Definition present (st : Memento) (h : string) : Prop :=
  exists e st', get h st = Ok (Some e) st'.

(** An entry after [k] retrievals. *)
Definition accessed (k : nat) (d : CacheEntry) : CacheEntry :=
  {| hash := hash d; svg := svg d; timestamp := timestamp d;
     accessCount := (accessCount d + Z.of_nat k)%Z |}.

(** [n] retrievals in a row; the result of the last one. *)
Fixpoint get_times (n : nat) (hash : string) : M Memento (option CacheEntry) :=
  match n with
  | O => ret None
  | S O => get hash
  | S n' => get hash ;; get_times n' hash
  end.

(** The entry stored for a hash, read without touching it. *)
Definition peek (st : Memento) (h : string) : option CacheEntry :=
  match st !! getCacheKey h with
  | Some (EntryData d) => Some d
  | _ => None
  end.

(** The index is absent or an array. *)
Definition index_ok (st : Memento) : Prop :=
  match st !! CACHE_INDEX_KEY with
  | Some (EntryData _) => False
  | _ => True
  end.

Definition index_of (st : Memento) : list string :=
  match st !! CACHE_INDEX_KEY with
  | Some (IndexData index) => index
  | _ => []
  end.

(** The representation invariant of the cache: the index is a
    duplicate-free list of usable hashes, and a storage key holds an entry
    exactly when its hash is in the index. *)
Record consistent (st : Memento) : Prop := {
  cons_index : index_ok st;
  cons_nodup : NoDup (index_of st);
  cons_usable : forall h, h ∈ index_of st -> usable h;
  cons_entries : forall h, h ∈ index_of st -> is_Some (peek st h);
  cons_keys : forall k v, st !! k = Some v -> k <> CACHE_INDEX_KEY ->
                exists h d, k = getCacheKey h /\ v = EntryData d /\ h ∈ index_of st
}.

End CacheManager.

(** ** core/TikzBlock.ts and core/DocumentParser.ts *)
Module DocumentParser.
Import Regex.

(** [s.indexOf(t)] and [s.lastIndexOf(t)], -1 when [t] does not occur. *)
Fixpoint indexOf (s t : jsstring) : Z :=
  if starts_with t s then 0%Z
  else match s with
       | [] => (-1)%Z
       | _ :: r => let i := indexOf r t in if (i <? 0)%Z then (-1)%Z else (i + 1)%Z
       end.

Fixpoint lastIndexOf (s t : jsstring) : Z :=
  match s with
  | [] => if starts_with t [] then 0%Z else (-1)%Z
  | _ :: r =>
      let i := lastIndexOf r t in
      if (0 <=? i)%Z then (i + 1)%Z
      else if starts_with t s then 0%Z else (-1)%Z
  end.

(** [/^```tikz\s*$([\s\S]*?)^```\s*$/mig] *)
Definition TIKZ_BLOCK_REGEX : re :=
  seq [ Bol true; lit_i (u16 "```tikz"); Star true cls_space; Eol true;
        Group (Star false cls_any);
        Bol true; lit_i (u16 "```"); Star true cls_space; Eol true ].

(** The last four items of the pattern, which read the closing fence. *)
Definition CLOSING_FENCE : re :=
  seq [ Bol true; lit_i (u16 "```"); Star true cls_space; Eol true ].

(** The successive results of [TIKZ_BLOCK_REGEX.exec(text)] in the loop
    of [parse]: with the [g] flag each search starts where the previous
    match ended.  [exec] does not move on after an empty match, so the
    loop of the source would not end on one; the model then runs out of
    [fuel] and returns [None]. *)
Fixpoint exec_loop (fuel : nat) (pre : list N) (s : jsstring) : option (list rmatch) :=
  match fuel with
  | O => None
  | S fuel' =>
      match search TIKZ_BLOCK_REGEX pre s with
      | None => Some []
      | Some m =>
          match exec_loop fuel' (m_upto m) (m_rest m) with
          | Some ms => Some (m :: ms)
          | None => None
          end
      end
  end.

Definition parse_matches (text : jsstring) : option (list rmatch) :=
  exec_loop (S (length text)) [] text.

Section Blocks.
(** [generateHash] of utils/hash.ts: the SHA-256 digest in hexadecimal,
    computed by the platform's [crypto] library. *)
Variable generateHash : jsstring -> string.

(** A TikzBlock.  The range is kept as the two text offsets that [parse]
    hands to the host's [positionAt]; the random [id] and the line number
    derived from the range are left out. *)
Record TikzBlock := {
  source : jsstring;
  hash : string;
  range : Z * Z
}.

(** [new TikzBlock(source, range)]. *)
Definition new_TikzBlock (source : jsstring) (range : Z * Z) : TikzBlock :=
  {| source := source; hash := generateHash (trim source); range := range |}.

(** The body of the loop of [parse]. *)
Definition block_of_match (m : rmatch) : TikzBlock :=
  let fullMatch := m_text m in
  let codeContent := default [] (m_group m) in
  let startOffset := Z.of_nat (m_index m) in
  let openingFenceEnd := (startOffset + indexOf fullMatch [LF] + 1)%Z in
  let closingFenceStart := (startOffset + lastIndexOf fullMatch (LF :: u16 "```"))%Z in
  new_TikzBlock codeContent (openingFenceEnd, closingFenceStart).

Definition parse (text : jsstring) : option (list TikzBlock) :=
  map block_of_match <$> parse_matches text.

End Blocks.

(** *** The shape of a fenced block, for stating what is recognized *)

(** The four code units of a tag that reads "tikz" in any letter case. *)
Definition is_tikz_tag (tag : jsstring) : Prop :=
  exists t i k z, tag = [t; i; k; z] /\
    (t = 116 \/ t = 84) /\ (i = 105 \/ i = 73) /\ (k = 107 \/ k = 75) /\ (z = 122 \/ z = 90).

(** The position after [pre] is the start of a line, the position before
    [rest] the end of one. *)
Definition line_start (pre : list N) : Prop := at_bol true pre = true.
Definition line_end (rest : jsstring) : Prop := at_eol true rest = true.

(** A closing fence: three backticks at the start of a line, followed by
    white space only up to the end of a line. *)
Definition closing_fence (pre : list N) (w rest : jsstring) : Prop :=
  exists ws, w = u16 "```" ++ ws /\ line_start pre /\
             Forall (fun c => is_space c = true) ws /\ line_end rest.

(** A fenced block as the pattern reads it: at the start of a line three
    backticks, the tag right after them, white space only up to the end
    of a line, the captured [body], and a closing fence, the first one
    that starts after the opening line. *)
Definition fenced_block (pre : list N) (w : jsstring) (body : jsstring) (rest : jsstring) : Prop :=
  exists tag ws fence,
    w = u16 "```" ++ tag ++ ws ++ body ++ fence /\
    line_start pre /\ is_tikz_tag tag /\
    Forall (fun c => is_space c = true) ws /\
    line_end (body ++ fence ++ rest) /\
    closing_fence (rev (u16 "```" ++ tag ++ ws ++ body) ++ pre) fence rest /\
    (forall b1 b2 f r, body = b1 ++ b2 -> b2 <> [] -> b2 ++ fence ++ rest = f ++ r ->
                       ~ closing_fence (rev (u16 "```" ++ tag ++ ws ++ b1) ++ pre) f r).

(** What the extraction returns for the text [s] that follows [pre]: the
    matches are the fenced blocks met from left to right, each one the
    first that starts at or after the end of the previous one. *)
Inductive extraction : list N -> jsstring -> list rmatch -> Prop :=
  | extraction_done pre s :
      (forall p r w body rest, s = p ++ r -> r = w ++ rest ->
                               ~ fenced_block (rev p ++ pre) w body rest) ->
      extraction pre s []
  | extraction_block pre s p m ms body :
      s = p ++ m_text m ++ m_rest m ->
      m_index m = (length pre + length p)%nat ->
      m_group m = Some body ->
      fenced_block (rev p ++ pre) (m_text m) body (m_rest m) ->
      (forall p1 p2 w body' rest,
         p = p1 ++ p2 -> p2 <> [] -> p2 ++ m_text m ++ m_rest m = w ++ rest ->
         ~ fenced_block (rev p1 ++ pre) w body' rest) ->
      extraction (rev (m_text m) ++ rev p ++ pre) (m_rest m) ms ->
      extraction pre s (m :: ms).

(** The start offsets of the matches increase, and no match starts
    before the previous one has ended. *)
Fixpoint in_document_order (from : nat) (ms : list rmatch) : Prop :=
  match ms with
  | [] => True
  | m :: ms' =>
      (from <= m_index m)%nat /\
      in_document_order (m_index m + length (m_text m)) ms'
  end.

End DocumentParser.

(** ** PreviewManager: rendering one block and a whole document

    The methods are modelled as they run when each call is awaited before
    the next one starts; how calls interleave is the subject of
    [RenderChain] and [Orchestrator] below.  The engine throws values
    that read as text ([thrown]); what the code does with any other
    thrown value is the subject of [PreviewCatch]. *)
Module PreviewManager.
Import CacheEntry CacheManager DocumentParser PreviewText.
Local Open Scope monad_scope.

(** How a call of [tex2svg] ends for its caller: with the SVG text, with
    a thrown value, or not before the time-out timer fires. *)
Inductive engine_reply :=
  | Resolves (svg : jsstring)
  | Rejects (err : thrown)
  | Late.

(** An entry of the memory cache: [{ svg?: string; error?: string }]. *)
Inductive render_result :=
  | ResultSvg (svg : jsstring)
  | ResultError (error : jsstring).

(** The fields of a PreviewManager, with the persistent store of its
    CacheManager, and three observations of what it did: the calls of
    [tex2svg] (for which hash, with which text), the number of nudges and
    the number of block extractions. *)
Record state := {
  svgCache : gmap string render_result;
  globalState : Memento;
  isRendering : bool;
  tikzjaxLoaded : bool;
  engineCalls : list (string * jsstring);
  nudges : nat;
  extractions : nat
}.

Definition initial : state :=
  {| svgCache := ∅; globalState := ∅; isRendering := false; tikzjaxLoaded := false;
     engineCalls := []; nudges := 0; extractions := 0 |}.

Definition with_svgCache (f : gmap string render_result -> gmap string render_result)
    (s : state) : state :=
  {| svgCache := f (svgCache s); globalState := globalState s;
     isRendering := isRendering s; tikzjaxLoaded := tikzjaxLoaded s;
     engineCalls := engineCalls s; nudges := nudges s; extractions := extractions s |}.

Definition with_globalState (g : Memento) (s : state) : state :=
  {| svgCache := svgCache s; globalState := g;
     isRendering := isRendering s; tikzjaxLoaded := tikzjaxLoaded s;
     engineCalls := engineCalls s; nudges := nudges s; extractions := extractions s |}.

Definition with_isRendering (b : bool) (s : state) : state :=
  {| svgCache := svgCache s; globalState := globalState s;
     isRendering := b; tikzjaxLoaded := tikzjaxLoaded s;
     engineCalls := engineCalls s; nudges := nudges s; extractions := extractions s |}.

Definition with_engine_call (hash : string) (tex : jsstring) (s : state) : state :=
  {| svgCache := svgCache s; globalState := globalState s;
     isRendering := isRendering s; tikzjaxLoaded := true;
     engineCalls := engineCalls s ++ [(hash, tex)]; nudges := nudges s;
     extractions := extractions s |}.

Definition with_nudge (s : state) : state :=
  {| svgCache := svgCache s; globalState := globalState s;
     isRendering := isRendering s; tikzjaxLoaded := tikzjaxLoaded s;
     engineCalls := engineCalls s; nudges := S (nudges s); extractions := extractions s |}.

Definition with_extraction (s : state) : state :=
  {| svgCache := svgCache s; globalState := globalState s;
     isRendering := isRendering s; tikzjaxLoaded := tikzjaxLoaded s;
     engineCalls := engineCalls s; nudges := nudges s; extractions := S (extractions s) |}.

Definition modify (f : state -> state) : M state unit := fun s => Ok tt (f s).

(** A call of the CacheManager on the store of the state. *)
Definition on_cache {A} (m : M Memento A) : M state A :=
  fun s => match m (globalState s) with
           | Ok a g => Ok a (with_globalState g s)
           | IllTyped => IllTyped
           end.

Section Host.
(** The collaborators: the hash function, the SVG post-processor ([None]
    when it throws), the engine (its reply may depend on the texts it was
    called with before), the colour theme, the clock (read after so many
    engine calls) and the configured time-out. *)
Variable generateHash : jsstring -> string.
Variable postProcessSvg : jsstring -> bool -> option jsstring.
Variable tex2svg : list jsstring -> jsstring -> engine_reply.
Variable darkMode : bool.
Variable Date_now : nat -> Z.
Variable renderTimeout : N.

Definition getSvg (hash : string) (s : state) : option render_result := svgCache s !! hash.

Definition clearMemoryCache : M state unit := modify (with_svgCache (fun _ => ∅)).

Definition _applyPostProcessing (svg : jsstring) (dark : bool) : jsstring :=
  default svg (postProcessSvg svg dark).

Definition _isDarkMode : bool := darkMode.

Definition _nudgeDocument : M state unit := modify with_nudge.

(** The decimal text of a number, for the time-out message. *)
Definition decimal (n : N) : jsstring :=
  u16 (NilZero.string_of_uint (N.to_uint n)).

(** [this._config.renderTimeout || 15000]. *)
Definition timeout_ms : N := if renderTimeout =? 0 then 15000 else renderTimeout.

(** The result of [Promise.race([svgPromise, timeoutPromise])]: [inl] the
    SVG, [inr] the thrown value.  When the engine is late the timer wins
    and rejects; the call of the engine is not cancelled. *)
Definition race (reply : engine_reply) : jsstring + thrown :=
  match reply with
  | Resolves svg => inl svg
  | Rejects err => inr err
  | Late => inr (timeout_error (decimal timeout_ms))
  end.

(** [_renderTikzToSvg].  [hash] only labels the engine call in
    [engineCalls]. *)
Definition _renderTikzToSvg (hash : string) (source : jsstring) : M state (jsstring + thrown) :=
  fun s =>
    let processed := engine_source source in
    let reply := tex2svg (map snd (engineCalls s)) processed in
    Ok (race reply) (with_engine_call hash processed s).

(** What the step of [_renderSingleBlock] does once [_renderTikzToSvg]
    has returned or thrown: the rest of the [try] block, or the [catch]
    block, which returns for a thrown value that reads as text (for the
    others see [PreviewCatch._renderSingleBlock]). *)
Definition settle (hash : string) (r : jsstring + thrown) : M state unit :=
  match r with
  | inl svg =>
      let dark := _isDarkMode in
      let processed := _applyPostProcessing svg dark in
      modify (with_svgCache (insert hash (ResultSvg processed))) ;;
      let* now := (fun s => Ok (Date_now (length (engineCalls s))) s) in
      let entry := CacheEntry.new now hash svg in
      on_cache (CacheManager.set hash entry)
  | inr err =>
      let errorMsg := _extractTexError err in
      modify (with_svgCache (insert hash (ResultError errorMsg)))
  end.

(** The step [_renderSingleBlock] appends to the render chain, run at
    once. *)
Definition _renderSingleBlock (hash : string) (source : jsstring) : M state unit :=
  let* r := _renderTikzToSvg hash source in
  settle hash r.

(** The blocks of a text; [parse] always returns, as is proved below. *)
Definition parse_blocks (text : jsstring) : list (TikzBlock) :=
  default [] (parse generateHash text).

(** The body of the loop of [renderDocument]. *)
Definition render_block (block : TikzBlock) : M state unit :=
  fun s =>
    if bool_decide (is_Some (svgCache s !! hash block)) then Ok tt s
    else
      (let* cached := on_cache (CacheManager.get (hash block)) in
       match cached with
       | Some entry =>
           let dark := _isDarkMode in
           let processed := _applyPostProcessing (CacheEntry.svg entry) dark in
           modify (with_svgCache (insert (hash block) (ResultSvg processed))) ;;
           _nudgeDocument
       | None =>
           _renderSingleBlock (hash block) (source block) ;;
           _nudgeDocument
       end) s.

(** [renderDocument(document)], the document given by its text. *)
Definition renderDocument (text : jsstring) : M state unit :=
  fun s =>
    if isRendering s then Ok tt s
    else
      let blocks := parse_blocks text in
      let s := with_extraction s in
      match blocks with
      | [] => Ok tt s
      | _ =>
          (modify (with_isRendering true) ;;
           for_each blocks render_block ;;
           modify (with_isRendering false)) s
      end.

Definition retryBlock (hash : string) (source : jsstring) : M state unit :=
  modify (with_svgCache (delete hash)) ;;
  on_cache (CacheManager.invalidate hash) ;;
  _renderSingleBlock hash source ;;
  _nudgeDocument.

Definition resetEngine : M state unit :=
  modify (fun s =>
    {| svgCache := ∅; globalState := globalState s;
       isRendering := isRendering s; tikzjaxLoaded := false;
       engineCalls := engineCalls s; nudges := nudges s; extractions := extractions s |}).

(** *** For stating the properties *)

(** The fingerprints the engine was called for, in call order. *)
Definition engine_hashes (s : state) : list string := map fst (engineCalls s).

(** The fingerprint is resolved by neither cache. *)
Definition unresolved (s : state) (h : string) : Prop :=
  svgCache s !! h = None /\ peek (globalState s) h = None.

(** What a state keeps when only the caches and the observations of one
    block change. *)
Definition block_frame (h : string) (s s' : state) : Prop :=
  consistent (globalState s') /\
  isRendering s' = isRendering s /\
  extractions s' = extractions s /\
  is_Some (svgCache s' !! h) /\
  (forall h', h' <> h -> svgCache s' !! h' = svgCache s !! h' /\
                         peek (globalState s') h' = peek (globalState s) h').

Definition unresolvedb (s : state) (h : string) : bool :=
  match svgCache s !! h, peek (globalState s) h with
  | None, None => true
  | _, _ => false
  end.

(** The thrown value a reply of the engine makes of the render, if it
    fails. *)
Definition failure (reply : engine_reply) : option thrown :=
  match race reply with
  | inl _ => None
  | inr err => Some err
  end.

(** The distinct elements of a list, in the order of their first
    occurrence. *)
Fixpoint distinct (l : list string) : list string :=
  match l with
  | [] => []
  | h :: l' => h :: filter (fun h' => h' <> h) (distinct l')
  end.

End Host.

End PreviewManager.

(** ** Interleaved calls of [renderDocument]

    The runtime is single-threaded: a call runs until it awaits, and
    other calls may run before it resumes.  A pass of [renderDocument]
    awaits inside each iteration of its loop (cache access, render,
    nudge).  The model lets any other call of [renderDocument] happen
    between two iterations and after the last one; an iteration itself
    is one step. *)
Module Orchestrator.
Import DocumentParser PreviewManager.

(** A call of [renderDocument]: in its loop with blocks still to do, at
    its end, or returned by the re-entrancy guard. *)
Inductive pass :=
  | Running (todo : list TikzBlock)
  | Finished
  | Dropped.

Record world := { pm : state; passes : list pass }.

Inductive label :=
  | Call (text : jsstring)     (* renderDocument is called *)
  | Resume (i : nat).          (* the i-th call goes on with its next block *)

Definition initial_world : world := {| pm := initial; passes := [] |}.

Definition active (p : pass) : bool :=
  match p with
  | Running _ => true
  | _ => false
  end.

Section Host.
Variable generateHash : jsstring -> string.
Variable postProcessSvg : jsstring -> bool -> option jsstring.
Variable tex2svg : list jsstring -> jsstring -> engine_reply.
Variable darkMode : bool.
Variable Date_now : nat -> Z.
Variable renderTimeout : N.

(** The start of [renderDocument], up to the first await. *)
Definition call (text : jsstring) (w : world) : world :=
  if isRendering (pm w) then
    {| pm := pm w; passes := passes w ++ [Dropped] |}
  else
    let blocks := parse_blocks generateHash text in
    let s := with_extraction (pm w) in
    match blocks with
    | [] => {| pm := s; passes := passes w ++ [Finished] |}
    | _ => {| pm := with_isRendering true s; passes := passes w ++ [Running blocks] |}
    end.

(** One iteration of the loop of the [i]-th call; after the last block
    the [finally] clause resets the flag. *)
Definition resume (i : nat) (w : world) : option world :=
  match passes w !! i with
  | Some (Running (b :: rest)) =>
      match render_block postProcessSvg tex2svg darkMode Date_now renderTimeout b (pm w) with
      | Ok _ s' =>
          Some match rest with
               | [] => {| pm := with_isRendering false s';
                          passes := <[i := Finished]> (passes w) |}
               | _ => {| pm := s'; passes := <[i := Running rest]> (passes w) |}
               end
      | IllTyped => None
      end
  | _ => None
  end.

Definition step (l : label) (w : world) : option world :=
  match l with
  | Call text => Some (call text w)
  | Resume i => resume i w
  end.

Fixpoint run (ls : list label) (w : world) : option world :=
  match ls with
  | [] => Some w
  | l :: ls' =>
      match step l w with
      | Some w' => run ls' w'
      | None => None
      end
  end.

End Host.

(** The flag is set exactly while one call is in its loop, and no other
    call is. *)
Definition exclusive (w : world) : Prop :=
  (isRendering (pm w) = false /\ Forall (fun p => active p = false) (passes w)) \/
  (isRendering (pm w) = true /\
   exists i todo, passes w !! i = Some (Running todo) /\
     forall j p, passes w !! j = Some p -> j <> i -> active p = false).

End Orchestrator.

(** ** The render chain

    [_renderSingleBlock] appends its step to the promise [_renderChain]
    with [then] and awaits the promise it has just stored.  The model
    keeps, for every request, the promise its step was chained on and the
    promise its caller awaits, and lets the engine, the timer and the
    callers move in any order the promises allow. *)
Module RenderChain.
Import PreviewText PreviewManager.

(** A step: waiting for the promise it was chained on ([None] is the
    resolved promise the chain starts with), racing the engine against
    the timer, settled by the timer while the engine call still runs, or
    settled with the engine call over. *)
Inductive status :=
  | Waiting (on : option nat)
  | Racing
  | Abandoned
  | Finished.

Record request := {
  r_hash : string;
  r_source : jsstring;
  r_status : status;
  r_awaited : option nat     (* the promise the caller awaits *)
}.

Record chain := {
  pm : state;
  requests : list request;       (* in the order of the calls *)
  _renderChain : option nat;     (* the step whose promise the field holds *)
  resumed : list nat             (* the callers that went on after the await *)
}.

Inductive label :=
  | Submit (hash : string) (source : jsstring)   (* _renderSingleBlock is called *)
  | Start (i : nat)                              (* step i runs up to the race *)
  | EngineDone (i : nat) (r : jsstring + thrown) (* the engine call of step i ends *)
  | TimerFires (i : nat)                         (* the timer of step i fires *)
  | CallerResumes (i : nat).                     (* the caller of request i goes on *)

Definition initial_chain : chain :=
  {| pm := initial; requests := []; _renderChain := None; resumed := [] |}.

Definition settled (st : status) : bool :=
  match st with
  | Abandoned | Finished => true
  | _ => false
  end.

(** The engine call of the step has begun and is not over. *)
Definition in_flight (st : status) : bool :=
  match st with
  | Racing | Abandoned => true
  | _ => false
  end.

Definition begun (st : status) : bool :=
  match st with
  | Waiting _ => false
  | _ => true
  end.

Definition with_status (st : status) (r : request) : request :=
  {| r_hash := r_hash r; r_source := r_source r; r_status := st; r_awaited := r_awaited r |}.

(** The promise is fulfilled. *)
Definition fulfilled (c : chain) (p : option nat) : bool :=
  match p with
  | None => true
  | Some j =>
      match requests c !! j with
      | Some r => settled (r_status r)
      | None => false
      end
  end.

Section Host.
Variable postProcessSvg : jsstring -> bool -> option jsstring.
Variable darkMode : bool.
Variable Date_now : nat -> Z.
Variable renderTimeout : N.

(** [this._renderChain = this._renderChain.then(step)], and the promise
    the caller then awaits. *)
Definition submit (hash : string) (source : jsstring) (c : chain) : chain :=
  let step := length (requests c) in
  let chained_on := _renderChain c in
  let tail := Some step in
  {| pm := pm c;
     requests := requests c ++
                 [{| r_hash := hash; r_source := source;
                     r_status := Waiting chained_on; r_awaited := tail |}];
     _renderChain := tail;
     resumed := resumed c |}.

(** The step starts once the promise it was chained on is fulfilled; it
    calls the engine and awaits the race. *)
Definition start (i : nat) (c : chain) : option chain :=
  match requests c !! i with
  | Some r =>
      match r_status r with
      | Waiting on =>
          if fulfilled c on then
            Some {| pm := with_engine_call (r_hash r) (engine_source (r_source r)) (pm c);
                    requests := <[i := with_status Racing r]> (requests c);
                    _renderChain := _renderChain c;
                    resumed := resumed c |}
          else None
      | _ => None
      end
  | None => None
  end.

Definition settle_with (i : nat) (r : request) (res : jsstring + thrown) (st : status)
    (c : chain) : option chain :=
  match settle postProcessSvg darkMode Date_now (r_hash r) res (pm c) with
  | Ok _ s' =>
      Some {| pm := s'; requests := <[i := with_status st r]> (requests c);
              _renderChain := _renderChain c; resumed := resumed c |}
  | IllTyped => None
  end.

(** The engine call ends: it settles the race if the timer has not. *)
Definition engine_done (i : nat) (res : jsstring + thrown) (c : chain) : option chain :=
  match requests c !! i with
  | Some r =>
      match r_status r with
      | Racing => settle_with i r res Finished c
      | Abandoned =>
          Some {| pm := pm c; requests := <[i := with_status Finished r]> (requests c);
                  _renderChain := _renderChain c; resumed := resumed c |}
      | _ => None
      end
  | None => None
  end.

(** The timer fires first: the race rejects, the engine call goes on. *)
Definition timer_fires (i : nat) (c : chain) : option chain :=
  match requests c !! i with
  | Some r =>
      match r_status r with
      | Racing =>
          settle_with i r (inr (timeout_error (decimal (timeout_ms renderTimeout)))) Abandoned c
      | _ => None
      end
  | None => None
  end.

(** The caller goes on when the promise it awaits is fulfilled. *)
Definition caller_resumes (i : nat) (c : chain) : option chain :=
  match requests c !! i with
  | Some r =>
      if fulfilled c (r_awaited r) then
        Some {| pm := pm c; requests := requests c; _renderChain := _renderChain c;
                resumed := resumed c ++ [i] |}
      else None
  | None => None
  end.

Definition step (l : label) (c : chain) : option chain :=
  match l with
  | Submit hash source => Some (submit hash source c)
  | Start i => start i c
  | EngineDone i res => engine_done i res c
  | TimerFires i => timer_fires i c
  | CallerResumes i => caller_resumes i c
  end.

Fixpoint run (ls : list label) (c : chain) : option chain :=
  match ls with
  | [] => Some c
  | l :: ls' =>
      match step l c with
      | Some c' => run ls' c'
      | None => None
      end
  end.

End Host.

Definition is_timer (l : label) : bool :=
  match l with
  | TimerFires _ => true
  | _ => false
  end.

(** The event that settles the race of step [i], for a reply of the
    engine. *)
Definition settling (i : nat) (reply : engine_reply) : label :=
  match reply with
  | Resolves svg => EngineDone i (inl svg)
  | Rejects err => EngineDone i (inr err)
  | Late => TimerFires i
  end.

(** The shape of the chain: every step was chained on the step before
    it, every caller awaits its own step, the field holds the last step,
    a step has begun only if all earlier steps are settled, the engine
    was called for the begun steps in their order, and the callers that
    went on have their step settled. *)
Record chained (c : chain) : Prop := {
  ch_tail : _renderChain c =
            match length (requests c) with O => None | S n => Some n end;
  ch_links : forall i r, requests c !! i = Some r ->
               r_awaited r = Some i /\
               forall on, r_status r = Waiting on ->
                          on = match i with O => None | S n => Some n end;
  ch_order : forall i j ri rj, (i < j)%nat ->
               requests c !! i = Some ri -> requests c !! j = Some rj ->
               begun (r_status rj) = true -> settled (r_status ri) = true;
  ch_calls : exists k, (k <= length (requests c))%nat /\
               engineCalls (pm c) =
               map (fun r => (r_hash r, engine_source (r_source r))) (take k (requests c)) /\
               forall i r, requests c !! i = Some r ->
                           (begun (r_status r) = true <-> (i < k)%nat);
  ch_resumed : forall i, i ∈ resumed c ->
                 exists r, requests c !! i = Some r /\ settled (r_status r) = true
}.

(** No engine call has been left running by a timer. *)
Definition none_abandoned (c : chain) : Prop :=
  Forall (fun r => r_status r <> Abandoned) (requests c).

End RenderChain.

(** ** The content of a text

    For stating what the text functions keep. *)
Module Content.

(** The code units of a text that are not white space, in their order. *)
Definition ink (s : jsstring) : jsstring :=
  filter (fun c => is_space c = false) (s : list N).

End Content.

(** ** PreviewManager: the libraries a source loads *)
Module PreviewDetect.
Import Regex Preprocessor.

(** [/\\usetikzlibrary\{([^}]+)\}/g] *)
Definition TIKZLIBRARY_REGEX : re :=
  seq [ lit (u16 "\usetikzlibrary{"); Group (plus (cls_not 125)); chr 125 ].

(** The successive results of [regex.exec(source)] in a [while] loop,
    for an expression with the [g] flag: each search starts where the
    previous match ended.  As in [exec_loop], [fuel] bounds the number of
    searches; a loop of the source that would not end runs out of it. *)
Fixpoint exec_all (r : re) (fuel : nat) (pre : list N) (s : jsstring) : option (list rmatch) :=
  match fuel with
  | O => None
  | S fuel' =>
      match search r pre s with
      | None => Some []
      | Some m =>
          match exec_all r fuel' (m_upto m) (m_rest m) with
          | Some ms => Some (m :: ms)
          | None => None
          end
      end
  end.

(** [s.split(sep)] and [pieces.join(sep)] for a separator of one
    character. *)
Fixpoint split_on (sep : N) (s : jsstring) : list jsstring :=
  match s with
  | [] => [[]]
  | c :: r =>
      if c =? sep then [] :: split_on sep r
      else match split_on sep r with
           | l :: ls => (c :: l) :: ls
           | [] => [[c]]
           end
  end.

Fixpoint join_with (sep : N) (ls : list jsstring) : jsstring :=
  match ls with
  | [] => []
  | [l] => l
  | l :: ls' => l ++ sep :: join_with sep ls'
  end.

(** [match[1].split(',').map(s => s.trim()).filter(Boolean)] *)
Definition library_names (group : jsstring) : list jsstring :=
  filter (fun name => nonempty name = true) (map trim (split_on 44 group)).

(** [_detectTikzLibraries(source)] *)
Definition _detectTikzLibraries (source : jsstring) : option (list jsstring) :=
  flat_map (fun m => library_names (default [] (m_group m))) <$>
    exec_all TIKZLIBRARY_REGEX (S (length source)) [] source.

(** The option [tikzLibraries] that [_renderTikzToSvg] hands to the
    engine: [this._detectTikzLibraries(processed).join(',')]. *)
Definition tikzLibraries (processed : jsstring) : option jsstring :=
  join_with 44 <$> _detectTikzLibraries processed.

End PreviewDetect.

(** ** extension.ts

    The functions of the extension's entry point that work on the
    PreviewManager and the caches: the fence rule it registers with the
    Markdown renderer, the background render it schedules, and the
    commands. *)
Module Extension.
Import CacheEntry CacheManager DocumentParser PreviewText PreviewManager.
Local Open Scope monad_scope.

(** [text.replace(/c/g, t)] for a pattern of one character and a
    replacement text without [$]. *)
Definition replace_all_char (c : N) (t : jsstring) (text : jsstring) : jsstring :=
  flat_map (fun d => if d =? c then t else [d]) text.

Definition escapeHtml (text : jsstring) : jsstring :=
  replace_all_char 34 (u16 "&quot;")
    (replace_all_char 62 (u16 "&gt;")
       (replace_all_char 60 (u16 "&lt;")
          (replace_all_char 38 (u16 "&amp;") text))).

(** The entity that stands for a character, for stating what
    [escapeHtml] does. *)
Definition entity (c : N) : jsstring :=
  if c =? 38 then u16 "&amp;"
  else if c =? 60 then u16 "&lt;"
  else if c =? 62 then u16 "&gt;"
  else if c =? 34 then u16 "&quot;"
  else [c].

(** A text between double quotes. *)
Definition quoted (s : jsstring) : jsstring := [34] ++ s ++ [34].

(** The three pieces of HTML the fence rule returns. *)
Definition diagram_html (svg : jsstring) : jsstring :=
  u16 "<div class=" ++ quoted (u16 "tikz-diagram") ++ u16 ">" ++ svg ++ u16 "</div>" ++ [LF].

Definition error_html (escaped : jsstring) : jsstring :=
  u16 "<div class=" ++ quoted (u16 "tikz-diagram tikz-error") ++ u16 ">" ++
  u16 "<div class=" ++ quoted (u16 "tikz-error-title") ++ u16 ">" ++
  [9888] ++ u16 " Rendering Error</div>" ++
  u16 "<pre class=" ++ quoted (u16 "tikz-error-message") ++ u16 ">" ++
  escaped ++ u16 "</pre></div>" ++ [LF].

Definition loading_html : jsstring :=
  u16 "<div class=" ++ quoted (u16 "tikz-diagram tikz-loading") ++ u16 ">" ++
  u16 "<span class=" ++ quoted (u16 "tikz-spinner") ++ u16 "></span>" ++
  u16 " Rendering TikZ diagram" ++ [8230] ++ u16 "</div>" ++ [LF].

(** The module-level state next to the PreviewManager: the calls of
    [renderDocument] under way (as in [Orchestrator]), the flag
    [bgRenderScheduled], and the number of timers set by
    [scheduleBackgroundRender] that have not fired yet. *)
Record ext := {
  world : Orchestrator.world;
  bgRenderScheduled : bool;
  timers : nat
}.

Definition initial_ext : ext :=
  {| world := Orchestrator.initial_world; bgRenderScheduled := false; timers := 0 |}.


(** [scheduleBackgroundRender()], up to the [setTimeout]. *)
Definition scheduleBackgroundRender (e : ext) : ext :=
  if bgRenderScheduled e then e
  else {| world := world e; bgRenderScheduled := true; timers := S (timers e) |}.

(** What the fence rule returns: HTML of its own, or what the default
    rule makes of the token. *)
Inductive fence_result :=
  | Html (html : jsstring)
  | DefaultFence.

(** What happens in the extension host. *)
Inductive event :=
  | Fence (info content : jsstring)      (* the Markdown renderer meets a fence *)
  | TimerFires (doc : option jsstring)   (* a background-render timer fires *)
  | Render (text : jsstring)             (* another caller calls renderDocument *)
  | Resume (i : nat).                    (* the i-th call goes on with its next block *)

Section Host.
Variable generateHash : jsstring -> string.
Variable postProcessSvg : jsstring -> bool -> option jsstring.
Variable tex2svg : list jsstring -> jsstring -> engine_reply.
Variable darkMode : bool.
Variable Date_now : nat -> Z.
Variable renderTimeout : N.
(** [String.prototype.toLowerCase], the platform's case mapping. *)
Variable toLowerCase : jsstring -> jsstring.

(** The rule [md.renderer.rules.fence] that [extendMarkdownIt] installs,
    for a token with the given [info] and [content]; a text is truthy
    when it is not empty. *)
Definition fence (info content : jsstring) (e : ext) : fence_result * ext :=
  let info := toLowerCase (trim info) in
  if bool_decide (info = u16 "tikz") then
    let source := content in
    let hash := generateHash (trim source) in
    match getSvg hash (Orchestrator.pm (world e)) with
    | Some (ResultSvg (c :: svg)) => (Html (diagram_html (c :: svg)), e)
    | Some (ResultError (c :: error)) => (Html (error_html (escapeHtml (c :: error))), e)
    | _ => (Html loading_html, scheduleBackgroundRender e)
    end
  else (DefaultFence, e).

(** The callback of the timer that [scheduleBackgroundRender] sets, up
    to the first await of [renderDocument]; [doc] is what
    [findMarkdownDocument()] returns then. *)
Definition background_render (doc : option jsstring) (e : ext) : option ext :=
  match timers e with
  | O => None
  | S n =>
      Some {| world := match doc with
                       | None => world e
                       | Some text => Orchestrator.call generateHash text (world e)
                       end;
              bgRenderScheduled := false;
              timers := n |}
  end.

Definition step (ev : event) (e : ext) : option ext :=
  match ev with
  | Fence info content => Some (snd (fence info content e))
  | TimerFires doc => background_render doc e
  | Render text =>
      Some {| world := Orchestrator.call generateHash text (world e);
              bgRenderScheduled := bgRenderScheduled e; timers := timers e |}
  | Resume i =>
      match Orchestrator.resume postProcessSvg tex2svg darkMode Date_now renderTimeout
              i (world e) with
      | Some w => Some {| world := w; bgRenderScheduled := bgRenderScheduled e;
                          timers := timers e |}
      | None => None
      end
  end.

Fixpoint run (evs : list event) (e : ext) : option ext :=
  match evs with
  | [] => Some e
  | ev :: evs' =>
      match step ev e with
      | Some e' => run evs' e'
      | None => None
      end
  end.



(** The handler of [onDidChangeActiveColorTheme]. *)
Definition onDidChangeActiveColorTheme (doc : option jsstring) : M state unit :=
  clearMemoryCache ;;
  match doc with
  | Some text =>
      renderDocument generateHash postProcessSvg tex2svg darkMode Date_now renderTimeout text
  | None => ret tt
  end.

End Host.

End Extension.

(** ** The outcome of a render, for stating what the caches hold *)
Module PreviewOutcome.
Import CacheEntry CacheManager PreviewText PreviewManager.

Section Host.
Variable postProcessSvg : jsstring -> bool -> option jsstring.
Variable darkMode : bool.

(** What a settled race leaves in the memory cache: the post-processed
    SVG, or the message made of the thrown value. *)
Definition memory_result (r : jsstring + thrown) : render_result :=
  match r with
  | inl svg => ResultSvg (_applyPostProcessing postProcessSvg svg darkMode)
  | inr err => ResultError (_extractTexError err)
  end.

(** What the memory cache holds for an entry read from the store. *)
Definition restored (d : CacheEntry) : render_result :=
  ResultSvg (_applyPostProcessing postProcessSvg (svg d) darkMode).

End Host.

(** The reply the engine gives when it is called for [source] in state
    [s], as the race against the timer settles it. *)
Definition settled_reply (tex2svg : list jsstring -> jsstring -> engine_reply)
    (renderTimeout : N) (s : state) (source : jsstring) : jsstring + thrown :=
  race renderTimeout (tex2svg (map snd (engineCalls s)) (engine_source source)).

(** What a settled race leaves in the store under the hash, when made at
    time [now]: the raw SVG in a new entry, or nothing. *)
Definition persisted (now : Z) (hash : string) (r : jsstring + thrown) : option CacheEntry :=
  match r with
  | inl svg => Some (CacheEntry.new now hash svg)
  | inr _ => None
  end.

(** The memory cache does not hold the hash. *)
Definition memory_miss (s : state) (h : string) : Prop := svgCache s !! h = None.

#[global] Instance memory_miss_dec (s : state) (h : string) : Decision (memory_miss s h).
Proof. unfold memory_miss. apply _. Defined.

(** What a state keeps when a block is handled: the flag and the count
    of extractions. *)
Definition same_pass (s s' : state) : Prop :=
  isRendering s' = isRendering s /\ extractions s' = extractions s.

(** The entries of all other hashes are as before, in both caches. *)
Definition others_kept (h : string) (s s' : state) : Prop :=
  forall h', h' <> h ->
    svgCache s' !! h' = svgCache s !! h' /\
    peek (globalState s') h' = peek (globalState s) h'.

End PreviewOutcome.

(** ** DocumentParser.watchDocument

    The watcher listens to the changes of all documents and, for the
    watched one, parses it 500 ms after its last change.  The model has
    a clock and the one timer the variable [debounceTimer] can hold
    pending: [setTimeout] arms it with a deadline, [clearTimeout]
    disarms it, and it may fire at any time from its deadline on. *)
Module Watcher.
Import DocumentParser PreviewManager.

Definition DEBOUNCE : Z := 500.

(** A call of [onChange]: when, with which blocks, and (for stating the
    properties) what the text of the document was then and when it had
    last changed. *)
Record notification := {
  n_time : Z;
  n_blocks : list TikzBlock;
  n_text : jsstring;
  n_changed : option Z
}.

Record watcher := {
  now : Z;                       (* the clock, in milliseconds *)
  text : jsstring;               (* the text of the watched document *)
  listening : bool;              (* the change listener is registered *)
  debounceTimer : option Z;      (* the deadline of the timer, while it is pending *)
  changed : option Z;            (* when the watched document last changed *)
  notified : list notification   (* the calls of [onChange] so far *)
}.

(** [watchDocument(document, onChange)] at time [t]. *)
Definition watchDocument (t : Z) (content : jsstring) : watcher :=
  {| now := t; text := content; listening := true; debounceTimer := None;
     changed := None; notified := [] |}.

Inductive event :=
  | Changed (watched : bool) (content : jsstring)  (* a document changes: the watched one, or another *)
  | Elapse (ms : Z)                               (* time passes *)
  | Timeout                                       (* the pending timer fires *)
  | Dispose.                                      (* the returned disposable is disposed *)

Section Host.
Variable generateHash : jsstring -> string.

(** The change listener. *)
Definition changeListener (watched : bool) (w : watcher) : watcher :=
  if watched then
    {| now := now w; text := text w; listening := listening w;
       debounceTimer := Some (now w + DEBOUNCE)%Z;
       changed := changed w; notified := notified w |}
  else w.

(** The callback of the timer. *)
Definition timeout (w : watcher) : watcher :=
  {| now := now w; text := text w; listening := listening w; debounceTimer := None;
     changed := changed w;
     notified := notified w ++
                 [{| n_time := now w; n_blocks := parse_blocks generateHash (text w);
                     n_text := text w; n_changed := changed w |}] |}.

Definition step (ev : event) (w : watcher) : option watcher :=
  match ev with
  | Changed watched content =>
      let w1 := if watched
                then {| now := now w; text := content; listening := listening w;
                        debounceTimer := debounceTimer w; changed := Some (now w);
                        notified := notified w |}
                else w in
      Some (if listening w1 then changeListener watched w1 else w1)
  | Elapse ms =>
      if (0 <=? ms)%Z
      then Some {| now := (now w + ms)%Z; text := text w; listening := listening w;
                   debounceTimer := debounceTimer w; changed := changed w;
                   notified := notified w |}
      else None
  | Timeout =>
      match debounceTimer w with
      | Some deadline => if (deadline <=? now w)%Z then Some (timeout w) else None
      | None => None
      end
  | Dispose =>
      Some {| now := now w; text := text w; listening := false; debounceTimer := None;
              changed := changed w; notified := notified w |}
  end.

Fixpoint run (evs : list event) (w : watcher) : option watcher :=
  match evs with
  | [] => Some w
  | ev :: evs' =>
      match step ev w with
      | Some w' => run evs' w'
      | None => None
      end
  end.

End Host.

(** The changes of the watched document among the events. *)
Definition is_watched_change (ev : event) : bool :=
  match ev with
  | Changed true _ => true
  | _ => false
  end.

(** The invariant of the watcher after [changes] changes of the watched
    document: the timer, when pending, was armed at the last change, by
    a watcher that listens; the clock is not behind the last change;
    calls and pending timer together are no more than the changes; and
    each call came 500 ms or more after the last change before it, with
    the blocks of the text of that moment. *)
Record debounced (generateHash : jsstring -> string) (changes : nat) (w : watcher) : Prop := {
  db_timer : forall deadline, debounceTimer w = Some deadline ->
               listening w = true /\ changed w = Some (deadline - DEBOUNCE)%Z;
  db_clock : forall t, changed w = Some t -> (t <= now w)%Z;
  db_count : (length (notified w) + match debounceTimer w with Some _ => 1 | None => 0 end <= changes)%nat;
  db_calls : Forall (fun n => n_blocks n = parse_blocks generateHash (n_text n) /\
                              exists t, n_changed n = Some t /\ (t + DEBOUNCE <= n_time n)%Z)
                    (notified w)
}.

End Watcher.

(** ** PreviewManager: the catch block, for any thrown value

    [catch (err: any)]: the engine may reject with any JavaScript value.
    [PreviewText.thrown] holds the values [_extractTexError] reads as a
    text, and [PreviewManager] above is the code as it runs while nothing
    else is thrown.  For the other values [_extractTexError] itself
    throws, inside the [catch] block: the step that was appended to
    [_renderChain] rejects, and so does every step appended later, since
    [then] does not run a step that is chained on a rejected promise and
    nothing assigns [_renderChain] afresh.  This module is the code with
    that case; the methods are again modelled as they run when each call
    is awaited before the next one starts. *)
Module PreviewCatch.
Import CacheEntry CacheManager DocumentParser PreviewText PreviewManager.

(** A thrown value, as [const msg = err?.message || String(err)] and
    [msg.match(...)] read it:
    - [Text t]: [msg] is a string ([t] says which);
    - [MessageNotString]: [err.message] is truthy and has no method
      [match] (a number, [true], a plain object, as in [{message: 42}]),
      so that [msg.match] is not a function;
    - [NotConvertible]: [err.message] is falsy or missing and
      [String(err)] throws (an object without [toString] and [valueOf],
      as [Object.create(null)]). *)
Inductive any :=
  | Text (err : thrown)
  | MessageNotString
  | NotConvertible.

(** [_extractTexError(err)]; [None] when the call throws a [TypeError]. *)
Definition _extractTexError (err : any) : option jsstring :=
  match err with
  | Text t => Some (PreviewText._extractTexError t)
  | MessageNotString => None
  | NotConvertible => None
  end.

(** How a call of [tex2svg] ends for its caller. *)
Inductive any_reply :=
  | Fulfils (svg : jsstring)
  | RejectsWith (err : any)
  | NotInTime.

(** The replies of [PreviewManager] among them. *)
Definition of_reply (reply : engine_reply) : any_reply :=
  match reply with
  | Resolves svg => Fulfils svg
  | Rejects err => RejectsWith (Text err)
  | Late => NotInTime
  end.

(** A PreviewManager, with the state of the promise [_renderChain]:
    fulfilled (each call is awaited), or rejected. *)
Record manager := {
  pm : state;
  chainRejected : bool
}.

Definition with_pm (f : state -> state) (m : manager) : manager :=
  {| pm := f (pm m); chainRejected := chainRejected m |}.

(** How an awaited call of a method ends: it returns, it throws, or it
    leaves the model (see [IllTyped]). *)
Inductive ending :=
  | Returns (m : manager)
  | Throws (m : manager)
  | OutOfModel.

Section Host.
Variable generateHash : jsstring -> string.
Variable postProcessSvg : jsstring -> bool -> option jsstring.
Variable tex2svg : list jsstring -> jsstring -> any_reply.
Variable darkMode : bool.
Variable Date_now : nat -> Z.
Variable renderTimeout : N.

(** [Promise.race([svgPromise, timeoutPromise])]. *)
Definition race (reply : any_reply) : jsstring + any :=
  match reply with
  | Fulfils svg => inl svg
  | RejectsWith err => inr err
  | NotInTime => inr (Text (timeout_error (decimal (timeout_ms renderTimeout))))
  end.

(** [_renderSingleBlock(hash, source)]: the step is appended with
    [then] and the chain awaited.  On a rejected chain the step is not
    run and the await throws.  Otherwise the step calls the engine; the
    [try] block is the one of [settle]; in the [catch] block the message
    is stored when [_extractTexError] returns one, and when it throws
    nothing is stored and the chain is left rejected. *)
Definition _renderSingleBlock (hash : string) (source : jsstring) (m : manager) : ending :=
  if chainRejected m then Throws m
  else
    let processed := engine_source source in
    let reply := tex2svg (map snd (engineCalls (pm m))) processed in
    let s := with_engine_call hash processed (pm m) in
    match race reply with
    | inl svg =>
        match settle postProcessSvg darkMode Date_now hash (inl svg) s with
        | Ok _ s' => Returns {| pm := s'; chainRejected := false |}
        | IllTyped => OutOfModel
        end
    | inr err =>
        match _extractTexError err with
        | Some errorMsg =>
            Returns {| pm := with_svgCache (insert hash (ResultError errorMsg)) s;
                       chainRejected := false |}
        | None => Throws {| pm := s; chainRejected := true |}
        end
    end.

(** The body of the loop of [renderDocument]. *)
Definition render_block (block : TikzBlock) (m : manager) : ending :=
  if bool_decide (is_Some (svgCache (pm m) !! hash block)) then Returns m
  else
    match on_cache (CacheManager.get (hash block)) (pm m) with
    | Ok (Some entry) s =>
        let dark := _isDarkMode darkMode in
        let processed := _applyPostProcessing postProcessSvg (CacheEntry.svg entry) dark in
        Returns {| pm := with_nudge (with_svgCache (insert (hash block) (ResultSvg processed)) s);
                   chainRejected := chainRejected m |}
    | Ok None s =>
        match _renderSingleBlock (hash block) (source block)
                {| pm := s; chainRejected := chainRejected m |} with
        | Returns m' => Returns (with_pm with_nudge m')
        | Throws m' => Throws m'
        | OutOfModel => OutOfModel
        end
    | IllTyped => OutOfModel
    end.

(** The loop: an exception ends it. *)
Fixpoint render_blocks (blocks : list TikzBlock) (m : manager) : ending :=
  match blocks with
  | [] => Returns m
  | block :: rest =>
      match render_block block m with
      | Returns m' => render_blocks rest m'
      | Throws m' => Throws m'
      | OutOfModel => OutOfModel
      end
  end.

(** [renderDocument(document)]: the [finally] clause resets the flag
    also when the loop throws, and the exception goes on to the caller. *)
Definition renderDocument (text : jsstring) (m : manager) : ending :=
  if isRendering (pm m) then Returns m
  else
    let blocks := parse_blocks generateHash text in
    let m := with_pm with_extraction m in
    match blocks with
    | [] => Returns m
    | _ =>
        match render_blocks blocks (with_pm (with_isRendering true) m) with
        | Returns m' => Returns (with_pm (with_isRendering false) m')
        | Throws m' => Throws (with_pm (with_isRendering false) m')
        | OutOfModel => OutOfModel
        end
    end.

Definition retryBlock (hash : string) (source : jsstring) (m : manager) : ending :=
  match on_cache (CacheManager.invalidate hash) (with_svgCache (delete hash) (pm m)) with
  | Ok _ s =>
      match _renderSingleBlock hash source {| pm := s; chainRejected := chainRejected m |} with
      | Returns m' => Returns (with_pm with_nudge m')
      | Throws m' => Throws m'
      | OutOfModel => OutOfModel
      end
  | IllTyped => OutOfModel
  end.

(** [resetEngine()] leaves [_renderChain] as it is. *)
Definition resetEngine (m : manager) : ending :=
  match PreviewManager.resetEngine (pm m) with
  | Ok _ s => Returns {| pm := s; chainRejected := chainRejected m |}
  | IllTyped => OutOfModel
  end.

(** Calls of the public methods, one after the other; a call that
    throws does not keep the next one from being made. *)
Inductive call :=
  | RenderDocument (text : jsstring)
  | RetryBlock (hash : string) (source : jsstring)
  | ResetEngine.

Definition do_call (c : call) (m : manager) : ending :=
  match c with
  | RenderDocument text => renderDocument text m
  | RetryBlock hash source => retryBlock hash source m
  | ResetEngine => resetEngine m
  end.

Fixpoint do_calls (cs : list call) (m : manager) : option manager :=
  match cs with
  | [] => Some m
  | c :: cs' =>
      match do_call c m with
      | Returns m' => do_calls cs' m'
      | Throws m' => do_calls cs' m'
      | OutOfModel => None
      end
  end.

End Host.

(** The ending of [PreviewManager]'s model, on a chain that is not
    rejected. *)
Definition of_outcome (o : outcome state unit) : ending :=
  match o with
  | Ok _ s => Returns {| pm := s; chainRejected := false |}
  | IllTyped => OutOfModel
  end.

(** The state a call ends in. *)
Definition ends_in (e : ending) : option manager :=
  match e with
  | Returns m => Some m
  | Throws m => Some m
  | OutOfModel => None
  end.

Definition throws (e : ending) : bool :=
  match e with
  | Throws _ => true
  | _ => false
  end.

End PreviewCatch.

(** ** Sample collaborators and inputs

    Concrete values on which the statements below are instantiated. *)
Module Demo.
Import CacheEntry CacheManager PreviewText PreviewManager.

Fixpoint ascii_text (s : jsstring) : string :=
  match s with
  | [] => EmptyString
  | c :: r => String (Ascii.ascii_of_N c) (ascii_text r)
  end.

(** A stand-in for the hash: the text itself behind a letter. *)
Definition demo_hash (s : jsstring) : string := String.append "h" (ascii_text s).

Definition demo_post (svg : jsstring) (dark : bool) : option jsstring := Some svg.

Definition demo_engine (history : list jsstring) (tex : jsstring) : engine_reply :=
  Resolves (u16 "<svg>" ++ tex ++ u16 "</svg>").

Definition undefined_control_sequence : thrown :=
  ErrorObject (u16 "Error") (u16 "! Undefined control sequence").

Definition failing_engine (history : list jsstring) (tex : jsstring) : engine_reply :=
  Rejects undefined_control_sequence.

Definition demo_now (n : nat) : Z := (1700000000000 + Z.of_nat n)%Z.

Definition draw_11 : jsstring := u16 "\draw (0,0) -- (1,1);".

(** Two fenced blocks with the same source. *)
Definition demo_text : jsstring :=
  u16 "```tikz" ++ [LF] ++ draw_11 ++ [LF] ++ u16 "```" ++ [LF; LF] ++
  u16 "```TikZ" ++ [LF] ++ u16 "  " ++ draw_11 ++ [LF] ++ u16 "```".

Definition demo_entry : CacheEntry :=
  new_full "abc123" (u16 "<svg></svg>") 1234567890 0.

Definition demo_store : Memento :=
  <[CACHE_INDEX_KEY := IndexData ["abc123"%string]]>
    (<[getCacheKey "abc123" := EntryData demo_entry]> ∅).

Definition demo_ops : list op :=
  [OpSet "hash1" (new_full "hash1" (u16 "<svg>1</svg>") 1 0);
   OpSet "hash2" (new_full "hash2" (u16 "<svg>2</svg>") 2 0);
   OpSet "hash1" (new_full "hash1" (u16 "<svg>3</svg>") 3 0);
   OpGet "hash1"; OpInvalidate "hash2"; OpStats; OpClear;
   OpSet "hash3" (new_full "hash3" (u16 "<svg>4</svg>") 4 0)].

(** Lower case for ASCII letters, standing for [toLowerCase]. *)
Definition demo_lower (s : jsstring) : jsstring :=
  map (fun c => if (65 <=? c) && (c <=? 90) then c + 32 else c) s.


(** The state after a pass over [demo_text] from the initial state. *)
Definition demo_rendered : state :=
  default initial
    (final_state (renderDocument demo_hash demo_post demo_engine false demo_now 0
                    demo_text initial)).

(** The SVG that [demo_engine] makes of [draw_11]. *)
Definition demo_svg : jsstring := u16 "<svg>" ++ engine_source draw_11 ++ u16 "</svg>".

(** A PreviewManager right after its construction. *)
Definition fresh : PreviewCatch.manager :=
  {| PreviewCatch.pm := initial; PreviewCatch.chainRejected := false |}.

(** An engine that rejects its first call with [{message: 42}] and
    renders every later one. *)
Definition moody_engine (history : list jsstring) (tex : jsstring) : PreviewCatch.any_reply :=
  match history with
  | [] => PreviewCatch.RejectsWith PreviewCatch.MessageNotString
  | _ => PreviewCatch.of_reply (demo_engine history tex)
  end.

(** An error whose text echoes a line of the source before the marker
    line. *)
Definition echoed_source_error : thrown :=
  ErrorObject (u16 "Error")
    (u16 "\draw[fill=blue!20] (0,0);" ++ [LF] ++ u16 "! Undefined control sequence").

Definition echoing_engine (history : list jsstring) (tex : jsstring) : PreviewCatch.any_reply :=
  PreviewCatch.RejectsWith (PreviewCatch.Text echoed_source_error).

(** The manager after [moody_engine] has rejected the render of a first
    block. *)
Definition after_throw : PreviewCatch.manager :=
  default fresh
    (PreviewCatch.ends_in
       (PreviewCatch._renderSingleBlock demo_post moody_engine false demo_now 0
          "h" draw_11 fresh)).

End Demo.

(* ================================================================== *)
(** * Properties *)
(* ================================================================== *)

(** ** Facts on JavaScript strings *)
Module JSStringFacts.

Lemma trimStart_head (s : jsstring) c :
  first_char (trimStart s) = Some c -> is_space c = false.
Proof.
  induction s as [|a r IH]; simpl; [discriminate|].
  destruct (is_space a) eqn:Ha; [exact IH|].
  simpl. intros [= <-]. exact Ha.
Qed.

Lemma trimStart_fix (s : jsstring) :
  (forall c, first_char s = Some c -> is_space c = false) -> trimStart s = s.
Proof.
  destruct s as [|a r]; simpl; [reflexivity|].
  intros H. rewrite (H a eq_refl). reflexivity.
Qed.

Lemma trimEnd_nil_iff (s : jsstring) :
  trimEnd s = [] <-> Forall (fun c => is_space c = true) s.
Proof.
  induction s as [|a r IH]; simpl.
  - split; [constructor | reflexivity].
  - destruct (trimEnd r) as [|b r'] eqn:E.
    + destruct (is_space a) eqn:Ha.
      * split; [intros _; constructor; [exact Ha | apply IH; reflexivity] | reflexivity].
      * split; [discriminate|]. intros H. inversion H; congruence.
    + split; [discriminate|]. intros H. inversion H as [|? ? _ Hr]; subst.
      apply IH in Hr. discriminate.
Qed.

Lemma trimEnd_last (s : jsstring) c :
  last_char (trimEnd s) = Some c -> is_space c = false.
Proof.
  unfold last_char. induction s as [|a r IH]; simpl; [discriminate|].
  destruct (trimEnd r) as [|b r'] eqn:E.
  - destruct (is_space a) eqn:Ha; simpl; [discriminate|]. intros [= <-]. exact Ha.
  - intros H. apply IH. rewrite last_cons in H.
    destruct (last (b :: r')) eqn:L; [exact H|].
    apply last_None in L. discriminate.
Qed.

Lemma trimEnd_fix (s : jsstring) :
  (forall c, last_char s = Some c -> is_space c = false) -> trimEnd s = s.
Proof.
  unfold last_char. induction s as [|a r IH]; simpl; [reflexivity|].
  intros H. destruct r as [|b r'].
  - simpl. rewrite (H a eq_refl). reflexivity.
  - rewrite IH.
    + reflexivity.
    + intros c Hc. apply H. rewrite last_cons, Hc. reflexivity.
Qed.

Lemma trimEnd_head (s : jsstring) :
  (forall c, first_char s = Some c -> is_space c = false) ->
  forall c, first_char (trimEnd s) = Some c -> is_space c = false.
Proof.
  destruct s as [|a r]; simpl; [discriminate|].
  intros H c. specialize (H a eq_refl).
  destruct (trimEnd r); rewrite ?H; simpl; intros [= <-]; exact H.
Qed.

Lemma trim_trimmed (s : jsstring) : trimmed (trim s).
Proof.
  split.
  - apply trimEnd_head. apply trimStart_head.
  - apply trimEnd_last.
Qed.

Lemma trimmed_trim (s : jsstring) : trimmed s -> trim s = s.
Proof.
  intros [Hh Hl]. unfold trim. rewrite (trimStart_fix s Hh). apply trimEnd_fix, Hl.
Qed.

Lemma trim_idempotent (s : jsstring) : trim (trim s) = trim s.
Proof. apply trimmed_trim, trim_trimmed. Qed.

(** Trimming only removes characters. *)
Lemma trimStart_Forall (P : N -> Prop) (s : jsstring) :
  Forall P s -> Forall P (trimStart s).
Proof.
  induction 1 as [|a r Ha Hr IH]; simpl; [constructor|].
  destruct (is_space a); [exact IH | constructor; assumption].
Qed.

Lemma trimEnd_Forall (P : N -> Prop) (s : jsstring) :
  Forall P s -> Forall P (trimEnd s).
Proof.
  induction 1 as [|a r Ha Hr IH]; simpl; [constructor|].
  destruct (trimEnd r) as [|b r'].
  - destruct (is_space a); constructor; [exact Ha | constructor].
  - constructor; assumption.
Qed.

Lemma trim_Forall (P : N -> Prop) (s : jsstring) : Forall P s -> Forall P (trim s).
Proof. intros H. apply trimEnd_Forall, trimStart_Forall, H. Qed.

Lemma split_nl_nonnil (s : jsstring) : split_nl s <> [].
Proof.
  induction s as [|c r IH]; simpl; [discriminate|].
  destruct (c =? LF); [discriminate|].
  destruct (split_nl r); [contradiction | discriminate].
Qed.

Lemma split_nl_no_LF (s : jsstring) :
  Forall (Forall (fun c => c <> LF)) (split_nl s).
Proof.
  induction s as [|c r IH]; simpl.
  - repeat constructor.
  - destruct (N.eqb_spec c LF) as [->|Hc].
    + constructor; [constructor | exact IH].
    + destruct (split_nl r) as [|l ls]; [repeat constructor; exact Hc|].
      inversion IH; subst. constructor; [constructor; assumption | assumption].
Qed.

Lemma split_nl_Forall (P : N -> Prop) (s : jsstring) :
  Forall P s -> Forall (Forall P) (split_nl s).
Proof.
  induction 1 as [|c r Hc Hr IH]; simpl.
  - repeat constructor.
  - destruct (c =? LF).
    + constructor; [constructor | exact IH].
    + destruct (split_nl r) as [|l ls]; [repeat constructor; exact Hc|].
      inversion IH; subst. constructor; [constructor; assumption | assumption].
Qed.

Lemma join_split_nl (s : jsstring) : join_nl (split_nl s) = s.
Proof.
  induction s as [|c r IH]; simpl; [reflexivity|].
  destruct (N.eqb_spec c LF) as [->|Hc].
  - pose proof (split_nl_nonnil r) as Hn.
    destruct (split_nl r) as [|l ls]; [contradiction|].
    simpl. f_equal. exact IH.
  - pose proof (split_nl_nonnil r) as Hn.
    destruct (split_nl r) as [|l ls]; [contradiction|].
    rewrite <- IH. destruct ls; reflexivity.
Qed.

Lemma split_nl_app_LF (l r : jsstring) :
  Forall (fun c => c <> LF) l -> split_nl (l ++ LF :: r) = l :: split_nl r.
Proof.
  induction 1 as [|c l Hc Hl IH]; simpl.
  - reflexivity.
  - destruct (N.eqb_spec c LF) as [->|_]; [contradiction|].
    rewrite IH. reflexivity.
Qed.

Lemma split_nl_single (l : jsstring) :
  Forall (fun c => c <> LF) l -> split_nl l = [l].
Proof.
  induction 1 as [|c l Hc Hl IH]; simpl; [reflexivity|].
  destruct (N.eqb_spec c LF) as [->|_]; [contradiction|].
  rewrite IH. reflexivity.
Qed.

Lemma split_join_nl (ls : list jsstring) :
  ls <> [] -> Forall (Forall (fun c => c <> LF)) ls -> split_nl (join_nl ls) = ls.
Proof.
  induction ls as [|l ls IH]; [contradiction|].
  intros _ H. inversion H as [|? ? Hl Hls]; subst.
  destruct ls as [|l' ls'].
  - simpl. apply split_nl_single, Hl.
  - change (join_nl (l :: l' :: ls')) with (l ++ LF :: join_nl (l' :: ls')).
    rewrite split_nl_app_LF by exact Hl.
    rewrite IH; [reflexivity | discriminate | exact Hls].
Qed.

Lemma join_nl_Forall (P : N -> Prop) (ls : list jsstring) :
  P LF -> Forall (Forall P) ls -> Forall P (join_nl ls).
Proof.
  intros HLF. induction 1 as [|l ls Hl Hls IH]; simpl; [constructor|].
  destruct ls as [|l' ls']; [exact Hl|].
  apply Forall_app. split; [exact Hl | constructor; [exact HLF | exact IH]].
Qed.

End JSStringFacts.

(** ** The preprocessor *)
Module PreprocessorFacts.
Import Preprocessor JSStringFacts.

Lemma replace_nbsp_no_nbsp (s : jsstring) :
  Forall (fun c => c <> NBSP) (replace_nbsp s).
Proof.
  unfold replace_nbsp. induction s as [|c r IH]; simpl; constructor; [|exact IH].
  destruct (N.eqb_spec c NBSP); [discriminate | assumption].
Qed.

Lemma replace_nbsp_fix (s : jsstring) :
  Forall (fun c => c <> NBSP) s -> replace_nbsp s = s.
Proof.
  unfold replace_nbsp. induction 1 as [|c r Hc Hr IH]; simpl; [reflexivity|].
  destruct (N.eqb_spec c NBSP); [contradiction | f_equal; exact IH].
Qed.

Lemma cleaned_lines_clean (s : jsstring) : Forall clean_line (cleaned_lines s).
Proof.
  unfold cleaned_lines. apply Forall_forall. intros l Hl.
  apply list_elem_of_filter in Hl as [Hne Hl].
  apply list_elem_of_fmap in Hl as (l0 & -> & Hl0).
  pose proof (split_nl_no_LF (replace_nbsp s)) as H1.
  pose proof (split_nl_Forall _ _ (replace_nbsp_no_nbsp s)) as H2.
  rewrite Forall_forall in H1, H2.
  repeat split.
  - apply trim_trimmed.
  - apply trimEnd_last.
  - intros E. rewrite E in Hne. discriminate.
  - apply trim_Forall, H1, Hl0.
  - apply trim_Forall, H2, Hl0.
Qed.

Lemma clean_lines_fix (ls : list jsstring) :
  Forall clean_line ls ->
  filter (fun l => nonempty l = true) (map trim ls) = ls.
Proof.
  induction 1 as [|l ls (Ht & Hne & _ & _) Hls IH]; [reflexivity|].
  cbn [map]. rewrite (trimmed_trim l Ht).
  rewrite filter_cons_True.
  - f_equal. exact IH.
  - destruct l; [contradiction | reflexivity].
Qed.

Lemma preprocess_joined (ls : list jsstring) :
  Forall clean_line ls -> preprocessSource (join_nl ls) = join_nl ls.
Proof.
  intros H. unfold preprocessSource.
  rewrite replace_nbsp_fix.
  2:{ apply join_nl_Forall; [discriminate|].
      eapply Forall_impl; [exact H|]. intros l (_ & _ & _ & Hl). exact Hl. }
  destruct ls as [|l ls]; [reflexivity|].
  rewrite split_join_nl.
  - rewrite clean_lines_fix by exact H. reflexivity.
  - discriminate.
  - eapply Forall_impl; [exact H|]. intros l0 (_ & _ & Hl & _). exact Hl.
Qed.

Lemma lines_of_joined (ls : list jsstring) :
  Forall clean_line ls -> lines_of (join_nl ls) = ls.
Proof.
  intros H. destruct ls as [|l ls]; [reflexivity|].
  assert (Hs : split_nl (join_nl (l :: ls)) = l :: ls).
  { apply split_join_nl; [discriminate|].
    eapply Forall_impl; [exact H|]. intros l0 (_ & _ & Hl & _). exact Hl. }
  unfold lines_of. destruct (join_nl (l :: ls)) eqn:E; [|exact Hs].
  simpl in Hs. inversion Hs; subst. inversion H as [|? ? (_ & Hne & _) _]. contradiction.
Qed.

(** C10. [preprocessSource] is idempotent; its output holds no
    non-breaking space (U+00A0), and every line of the output (the pieces
    between line feeds, an empty output having no line) is non-empty and
    has neither leading nor trailing white space. *)
Theorem preprocessSource_idempotent_clean (s : jsstring) :
  preprocessSource (preprocessSource s) = preprocessSource s /\
  Forall (fun c => c <> NBSP) (preprocessSource s) /\
  Forall (fun l => trimmed l /\ l <> []) (lines_of (preprocessSource s)).
Proof.
  pose proof (cleaned_lines_clean s) as H.
  change (preprocessSource s) with (join_nl (cleaned_lines s)).
  split; [apply preprocess_joined, H|]. split.
  - apply join_nl_Forall; [discriminate|].
    eapply Forall_impl; [exact H|]. intros l (_ & _ & _ & Hl). exact Hl.
  - rewrite lines_of_joined by exact H.
    eapply Forall_impl; [exact H|]. intros l (Ht & Hne & _). split; assumption.
Qed.

(** The test cases of preprocessor.test.ts, evaluated on the model. *)
Example preprocess_mixed :
  preprocessSource (u16 "  \\begin{tikzpicture}  " ++ [LF; LF] ++ u16 "   \\draw" ++ [NBSP]
                    ++ u16 "(0,0)" ++ [NBSP] ++ u16 "--" ++ [NBSP] ++ u16 "(1,1);   "
                    ++ [LF; LF] ++ u16 "  \\end{tikzpicture}  ")
  = u16 "\\begin{tikzpicture}" ++ [LF] ++ u16 "\\draw (0,0) -- (1,1);" ++ [LF]
    ++ u16 "\\end{tikzpicture}".
Proof. vm_compute. reflexivity. Qed.

Example preprocess_only_nbsp : preprocessSource [NBSP; NBSP; NBSP] = [].
Proof. reflexivity. Qed.

End PreprocessorFacts.

(** ** The regular-expression matcher *)
Module RegexFacts.
Import Regex.

Lemma consumed_app (pre : list N) (c0 c1 : option jsstring) (w : jsstring) :
  consumed {| before := pre; cap := c0 |} {| before := rev w ++ pre; cap := c1 |} = w.
Proof.
  unfold consumed. cbn [before].
  rewrite length_app, length_rev.
  replace (length w + length pre - length pre)%nat with (length (rev w)) by (rewrite length_rev; lia).
  rewrite take_app_length. apply rev_involutive.
Qed.

(** Soundness of the matcher: a successful run consumed a word the
    expression denotes, and handed the rest to its continuation. *)
Lemma mt_sound (r : re) :
  forall (R : Type) (k : ctx -> jsstring -> option R) x s res,
    mt r k x s = Some res ->
    exists w s' x', s = w ++ s' /\ denotes r (before x) w s' (cap x) (cap x') /\
                    before x' = rev w ++ before x /\ k x' s' = Some res.
Proof.
  induction r as [|p|a IHa b IHb|a IHa b IHb|g p|m|m|r IH]; intros R k x s res H; cbn [mt] in H.
  - exists [], s, x. repeat split; assumption.
  - destruct s as [|c s']; [discriminate|].
    destruct (p c) eqn:Hp; [|discriminate].
    exists [c], s', (advance c x). repeat split; [|exact H]. exists c. split; [reflexivity | exact Hp].
  - apply IHa in H as (w1 & s1 & x1 & -> & Ha & Hx1 & H).
    apply IHb in H as (w2 & s2 & x2 & -> & Hb & Hx2 & H).
    exists (w1 ++ w2), s2, x2. rewrite <- app_assoc. split; [reflexivity|].
    split; [|split; [|exact H]].
    + exists w1, w2, (cap x1). rewrite Hx1 in Hb. repeat split; assumption.
    + rewrite Hx2, Hx1, rev_app_distr, <- app_assoc. reflexivity.
  - destruct (mt a k x s) as [res'|] eqn:E.
    + injection H as <-. apply IHa in E as (w & s' & x' & -> & Ha & Hx & E).
      exists w, s', x'. repeat split; try assumption. left. exact Ha.
    + apply IHb in H as (w & s' & x' & -> & Hb & Hx & E').
      exists w, s', x'. repeat split; try assumption. right. exact Hb.
  - revert x H. destruct g.
    + induction s as [|c s' IHs]; intros x H.
      * exists [], [], x. repeat split; [constructor | exact H].
      * cbn in H. destruct (p c) eqn:Hp.
        -- match type of H with match ?t with _ => _ end = _ => destruct t as [res'|] eqn:E end.
           ++ injection H as <-. apply IHs in E as (w & s2 & x2 & -> & [Hw Hc] & Hx & E).
              exists (c :: w), s2, x2. repeat split; [constructor; assumption | exact Hc | | exact E].
              rewrite Hx. cbn. rewrite <- app_assoc. reflexivity.
           ++ exists [], (c :: s'), x. repeat split; [constructor | exact H].
        -- exists [], (c :: s'), x. repeat split; [constructor | exact H].
    + induction s as [|c s' IHs]; intros x H.
      * cbn in H. destruct (k x []) as [res'|] eqn:E; [|discriminate].
        exists [], [], x. repeat split; [constructor | congruence].
      * cbn in H. destruct (k x (c :: s')) as [res'|] eqn:E.
        -- exists [], (c :: s'), x. repeat split; [constructor | congruence].
        -- destruct (p c) eqn:Hp; [|discriminate].
           apply IHs in H as (w & s2 & x2 & -> & [Hw Hc] & Hx & E').
           exists (c :: w), s2, x2. repeat split; [constructor; assumption | exact Hc | | exact E'].
           rewrite Hx. cbn. rewrite <- app_assoc. reflexivity.
  - destruct (at_bol m (before x)) eqn:Hb; [|discriminate].
    exists [], s, x. repeat split; assumption.
  - destruct (at_eol m s) eqn:He; [|discriminate].
    exists [], s, x. repeat split; assumption.
  - apply IH in H as (w & s' & x' & -> & Hr & Hx & H).
    exists w, s', (close_group x x'). split; [reflexivity|]. split; [|split; [exact Hx | exact H]].
    split; [exists (cap x'); exact Hr|].
    cbn [close_group cap]. f_equal. destruct x as [b c], x' as [b' c']. cbn [before] in *.
    subst b'. apply consumed_app.
Qed.

(** Completeness of the matcher: if some word the expression denotes can
    be split off and the continuation accepts every context after it, the
    run succeeds (possibly on another word, by the priorities). *)
Lemma mt_complete (r : re) :
  forall (R : Type) (k : ctx -> jsstring -> option R) x w s' c c',
    denotes r (before x) w s' c c' ->
    (forall x', before x' = rev w ++ before x -> is_Some (k x' s')) ->
    is_Some (mt r k x (w ++ s')).
Proof.
  induction r as [|p|a IHa b IHb|a IHa b IHb|g p|m|m|r IH]; intros R k x w s' c0 c' Hd Hk; cbn [mt denotes] in *.
  - destruct Hd as [-> _]. apply Hk. reflexivity.
  - destruct Hd as [(c & -> & Hp) _]. cbn. rewrite Hp. apply Hk. reflexivity.
  - destruct Hd as (w1 & w2 & c1 & -> & Ha & Hb). rewrite <- app_assoc.
    apply (IHa _ _ _ _ _ c0 c1); [exact Ha|]. intros x1 Hx1.
    apply (IHb _ _ x1 w2 s' c1 c').
    + rewrite Hx1. exact Hb.
    + intros x2 Hx2. apply Hk. rewrite Hx2, Hx1, rev_app_distr, <- app_assoc. reflexivity.
  - destruct (mt a k x (w ++ s')) as [res|] eqn:E; [eexists; reflexivity|].
    destruct Hd as [Ha|Hb].
    + pose proof (IHa R k x w s' c0 c' Ha Hk) as [res Hres]. congruence.
    + apply (IHb _ _ _ _ _ c0 c'); assumption.
  - destruct Hd as [Hd _]. revert x Hk. destruct g.
    + induction Hd as [|c w Hc Hw IHw]; intros x Hk.
      * specialize (Hk x eq_refl). cbn [app].
        destruct s' as [|c s2]; cbn; [exact Hk|].
        destruct (p c); [|exact Hk].
        match goal with |- is_Some (match ?t with _ => _ end) => destruct t end;
          [eexists; reflexivity | exact Hk].
      * cbn. rewrite Hc.
        destruct (IHw (advance c x)) as [res Hres].
        { intros x' Hx'. apply Hk. rewrite Hx'. cbn. rewrite <- app_assoc. reflexivity. }
        rewrite Hres. eexists; reflexivity.
    + induction Hd as [|c w Hc Hw IHw]; intros x Hk.
      * destruct (Hk x eq_refl) as [res Hres]. cbn [app].
        destruct s' as [|c s2]; cbn; rewrite Hres; eexists; reflexivity.
      * cbn. destruct (k x (c :: w ++ s')); [eexists; reflexivity|].
        rewrite Hc. apply IHw.
        intros x' Hx'. apply Hk. rewrite Hx'. cbn. rewrite <- app_assoc. reflexivity.
  - destruct Hd as [[-> Hb] _]. rewrite Hb. apply Hk. reflexivity.
  - destruct Hd as [[-> He] _]. cbn [app]. rewrite He. apply Hk. reflexivity.
  - destruct Hd as [[c1 Hd] _]. apply (IH _ _ _ _ _ c0 c1); [exact Hd|]. intros x' Hx'. apply Hk. exact Hx'.
Qed.

Lemma adv_nil (x : ctx) : adv [] x = x.
Proof. destruct x. reflexivity. Qed.

Lemma adv_cons (c : N) (w : jsstring) (x : ctx) : adv (c :: w) x = adv w (advance c x).
Proof. unfold adv, advance. cbn. rewrite <- app_assoc. reflexivity. Qed.

(** A lazy star stops at the first place where its continuation
    succeeds. *)
Lemma star_lazy_first {R : Type} (p : N -> bool) (k : ctx -> jsstring -> option R) :
  forall s x res,
    mt (Star false p) k x s = Some res ->
    exists w s', s = w ++ s' /\ Forall (fun c => p c = true) w /\
                 k (adv w x) s' = Some res /\
                 (forall w1 w2, w = w1 ++ w2 -> w2 <> [] -> k (adv w1 x) (w2 ++ s') = None).
Proof.
  induction s as [|c s IH]; intros x res H.
  - cbn in H. destruct (k x []) as [res'|] eqn:E; [|discriminate].
    exists [], []. rewrite adv_nil. split_and!; [reflexivity | constructor | congruence |].
    intros w1 w2 Hw Hne. destruct w1, w2; try discriminate. contradiction.
  - cbn in H. destruct (k x (c :: s)) as [res'|] eqn:E.
    + exists [], (c :: s). rewrite adv_nil. split_and!; [reflexivity | constructor | congruence |].
      intros w1 w2 Hw Hne. destruct w1, w2; try discriminate. contradiction.
    + destruct (p c) eqn:Hp; [|discriminate].
      apply IH in H as (w & s' & -> & Hw & Hk & Hfirst).
      exists (c :: w), s'. rewrite adv_cons. split_and!; [reflexivity | constructor; assumption | exact Hk |].
      intros w1 w2 Hsplit Hne. destruct w1 as [|c1 w1].
      * cbn in Hsplit. subst w2. rewrite adv_nil. exact E.
      * cbn in Hsplit. injection Hsplit as <- ->. rewrite adv_cons. apply Hfirst; [reflexivity | exact Hne].
Qed.

(** An attempt succeeds exactly when a denoted word starts here; the
    match it reports is such a word. *)
Lemma match_here_sound (r : re) (pre : list N) (s : jsstring) (m : rmatch) :
  match_here r pre s = Some m ->
  m_index m = length pre /\ s = m_text m ++ m_rest m /\
  denotes r pre (m_text m) (m_rest m) None (m_group m) /\
  m_upto m = rev (m_text m) ++ pre.
Proof.
  unfold match_here. intros H.
  apply mt_sound in H as (w & s' & x' & -> & Hd & Hx & H).
  injection H as <-. cbn [before cap] in *. cbn [m_index m_text m_rest m_upto m_group].
  destruct x' as [b c]. cbn [before cap] in *. subst b.
  rewrite consumed_app. repeat split; assumption.
Qed.

Lemma match_here_complete (r : re) (pre : list N) (w s' : jsstring) :
  matches r pre w s' -> is_Some (match_here r pre (w ++ s')).
Proof.
  intros [g Hd]. unfold match_here. apply (mt_complete _ _ _ _ _ _ None g); [exact Hd|].
  intros x' _. eexists; reflexivity.
Qed.

(** The search reports the leftmost position at which an attempt
    succeeds. *)
Lemma search_Some (r : re) (s : jsstring) :
  forall pre m, search r pre s = Some m ->
    exists p rest, s = p ++ rest /\
      match_here r (rev p ++ pre) rest = Some m /\
      (forall p1 p2, p = p1 ++ p2 -> p2 <> [] ->
         match_here r (rev p1 ++ pre) (p2 ++ rest) = None).
Proof.
  induction s as [|c s IH]; intros pre m H; cbn [search] in H.
  - destruct (match_here r pre []) eqn:E; [|discriminate]. injection H as ->.
    exists [], []. repeat split; [exact E|]. intros p1 p2 Hp Hne.
    destruct p1, p2; try discriminate. contradiction.
  - destruct (match_here r pre (c :: s)) eqn:E.
    + injection H as ->. exists [], (c :: s). repeat split; [exact E|].
      intros p1 p2 Hp Hne. destruct p1, p2; try discriminate. contradiction.
    + apply IH in H as (p & rest & -> & Hm & Hleft).
      exists (c :: p), rest. cbn [rev]. rewrite <- app_assoc. repeat split; [exact Hm|].
      intros p1 p2 Hp Hne. destruct p1 as [|c1 p1].
      * cbn in Hp. subst p2. exact E.
      * cbn in Hp. injection Hp as -> ->. cbn [rev]. rewrite <- !app_assoc. cbn.
        apply Hleft; [reflexivity | exact Hne].
Qed.

Lemma search_None (r : re) (s : jsstring) :
  forall pre, search r pre s = None ->
    forall p rest, s = p ++ rest -> match_here r (rev p ++ pre) rest = None.
Proof.
  induction s as [|c s IH]; intros pre H p rest Hs; cbn [search] in H.
  - destruct (match_here r pre []) eqn:E; [discriminate|].
    destruct p, rest; try discriminate. exact E.
  - destruct (match_here r pre (c :: s)) eqn:E; [discriminate|].
    destruct p as [|c1 p].
    + cbn in Hs. subst rest. exact E.
    + cbn in Hs. injection Hs as <- ->. cbn [rev]. rewrite <- app_assoc. cbn.
      apply IH; [exact H | reflexivity].
Qed.

Lemma search_skip (r : re) (p : jsstring) :
  forall pre rest,
    (forall p1 p2, p = p1 ++ p2 -> p2 <> [] ->
       match_here r (rev p1 ++ pre) (p2 ++ rest) = None) ->
    search r pre (p ++ rest) = search r (rev p ++ pre) rest.
Proof.
  induction p as [|c p IH]; intros pre rest H; [reflexivity|].
  pose proof (H [] (c :: p) eq_refl ltac:(discriminate)) as H0. cbn [rev app] in H0.
  cbn [app search]. rewrite H0.
  cbn [rev]. rewrite <- app_assoc. cbn [app]. apply IH.
  intros p1 p2 Hp Hne. specialize (H (c :: p1) p2).
  cbn [rev app] in H. rewrite <- app_assoc in H. apply H; [congruence | exact Hne].
Qed.

End RegexFacts.

(** ** The compat downgrade *)
Module CompatFacts.
Import Regex RegexFacts Preprocessor PreviewText.

Lemma denotes_chr (a : N) pre w post c c' :
  denotes (chr a) pre w post c c' <-> w = [a] /\ c' = c.
Proof.
  cbn. split.
  - intros [(d & -> & Hd) ->]. apply N.eqb_eq in Hd. subst. split; reflexivity.
  - intros [-> ->]. split; [|reflexivity]. exists a. split; [reflexivity | apply N.eqb_refl].
Qed.

Lemma denotes_lit (l : jsstring) : forall pre w post c c',
  denotes (lit l) pre w post c c' <-> w = l /\ c' = c.
Proof.
  induction l as [|a l IH]; intros pre w post c c'; [cbn; tauto|].
  destruct l as [|a' l'].
  - apply denotes_chr.
  - change (lit (a :: a' :: l')) with (Seq (chr a) (lit (a' :: l'))). cbn [denotes]. split.
    + intros (w1 & w2 & c1 & -> & H1 & H2). apply denotes_chr in H1 as [-> ->].
      apply IH in H2 as [-> ->]. split; reflexivity.
    + intros [-> ->]. exists [a], (a' :: l'), c. split; [reflexivity|].
      split; [apply denotes_chr | apply IH]; split; reflexivity.
Qed.

Lemma denotes_plus (p : N -> bool) pre w post c c' :
  denotes (plus p) pre w post c c' <-> (w <> [] /\ Forall (fun a => p a = true) w) /\ c' = c.
Proof.
  cbn. split.
  - intros (w1 & w2 & c1 & -> & [(a & -> & Ha) ->] & Hw & ->).
    split; [|reflexivity]. split; [discriminate | constructor; assumption].
  - intros [[Hne Hw] ->]. destruct w as [|a w]; [contradiction|]. inversion Hw; subst.
    exists [a], w, c. repeat split; [exists a; split; [reflexivity | assumption] | assumption].
Qed.

Lemma denotes_Seq_app (a b : re) pre w1 w2 post c c1 c' :
  denotes a pre w1 (w2 ++ post) c c1 -> denotes b (rev w1 ++ pre) w2 post c1 c' ->
  denotes (Seq a b) pre (w1 ++ w2) post c c'.
Proof. intros Ha Hb. exists w1, w2, c1. repeat split; assumption. Qed.

(** The pattern denotes exactly the compat directives. *)
Lemma denotes_COMPAT_REGEX pre d post :
  matches COMPAT_REGEX pre d post <-> is_compat_directive d.
Proof.
  unfold matches, COMPAT_REGEX. cbn [seq]. split.
  - cbn [denotes]. intros [g H].
    repeat match goal with
           | H : exists _, _ |- _ => destruct H as [? H]
           | H : _ /\ _ |- _ => destruct H as [? ?]
           | H : denotes (lit _) _ _ _ _ _ |- _ => apply denotes_lit in H
           | H : denotes (chr _) _ _ _ _ _ |- _ => apply denotes_chr in H
           | H : denotes (plus _) _ _ _ _ _ |- _ => apply denotes_plus in H
           end; subst.
    eexists _, _, _, _, _, _. split; [reflexivity|]. repeat split; assumption.
  - intros (ws1 & ws2 & ws3 & ws4 & ver & ws5 & -> & H1 & H2 & H3 & H4 & Hv & H5).
    exists None. unfold compat_directive.
    repeat (match goal with
            | |- denotes (Seq _ _) _ (_ ++ _) _ _ _ => eapply denotes_Seq_app
            | |- denotes (lit _) _ _ _ _ _ => apply denotes_lit; split; reflexivity
            | |- denotes (chr _) _ _ _ _ _ => apply denotes_chr; split; reflexivity
            | |- denotes (plus _) _ _ _ _ _ => apply denotes_plus; split; [exact Hv | reflexivity]
            | |- denotes (Star _ _) _ _ _ _ _ => split; [assumption | reflexivity]
            end).
Qed.

Lemma space_not_brace (ws : jsstring) : all_space ws -> Forall (fun c => c <> 125) ws.
Proof. intros H. eapply Forall_impl; [exact H|]. intros c Hc ->. discriminate. Qed.

Lemma version_not_brace (ver : jsstring) : is_version ver -> Forall (fun c => c <> 125) ver.
Proof. intros [_ H]. eapply Forall_impl; [exact H|]. intros c Hc ->. discriminate. Qed.

(** A directive ends at its first closing brace. *)
Lemma compat_directive_body (d : jsstring) :
  is_compat_directive d -> exists b, d = b ++ [125] /\ Forall (fun c => c <> 125) b.
Proof.
  intros (ws1 & ws2 & ws3 & ws4 & ver & ws5 & -> & H1 & H2 & H3 & H4 & Hv & H5).
  exists (u16 "\pgfplotsset" ++ ws1 ++ [123] ++ ws2 ++ u16 "compat" ++ ws3 ++ [61] ++ ws4 ++ ver ++ ws5).
  split; [unfold compat_directive; rewrite <- !app_assoc; reflexivity|].
  repeat (apply Forall_app; split);
    try (apply space_not_brace; assumption);
    try (apply version_not_brace; assumption);
    repeat constructor; discriminate.
Qed.

Lemma first_occurrence_unique (x : N) (b1 b2 r1 r2 : jsstring) :
  Forall (fun c => c <> x) b1 -> Forall (fun c => c <> x) b2 ->
  b1 ++ x :: r1 = b2 ++ x :: r2 -> b1 = b2 /\ r1 = r2.
Proof.
  intros H1. revert b2. induction H1 as [|c b1 Hc Hb1 IH]; intros b2 H2 E.
  - destruct H2 as [|c b2 Hc Hb2]; cbn in E.
    + injection E as ->. split; reflexivity.
    + injection E as -> _. contradiction.
  - destruct H2 as [|c' b2 Hc' Hb2]; cbn in E.
    + injection E as -> _. contradiction.
    + injection E as -> E. destruct (IH b2 Hb2 E) as [-> ->]. split; reflexivity.
Qed.

Lemma compat_directive_prefix_free (d1 d2 r1 r2 : jsstring) :
  is_compat_directive d1 -> is_compat_directive d2 ->
  d1 ++ r1 = d2 ++ r2 -> d1 = d2 /\ r1 = r2.
Proof.
  intros H1 H2 E.
  apply compat_directive_body in H1 as (b1 & -> & Hb1).
  apply compat_directive_body in H2 as (b2 & -> & Hb2).
  rewrite <- !app_assoc in E. cbn [app] in E.
  destruct (first_occurrence_unique 125 b1 b2 r1 r2 Hb1 Hb2 E) as [-> ->].
  split; reflexivity.
Qed.

Lemma app_eq_length_le (p1 r1 p2 r2 : jsstring) :
  p1 ++ r1 = p2 ++ r2 -> (length p1 <= length p2)%nat ->
  exists q, p2 = p1 ++ q /\ r1 = q ++ r2.
Proof.
  revert p2. induction p1 as [|c p1 IH]; intros p2 E Hl.
  - exists p2. split; [reflexivity | exact E].
  - destruct p2 as [|c2 p2]; [cbn in Hl; lia|].
    cbn in E. injection E as -> E. cbn in Hl.
    destruct (IH p2 E ltac:(lia)) as (q & -> & ->). exists q. split; reflexivity.
Qed.

(** X24.  When the preprocessed source reads [pre ++ d ++ post] with
    [d] a compat directive of any version and no directive starting
    earlier, the text handed to the engine is
    [pre ++ \pgfplotsset{compat=1.16} ++ post]: the first directive is
    replaced by the one of version 1.16 without its version being
    looked at, and the text around it is kept. *)
Theorem engine_source_first_compat_directive
    (source pre d post : jsstring) :
  preprocessSource source = pre ++ d ++ post ->
  is_compat_directive d ->
  (forall p d' r, pre ++ d ++ post = p ++ d' ++ r -> is_compat_directive d' ->
                  (length pre <= length p)%nat) ->
  engine_source source = pre ++ COMPAT_1_16 ++ post.
Proof.
  intros Hsrc Hd Hfirst. unfold engine_source, downgrade_compat, replace_first, exec.
  rewrite Hsrc.
  assert (Hhere : is_Some (match_here COMPAT_REGEX (rev pre ++ []) (d ++ post))).
  { apply match_here_complete, denotes_COMPAT_REGEX, Hd. }
  destruct (search COMPAT_REGEX [] (pre ++ d ++ post)) as [m|] eqn:E.
  - apply search_Some in E as (p & rest & Hs & Hm & Hleft).
    pose proof (match_here_sound _ _ _ _ Hm) as (Hidx & Hrest & Hden & _).
    assert (Hdir : is_compat_directive (m_text m))
      by (apply (denotes_COMPAT_REGEX (rev p ++ []) _ (m_rest m)); eexists; exact Hden).
    clear Hden. rename Hdir into Hden.
    assert (Hle : (length pre <= length p)%nat).
    { apply (Hfirst p (m_text m) (m_rest m)); [congruence | exact Hden]. }
    destruct (app_eq_length_le _ _ _ _ Hs Hle) as (q & -> & Hq).
    destruct q as [|c q].
    + rewrite app_nil_r in *. cbn [app] in Hq.
      rewrite Hrest in Hq.
      destruct (compat_directive_prefix_free _ _ _ _ Hd Hden Hq) as [_ <-].
      rewrite Hidx, app_nil_r, length_rev, take_app_length. reflexivity.
    + exfalso. specialize (Hleft pre (c :: q) eq_refl ltac:(discriminate)).
      rewrite <- Hq in Hleft. rewrite Hleft in Hhere. destruct Hhere; discriminate.
  - exfalso. pose proof (search_None _ _ _ E pre (d ++ post) eq_refl) as Hn.
    rewrite Hn in Hhere. destruct Hhere; discriminate.
Qed.

(** Without any compat directive the text is handed over as
    preprocessed. *)
Lemma engine_source_no_directive (source : jsstring) :
  (forall p d r, preprocessSource source = p ++ d ++ r -> ~ is_compat_directive d) ->
  engine_source source = preprocessSource source.
Proof.
  intros Hno. unfold engine_source, downgrade_compat, replace_first, exec.
  destruct (search COMPAT_REGEX [] (preprocessSource source)) as [m|] eqn:E; [|reflexivity].
  exfalso. apply search_Some in E as (p & rest & Hs & Hm & _).
  pose proof (match_here_sound _ _ _ _ Hm) as (_ & Hrest & Hden & _).
  assert (Hdir : is_compat_directive (m_text m))
    by (apply (denotes_COMPAT_REGEX (rev p ++ []) _ (m_rest m)); eexists; exact Hden).
  apply (Hno p (m_text m) (m_rest m)); [congruence | exact Hdir].
Qed.

(** C7, where the code departs from it.  The comment in
    [_renderTikzToSvg] reads "Downgrade pgfplots compat to 1.16 max",
    but no version is compared: a directive of version 1.15 is not left
    as it is, it is raised to 1.16. *)
Lemma compat_lower_version_rewritten :
  engine_source (u16 "\pgfplotsset{compat=1.15}") = u16 "\pgfplotsset{compat=1.16}" /\
  engine_source (u16 "\pgfplotsset{compat=1.15}") <> u16 "\pgfplotsset{compat=1.15}".
Proof. split; [vm_compute; reflexivity | vm_compute; discriminate]. Qed.

(** Only the first directive is rewritten: a second one stays above
    1.16. *)
Example compat_second_directive_kept :
  engine_source (u16 "\pgfplotsset{compat=1.18} \pgfplotsset{compat=1.18}")
  = u16 "\pgfplotsset{compat=1.16} \pgfplotsset{compat=1.18}".
Proof. vm_compute. reflexivity. Qed.

End CompatFacts.

(** ** Error messages *)
Module TexErrorFacts.
Import Regex RegexFacts PreviewText.

(** A lazy star walks over a word of its class as long as the
    continuation refuses every earlier stop. *)
Lemma star_lazy_run {R : Type} (p : N -> bool) (k : ctx -> jsstring -> option R)
    (tail : jsstring) (res : R) :
  forall (body : jsstring) (x : ctx),
    Forall (fun c => p c = true) body ->
    (forall b1 c b2, body = b1 ++ c :: b2 -> k (adv b1 x) (c :: b2 ++ tail) = None) ->
    k (adv body x) tail = Some res ->
    mt (Star false p) k x (body ++ tail) = Some res.
Proof.
  induction body as [|c body IH]; intros x Hp Hk Hend.
  - destruct x as [b cp]. unfold adv in Hend. cbn in Hend. cbn [app].
    destruct tail; cbn; rewrite Hend; reflexivity.
  - inversion Hp as [|? ? Hc Hbody]; subst.
    pose proof (Hk [] c body eq_refl) as H0.
    destruct x as [b cp]. unfold adv in H0. cbn in H0.
    cbn. rewrite H0, Hc.
    apply (IH (advance c {| before := b; cap := cp |})); [exact Hbody | |].
    + intros b1 c1 b2 E. specialize (Hk (c :: b1) c1 b2). rewrite E in Hk.
      specialize (Hk eq_refl). unfold adv, advance in *. cbn in *.
      rewrite <- app_assoc in Hk. exact Hk.
    + unfold adv, advance in *. cbn in *. rewrite <- app_assoc in Hend. exact Hend.
Qed.

(** The attempt at a [!]: the group takes the text up to the end of the
    line. *)
Lemma tex_error_match_here (pre : list N) (body tail : jsstring) :
  Forall (fun c => cls_dot c = true) body ->
  tail = [] \/ (exists t, tail = LF :: t) ->
  exists m, match_here TEX_ERROR_REGEX pre (33 :: body ++ tail) = Some m /\
            m_group m = Some body.
Proof.
  intros Hbody Htail. unfold match_here, TEX_ERROR_REGEX.
  cbn [mt chr]. cbn [N.eqb Pos.eqb].
  set (x1 := advance 33 {| before := pre; cap := None |}).
  set (kf := fun (x : ctx) (s' : jsstring) =>
               Some {| m_index := length pre;
                       m_text := consumed {| before := pre; cap := None |} x;
                       m_group := cap x; m_upto := before x; m_rest := s' |}).
  set (K := fun (x' : ctx) (s' : jsstring) =>
              match (match s' with
                     | c :: s'0 => if LF =? c then kf (advance c (close_group x1 x')) s'0 else None
                     | [] => None
                     end) with
              | Some res => Some res
              | None => if at_eol false s' then kf (close_group x1 x') s' else None
              end).
  assert (HK : forall x' c s', c <> LF -> K x' (c :: s') = None).
  { intros x' c s' Hc. unfold K. destruct (N.eqb_spec LF c) as [E|_]; [congruence|]. reflexivity. }
  assert (Hcons : consumed x1 (adv body x1) = body).
  { unfold adv, x1, advance. cbn [before cap]. apply consumed_app. }
  assert (Hrefuse : forall b1 c b2, body = b1 ++ c :: b2 ->
                      K (adv b1 x1) (c :: b2 ++ tail) = None).
  { intros b1 c b2 E. apply HK. subst body.
    apply Forall_app in Hbody as [_ Hc]. inversion Hc as [|? ? Hd _]; subst.
    intros ->. discriminate. }
  assert (Hend : exists res, K (adv body x1) tail = Some res /\ m_group res = Some body).
  { destruct Htail as [->|[t ->]]; unfold K, kf; cbn [at_eol N.eqb Pos.eqb LF];
      eexists; (split; [reflexivity|]);
      cbn [m_group close_group advance cap]; rewrite Hcons; reflexivity. }
  destruct Hend as (res & Hres & Hg).
  exists res. split; [|exact Hg].
  apply (star_lazy_run cls_dot K tail res body x1 Hbody Hrefuse Hres).
Qed.

Lemma tex_error_no_bang_here (pre : list N) (c : N) (s : jsstring) :
  c <> 33 -> match_here TEX_ERROR_REGEX pre (c :: s) = None.
Proof.
  intros Hc. unfold match_here, TEX_ERROR_REGEX. cbn [mt chr].
  destruct (N.eqb_spec 33 c) as [E|_]; [congruence | reflexivity].
Qed.

Lemma tex_error_skip (pre rest : jsstring) :
  Forall (fun c => c <> 33) pre ->
  search TEX_ERROR_REGEX [] (pre ++ rest) = search TEX_ERROR_REGEX (rev pre ++ []) rest.
Proof.
  intros Hpre. apply search_skip. intros p1 p2 E Hne.
  destruct p2 as [|c p2]; [contradiction|]. subst pre.
  apply Forall_app in Hpre as [_ Hc]. inversion Hc; subst.
  apply tex_error_no_bang_here. assumption.
Qed.

(** The message for an error text whose first [!] opens a line-long
    marker. *)
Lemma extractTexError_marker (err : thrown) (pre body tail : jsstring) :
  error_text err = pre ++ 33 :: body ++ tail ->
  Forall (fun c => c <> 33) pre ->
  Forall (fun c => cls_dot c = true) body ->
  tail = [] \/ (exists t, tail = LF :: t) ->
  _extractTexError err = u16 "TeX compilation failed: " ++ trim body.
Proof.
  intros Hmsg Hpre Hbody Htail. unfold _extractTexError, exec. rewrite Hmsg.
  rewrite tex_error_skip by exact Hpre. cbn [search].
  destruct (tex_error_match_here (rev pre ++ []) body tail Hbody Htail) as (m & Hm & Hg).
  rewrite Hm, Hg. reflexivity.
Qed.

(** An error text without any [!]: a time-out text is shown as it is,
    any other text behind the generic heading, cut at 300 code units. *)
Lemma extractTexError_no_bang (err : thrown) :
  Forall (fun c => c <> 33) (error_text err) ->
  _extractTexError err =
    if includes (error_text err) (u16 "timed out") then error_text err
    else u16 "TeX compilation failed. Check your LaTeX syntax." ++ [LF]
         ++ take 300 (error_text err).
Proof.
  intros H. unfold _extractTexError, exec.
  destruct (search TEX_ERROR_REGEX [] (error_text err)) as [m|] eqn:E; [|reflexivity].
  exfalso. apply search_Some in E as (p & rest & Hs & Hm & _).
  destruct rest as [|c rest].
  - unfold match_here, TEX_ERROR_REGEX in Hm. cbn in Hm. discriminate.
  - rewrite tex_error_no_bang_here in Hm; [discriminate|].
    rewrite Hs in H. apply Forall_app in H as [_ H]. inversion H; assumption.
Qed.

Lemma includes_app (a t b : jsstring) : includes (a ++ t ++ b) t = true.
Proof.
  induction a as [|c a IH].
  - cbn [app]. assert (H : starts_with t (t ++ b) = true).
    { induction t as [|d t IHt]; [reflexivity|]. cbn. rewrite N.eqb_refl. exact IHt. }
    destruct (t ++ b); cbn; rewrite H; reflexivity.
  - cbn. rewrite IH. apply orb_true_r.
Qed.

(** The time-out rejection is shown as it is. *)
Lemma extractTexError_timeout (digits : jsstring) :
  Forall (fun c => c <> 33) digits ->
  _extractTexError (timeout_error digits) =
    u16 "Render timed out after " ++ digits ++ u16 "ms".
Proof.
  intros Hd.
  assert (Ht : error_text (timeout_error digits) =
               u16 "Render " ++ u16 "timed out" ++ (u16 " after " ++ digits ++ u16 "ms"))
    by reflexivity.
  rewrite extractTexError_no_bang; rewrite Ht.
  - rewrite includes_app. reflexivity.
  - repeat (apply Forall_app; split); try assumption; repeat constructor; discriminate.
Qed.

End TexErrorFacts.

(** ** The persistent cache *)
Module CacheManagerFacts.
Import CacheEntry CacheManager.
Local Open Scope string_scope.

Lemma append_inj (p a b : string) : p ++ a = p ++ b -> a = b.
Proof. induction p as [|c p IH]; cbn; [tauto|]. intros [= H]. exact (IH H). Qed.

Lemma getCacheKey_inj (h1 h2 : string) : getCacheKey h1 = getCacheKey h2 -> h1 = h2.
Proof. apply append_inj. Qed.

Lemma getCacheKey_index (h : string) : getCacheKey h = CACHE_INDEX_KEY <-> h = "index".
Proof.
  split; [|intros ->; reflexivity].
  intros H. apply (append_inj CACHE_KEY_PREFIX). exact H.
Qed.

(** A SHA-256 digest in hexadecimal has 64 characters: every content
    hash is usable. *)
Lemma digest_usable (h : string) : String.length h = 64%nat -> usable h.
Proof. intros Hlen ->. discriminate. Qed.

Lemma usable_key (h : string) : usable h -> getCacheKey h <> CACHE_INDEX_KEY.
Proof. intros Hu E. apply Hu, getCacheKey_index, E. Qed.

Lemma touch_new_full (d : CacheEntry) :
  touch (new_full (hash d) (svg d) (timestamp d) (accessCount d)) = touch d.
Proof. reflexivity. Qed.

(** *** What each operation does to the store *)

Lemma get_hit (h : string) (st : Memento) (d : CacheEntry) :
  st !! getCacheKey h = Some (EntryData d) ->
  get h st = Ok (Some (touch d)) (<[getCacheKey h := EntryData (touch d)]> st).
Proof. intros E. unfold get. rewrite E. reflexivity. Qed.

Lemma get_miss (h : string) (st : Memento) :
  st !! getCacheKey h = None -> get h st = Ok None st.
Proof. intros E. unfold get. rewrite E. reflexivity. Qed.

Lemma getIndex_ok (st : Memento) : index_ok st -> getIndex st = Ok (index_of st) st.
Proof.
  unfold index_ok, getIndex, index_of.
  destruct (st !! CACHE_INDEX_KEY) as [[d|idx]|]; [contradiction | reflexivity | reflexivity].
Qed.

Lemma index_ok_insert_entry (h : string) (d : CacheEntry) (st : Memento) :
  usable h -> index_ok st -> index_ok (<[getCacheKey h := EntryData d]> st).
Proof.
  intros Hu Hi. unfold index_ok. rewrite lookup_insert_ne by exact (usable_key h Hu). exact Hi.
Qed.

Lemma index_of_insert_entry (h : string) (d : CacheEntry) (st : Memento) :
  usable h -> index_of (<[getCacheKey h := EntryData d]> st) = index_of st.
Proof.
  intros Hu. unfold index_of. rewrite lookup_insert_ne by exact (usable_key h Hu). reflexivity.
Qed.

Lemma index_ok_delete_entry (h : string) (st : Memento) :
  usable h -> index_ok st -> index_ok (delete (getCacheKey h) st).
Proof.
  intros Hu Hi. unfold index_ok. rewrite lookup_delete_ne by exact (usable_key h Hu). exact Hi.
Qed.

Lemma index_of_delete_entry (h : string) (st : Memento) :
  usable h -> index_of (delete (getCacheKey h) st) = index_of st.
Proof.
  intros Hu. unfold index_of. rewrite lookup_delete_ne by exact (usable_key h Hu). reflexivity.
Qed.

Lemma set_run (h : string) (d : CacheEntry) (st : Memento) :
  usable h -> index_ok st ->
  set h d st =
    Ok tt (if bool_decide (h ∈ index_of st)
           then <[getCacheKey h := EntryData d]> st
           else <[CACHE_INDEX_KEY := IndexData (index_of st ++ [h])]>
                  (<[getCacheKey h := EntryData d]> st)).
Proof.
  intros Hu Hi. unfold set, addToIndex, bind, update.
  rewrite getIndex_ok by (apply index_ok_insert_entry; assumption).
  rewrite index_of_insert_entry by exact Hu.
  destruct (bool_decide (h ∈ index_of st)); reflexivity.
Qed.

Lemma invalidate_run (h : string) (st : Memento) :
  usable h -> index_ok st ->
  invalidate h st =
    Ok tt (<[CACHE_INDEX_KEY := IndexData (filter (fun h' => h' <> h) (index_of st))]>
             (delete (getCacheKey h) st)).
Proof.
  intros Hu Hi. unfold invalidate, removeFromIndex, bind, update.
  rewrite getIndex_ok by (apply index_ok_delete_entry; assumption).
  rewrite index_of_delete_entry by exact Hu. reflexivity.
Qed.

Lemma delete_all_run (l : list string) (st : Memento) :
  for_each l (fun hash => update (getCacheKey hash) None) st =
    Ok tt (foldl (fun m h => delete (getCacheKey h) m) st l).
Proof.
  revert st. induction l as [|h l IH]; intros st; [reflexivity|].
  cbn [for_each foldl]. unfold bind at 1. unfold update at 1. apply IH.
Qed.

Lemma lookup_delete_all (l : list string) (k : string) : forall st : Memento,
  foldl (fun m h => delete (getCacheKey h) m) st l !! k =
    if bool_decide (k ∈ map getCacheKey l) then None else st !! k.
Proof.
  induction l as [|h l IH]; intros st; [reflexivity|].
  cbn [foldl map]. rewrite IH.
  destruct (decide (k = getCacheKey h)) as [->|Hne].
  - rewrite lookup_delete_eq. rewrite (bool_decide_eq_true_2 (getCacheKey h ∈ getCacheKey h :: map getCacheKey l)) by left.
    destruct (bool_decide _); reflexivity.
  - rewrite lookup_delete_ne by congruence.
    destruct (decide (k ∈ map getCacheKey l)) as [Hin|Hnin].
    + rewrite !bool_decide_eq_true_2; [reflexivity | right; exact Hin | exact Hin].
    + rewrite !bool_decide_eq_false_2; [reflexivity | | exact Hnin].
      intros Hin. apply elem_of_cons in Hin as [?|?]; contradiction.
Qed.

Lemma clear_run (st : Memento) :
  index_ok st ->
  clear st = Ok tt (delete CACHE_INDEX_KEY
                      (foldl (fun m h => delete (getCacheKey h) m) st (index_of st))).
Proof.
  intros Hi. unfold clear, bind. rewrite getIndex_ok by exact Hi.
  rewrite delete_all_run. reflexivity.
Qed.

(** *** The invariant *)

Lemma consistent_empty : consistent ∅.
Proof.
  split.
  - exact I.
  - constructor.
  - intros h Hh. inversion Hh.
  - intros h Hh. inversion Hh.
  - intros k v Hk. rewrite lookup_empty in Hk. discriminate.
Qed.

Lemma peek_insert_entry (h h' : string) (d : CacheEntry) (st : Memento) :
  peek (<[getCacheKey h := EntryData d]> st) h' = if decide (h = h') then Some d else peek st h'.
Proof.
  unfold peek. destruct (decide (h = h')) as [->|Hne].
  - rewrite lookup_insert_eq. reflexivity.
  - rewrite lookup_insert_ne; [reflexivity|]. intros E. apply Hne, getCacheKey_inj, E.
Qed.

Lemma peek_insert_index (idx : list string) (h : string) (st : Memento) :
  usable h -> peek (<[CACHE_INDEX_KEY := IndexData idx]> st) h = peek st h.
Proof.
  intros Hu. unfold peek. rewrite lookup_insert_ne; [reflexivity|].
  intros E. symmetry in E. exact (usable_key h Hu E).
Qed.

Lemma index_of_insert_index (idx : list string) (st : Memento) :
  index_of (<[CACHE_INDEX_KEY := IndexData idx]> st) = idx.
Proof. unfold index_of. rewrite lookup_insert_eq. reflexivity. Qed.

Lemma set_consistent (h : string) (d : CacheEntry) (st : Memento) :
  usable h -> consistent st ->
  exists st', set h d st = Ok tt st' /\ consistent st' /\ peek st' h = Some d /\
              (forall h', h' <> h -> peek st' h' = peek st h').
Proof.
  intros Hu [Hi Hnd Hus Hen Hk]. rewrite set_run by assumption.
  eexists. split; [reflexivity|].
  destruct (decide (h ∈ index_of st)) as [Hin|Hnin].
  - rewrite bool_decide_eq_true_2 by exact Hin. repeat split.
    + apply index_ok_insert_entry; assumption.
    + rewrite index_of_insert_entry by exact Hu. exact Hnd.
    + rewrite index_of_insert_entry by exact Hu. exact Hus.
    + rewrite index_of_insert_entry by exact Hu. intros h' Hh'.
      rewrite peek_insert_entry. destruct (decide (h = h')); [eexists; reflexivity | apply Hen, Hh'].
    + rewrite index_of_insert_entry by exact Hu. intros k v Hkv Hne.
      destruct (decide (k = getCacheKey h)) as [->|Hkh].
      * rewrite lookup_insert_eq in Hkv. injection Hkv as <-. exists h, d. repeat split. exact Hin.
      * rewrite lookup_insert_ne in Hkv by congruence. apply Hk; assumption.
    + rewrite peek_insert_entry. destruct (decide (h = h)); [reflexivity | contradiction].
    + intros h' Hne. rewrite peek_insert_entry.
      destruct (decide (h = h')); [congruence | reflexivity].
  - rewrite bool_decide_eq_false_2 by exact Hnin. repeat split.
    + unfold index_ok. rewrite lookup_insert_eq. exact I.
    + rewrite index_of_insert_index. apply NoDup_app. repeat split; [exact Hnd | | apply NoDup_singleton].
      intros x Hx Hx'. apply list_elem_of_singleton in Hx'. subst. contradiction.
    + rewrite index_of_insert_index. intros h' Hh'.
      apply elem_of_app in Hh' as [Hh'|Hh']; [apply Hus, Hh'|].
      apply list_elem_of_singleton in Hh'. subst. exact Hu.
    + rewrite index_of_insert_index. intros h' Hh'.
      assert (Hu' : usable h').
      { apply elem_of_app in Hh' as [Hh'|Hh']; [apply Hus, Hh'|].
        apply list_elem_of_singleton in Hh'. subst. exact Hu. }
      rewrite peek_insert_index by exact Hu'. rewrite peek_insert_entry.
      destruct (decide (h = h')) as [->|Hne]; [eexists; reflexivity|].
      apply elem_of_app in Hh' as [Hh'|Hh']; [apply Hen, Hh'|].
      apply list_elem_of_singleton in Hh'. congruence.
    + rewrite index_of_insert_index. intros k v Hkv Hne.
      rewrite lookup_insert_ne in Hkv by congruence.
      destruct (decide (k = getCacheKey h)) as [->|Hkh].
      * rewrite lookup_insert_eq in Hkv. injection Hkv as <-. exists h, d.
        repeat split. apply elem_of_app. right. apply list_elem_of_singleton. reflexivity.
      * rewrite lookup_insert_ne in Hkv by congruence.
        destruct (Hk k v Hkv Hne) as (h' & d' & -> & -> & Hin').
        exists h', d'. repeat split. apply elem_of_app. left. exact Hin'.
    + rewrite peek_insert_index by exact Hu. rewrite peek_insert_entry.
      destruct (decide (h = h)); [reflexivity | contradiction].
    + intros h' Hne. unfold peek.
      destruct (decide (getCacheKey h' = CACHE_INDEX_KEY)) as [E|E].
      * rewrite E, lookup_insert_eq.
        destruct (st !! CACHE_INDEX_KEY) as [[?|?]|] eqn:E'; try reflexivity.
        unfold index_ok in Hi. rewrite E' in Hi. contradiction.
      * rewrite lookup_insert_ne by congruence.
        rewrite lookup_insert_ne; [reflexivity|].
        intros E'. apply Hne. symmetry. apply getCacheKey_inj, E'.
Qed.

Lemma peek_index (st : Memento) : index_ok st -> peek st "index" = None.
Proof.
  unfold index_ok, peek. change (getCacheKey "index") with CACHE_INDEX_KEY.
  destruct (st !! CACHE_INDEX_KEY) as [[?|?]|]; [contradiction | reflexivity | reflexivity].
Qed.

Lemma invalidate_consistent (h : string) (st : Memento) :
  usable h -> consistent st ->
  exists st', invalidate h st = Ok tt st' /\ consistent st' /\ peek st' h = None /\
              (forall h', h' <> h -> peek st' h' = peek st h').
Proof.
  intros Hu [Hi Hnd Hus Hen Hk]. rewrite invalidate_run by assumption.
  eexists. split; [reflexivity|].
  assert (Hpeek : forall h', h' <> h ->
            peek (<[CACHE_INDEX_KEY := IndexData (filter (fun h'0 => h'0 <> h) (index_of st))]>
                    (delete (getCacheKey h) st)) h' = peek st h').
  { intros h' Hne. destruct (decide (h' = "index")) as [->|Hu'].
    - rewrite !peek_index; [reflexivity | exact Hi |].
      unfold index_ok. rewrite lookup_insert_eq. exact I.
    - rewrite peek_insert_index by exact Hu'. unfold peek.
      rewrite lookup_delete_ne; [reflexivity|]. intros E. apply Hne. symmetry. apply getCacheKey_inj, E. }
  repeat split.
  - unfold index_ok. rewrite lookup_insert_eq. exact I.
  - rewrite index_of_insert_index. apply NoDup_filter, Hnd.
  - rewrite index_of_insert_index. intros h' Hh'. apply list_elem_of_filter in Hh' as [_ Hh']. apply Hus, Hh'.
  - rewrite index_of_insert_index. intros h' Hh'. apply list_elem_of_filter in Hh' as [Hne Hh'].
    rewrite Hpeek by exact Hne. apply Hen, Hh'.
  - rewrite index_of_insert_index. intros k v Hkv Hne.
    rewrite lookup_insert_ne in Hkv by congruence.
    destruct (decide (k = getCacheKey h)) as [->|Hkh].
    + rewrite lookup_delete_eq in Hkv. discriminate.
    + rewrite lookup_delete_ne in Hkv by congruence.
      destruct (Hk k v Hkv Hne) as (h' & d' & -> & -> & Hin').
      exists h', d'. repeat split. apply list_elem_of_filter. split; [congruence | exact Hin'].
  - rewrite peek_insert_index by exact Hu. unfold peek. rewrite lookup_delete_eq. reflexivity.
  - exact Hpeek.
Qed.

Lemma clear_consistent (st : Memento) :
  consistent st ->
  exists st', clear st = Ok tt st' /\ consistent st' /\ index_of st' = [] /\
              (forall h, peek st' h = None).
Proof.
  intros [Hi Hnd Hus Hen Hk]. rewrite clear_run by exact Hi.
  eexists. split; [reflexivity|].
  set (st' := delete CACHE_INDEX_KEY _).
  assert (Hidx : index_of st' = []).
  { unfold index_of, st'. rewrite lookup_delete_eq. reflexivity. }
  assert (Hnone : forall k, k <> CACHE_INDEX_KEY -> st' !! k = None).
  { intros k Hne. unfold st'. rewrite lookup_delete_ne by congruence.
    rewrite lookup_delete_all.
    destruct (decide (k ∈ map getCacheKey (index_of st))) as [Hin|Hnin].
    - rewrite bool_decide_eq_true_2 by exact Hin. reflexivity.
    - rewrite bool_decide_eq_false_2 by exact Hnin.
      destruct (st !! k) as [v|] eqn:E; [|reflexivity].
      destruct (Hk k v E Hne) as (h' & d' & -> & -> & Hin').
      exfalso. apply Hnin. apply list_elem_of_fmap. exists h'. split; [reflexivity | exact Hin']. }
  repeat split.
  - unfold index_ok, st'. rewrite lookup_delete_eq. exact I.
  - rewrite Hidx. constructor.
  - rewrite Hidx. intros h Hh. inversion Hh.
  - rewrite Hidx. intros h Hh. inversion Hh.
  - intros k v Hkv Hne. rewrite Hnone in Hkv by exact Hne. discriminate.
  - exact Hidx.
  - intros h. unfold peek. destruct (decide (getCacheKey h = CACHE_INDEX_KEY)) as [E|E].
    + rewrite E. unfold st'. rewrite lookup_delete_eq. reflexivity.
    + rewrite Hnone by exact E. reflexivity.
Qed.

Lemma consistent_lookup (h : string) (st : Memento) :
  usable h -> consistent st ->
  st !! getCacheKey h = EntryData <$> peek st h.
Proof.
  intros Hu [Hi Hnd Hus Hen Hk]. unfold peek.
  destruct (st !! getCacheKey h) as [v|] eqn:E; [|reflexivity].
  destruct (Hk _ v E (usable_key h Hu)) as (h' & d' & _ & -> & _). reflexivity.
Qed.

Lemma get_consistent (h : string) (st : Memento) :
  usable h -> consistent st ->
  exists st', get h st = Ok (touch <$> peek st h) st' /\ consistent st' /\
              index_of st' = index_of st /\
              peek st' h = touch <$> peek st h /\
              (forall h', h' <> h -> peek st' h' = peek st h').
Proof.
  intros Hu Hc. pose proof (consistent_lookup h st Hu Hc) as Hl.
  destruct (peek st h) as [d|] eqn:Hp; cbn in Hl.
  - rewrite (get_hit h st d Hl). eexists. split; [reflexivity|].
    destruct Hc as [Hi Hnd Hus Hen Hk].
    assert (Hin : h ∈ index_of st).
    { destruct (Hk _ _ Hl (usable_key h Hu)) as (h' & d' & E & _ & Hin).
      apply getCacheKey_inj in E. subst. exact Hin. }
    repeat split.
    + apply index_ok_insert_entry; assumption.
    + rewrite index_of_insert_entry by exact Hu. exact Hnd.
    + rewrite index_of_insert_entry by exact Hu. exact Hus.
    + rewrite index_of_insert_entry by exact Hu. intros h' Hh'.
      rewrite peek_insert_entry. destruct (decide (h = h')); [eexists; reflexivity | apply Hen, Hh'].
    + rewrite index_of_insert_entry by exact Hu. intros k v Hkv Hne.
      destruct (decide (k = getCacheKey h)) as [->|Hkh].
      * rewrite lookup_insert_eq in Hkv. injection Hkv as <-. exists h, (touch d). repeat split. exact Hin.
      * rewrite lookup_insert_ne in Hkv by congruence. apply Hk; assumption.
    + apply index_of_insert_entry, Hu.
    + rewrite peek_insert_entry. destruct (decide (h = h)); [reflexivity | contradiction].
    + intros h' Hne. rewrite peek_insert_entry.
      destruct (decide (h = h')); [congruence | reflexivity].
  - rewrite (get_miss h st Hl). exists st.
    split; [reflexivity|]. split; [exact Hc|]. split; [reflexivity|].
    split; [exact Hp | reflexivity].
Qed.

Lemma kept_refl (o : option CacheEntry) : kept_or_removed o o.
Proof. destruct o as [d|]; [|exact I]. exists d. repeat split. Qed.

Lemma kept_trans (a b c : option CacheEntry) :
  kept_or_removed a b -> kept_or_removed b c -> kept_or_removed a c.
Proof.
  unfold kept_or_removed. destruct c as [dc|]; [|tauto].
  intros Hab (db & -> & H1 & H2 & H3). destruct Hab as (da & -> & H4 & H5 & H6).
  exists da. repeat split; congruence.
Qed.

Lemma kept_touch (o : option CacheEntry) : kept_or_removed o (touch <$> o).
Proof. destruct o as [d|]; [|exact I]. exists d. repeat split. Qed.

Lemma sum_sizes_consistent (l : list string) :
  forall (n : nat) (st : Memento),
    Forall usable l -> consistent st ->
    exists total st', sum_sizes l n st = Ok total st' /\ consistent st' /\
                      index_of st' = index_of st /\
                      (forall h, kept_or_removed (peek st h) (peek st' h)).
Proof.
  induction l as [|h l IH]; intros n st Hl Hc.
  - exists n, st. split; [reflexivity|]. split; [exact Hc|]. split; [reflexivity|].
    intros h. apply kept_refl.
  - inversion Hl as [|? ? Hu Hl']; subst.
    destruct (get_consistent h st Hu Hc) as (st1 & Hg & Hc1 & Hi1 & Hp1 & Hf1).
    cbn [sum_sizes]. unfold bind at 1. rewrite Hg.
    assert (Hk1 : forall h', kept_or_removed (peek st h') (peek st1 h')).
    { intros h'. destruct (decide (h' = h)) as [->|Hne].
      - rewrite Hp1. apply kept_touch.
      - rewrite Hf1 by exact Hne. apply kept_refl. }
    destruct (touch <$> peek st h) as [e|].
    + destruct (IH (n + (length (svg e) + 100))%nat st1 Hl' Hc1) as (total & st' & Hs & Hc' & Hi' & Hk').
      exists total, st'. split_and!; [exact Hs | exact Hc' | congruence |].
      intros h'. eapply kept_trans; [apply Hk1 | apply Hk'].
    + destruct (IH n st1 Hl' Hc1) as (total & st' & Hs & Hc' & Hi' & Hk').
      exists total, st'. split_and!; [exact Hs | exact Hc' | congruence |].
      intros h'. eapply kept_trans; [apply Hk1 | apply Hk'].
Qed.

Lemma getStats_consistent (st : Memento) :
  consistent st ->
  exists stats st', getStats st = Ok stats st' /\ consistent st' /\
                    entryCount stats = length (index_of st) /\
                    (forall h, kept_or_removed (peek st h) (peek st' h)).
Proof.
  intros Hc. unfold getStats, bind. rewrite getIndex_ok by apply Hc.
  destruct (sum_sizes_consistent (index_of st) 0%nat st) as (total & st' & Hs & Hc' & _ & Hk).
  { apply Forall_forall. apply Hc. }
  { exact Hc. }
  rewrite Hs. eexists _, st'. split; [reflexivity|]. split_and!; [exact Hc' | reflexivity | exact Hk].
Qed.

Lemma run_op_consistent (o : op) (st : Memento) :
  op_usable o -> consistent st ->
  exists st', run_op o st = Ok tt st' /\ consistent st' /\
              (forall h, ~ sets_hash h o -> kept_or_removed (peek st h) (peek st' h)).
Proof.
  intros Hu Hc. destruct o as [h d|h| |h|]; cbn [run_op op_usable sets_hash] in *.
  - destruct (set_consistent h d st Hu Hc) as (st' & Hs & Hc' & _ & Hf).
    exists st'. split_and!; [exact Hs | exact Hc' |].
    intros h' Hne. rewrite Hf by congruence. apply kept_refl.
  - destruct (invalidate_consistent h st Hu Hc) as (st' & Hs & Hc' & Hn & Hf).
    exists st'. split_and!; [exact Hs | exact Hc' |].
    intros h' _. destruct (decide (h' = h)) as [->|Hne].
    + rewrite Hn. exact I.
    + rewrite Hf by exact Hne. apply kept_refl.
  - destruct (clear_consistent st Hc) as (st' & Hs & Hc' & _ & Hn).
    exists st'. split_and!; [exact Hs | exact Hc' |].
    intros h' _. rewrite Hn. exact I.
  - destruct (get_consistent h st Hu Hc) as (st' & Hs & Hc' & _ & Hp & Hf).
    exists st'. unfold bind. rewrite Hs. split_and!; [reflexivity | exact Hc' |].
    intros h' _. destruct (decide (h' = h)) as [->|Hne].
    + rewrite Hp. apply kept_touch.
    + rewrite Hf by exact Hne. apply kept_refl.
  - destruct (getStats_consistent st Hc) as (stats & st' & Hs & Hc' & _ & Hk).
    exists st'. unfold bind. rewrite Hs. split_and!; [reflexivity | exact Hc' |].
    intros h' _. apply Hk.
Qed.

Lemma run_ops_consistent (ops : list op) :
  forall st : Memento,
    Forall op_usable ops -> consistent st ->
    exists st', run_ops ops st = Ok tt st' /\ consistent st' /\
                (forall h, Forall (fun o => ~ sets_hash h o) ops ->
                           kept_or_removed (peek st h) (peek st' h)).
Proof.
  induction ops as [|o ops IH]; intros st Hu Hc.
  - exists st. split; [reflexivity|]. split; [exact Hc|]. intros h _. apply kept_refl.
  - inversion Hu as [|? ? Ho Hops]; subst.
    destruct (run_op_consistent o st Ho Hc) as (st1 & Hr & Hc1 & Hk1).
    destruct (IH st1 Hops Hc1) as (st' & Hr' & Hc' & Hk').
    exists st'. unfold run_ops in *. cbn [for_each]. unfold bind at 1. rewrite Hr.
    split_and!; [exact Hr' | exact Hc' |].
    intros h Hh. inversion Hh; subst.
    eapply kept_trans; [apply Hk1 | apply Hk']; assumption.
Qed.

Lemma present_iff_index (st : Memento) (h : string) :
  consistent st -> (h ∈ index_of st <-> present st h).
Proof.
  intros Hc. split.
  - intros Hin. pose proof (cons_usable st Hc h Hin) as Hu.
    destruct (cons_entries st Hc h Hin) as [d Hd].
    pose proof (consistent_lookup h st Hu Hc) as Hl. rewrite Hd in Hl. cbn in Hl.
    eexists _, _. apply get_hit. exact Hl.
  - intros (e & st' & Hg). unfold get in Hg.
    destruct (st !! getCacheKey h) as [[d|idx]|] eqn:E; [| discriminate | discriminate].
    destruct (decide (getCacheKey h = CACHE_INDEX_KEY)) as [Hk|Hk].
    + exfalso. pose proof (cons_index st Hc) as Hi. unfold index_ok in Hi.
      rewrite <- Hk, E in Hi. exact Hi.
    + destruct (cons_keys st Hc _ _ E Hk) as (h' & d' & Hkey & _ & Hin).
      apply getCacheKey_inj in Hkey. subst. exact Hin.
Qed.

(** C5. After any finite sequence of cache operations from the empty
    store, the index lists each fingerprint whose entry is present exactly
    once and no other, and [getStats] reports as many entries as there
    are fingerprints [h] with [get(h)] present. *)
Theorem index_consistency (ops : list op) :
  Forall op_usable ops ->
  exists st idx,
    run_ops ops ∅ = Ok tt st /\
    getIndex st = Ok idx st /\
    NoDup idx /\
    (forall h, h ∈ idx <-> present st h) /\
    exists stats st',
      getStats st = Ok stats st' /\
      entryCount stats = length idx /\
      counts (present st) (entryCount stats).
Proof.
  intros Hu.
  destruct (run_ops_consistent ops ∅ Hu consistent_empty) as (st & Hr & Hc & _).
  exists st, (index_of st). split; [exact Hr|].
  split; [apply getIndex_ok, Hc|].
  split; [apply Hc|].
  split; [intros h; apply present_iff_index, Hc|].
  destruct (getStats_consistent st Hc) as (stats & st' & Hs & _ & Hn & _).
  exists stats, st'. split_and!; [exact Hs | exact Hn |].
  exists (index_of st). split_and!; [apply Hc | | congruence].
  intros h. apply present_iff_index, Hc.
Qed.

Lemma accessed_touch (k : nat) (d : CacheEntry) : touch (accessed k d) = accessed (S k) d.
Proof.
  unfold touch, accessed. cbn [hash svg timestamp accessCount]. f_equal. lia.
Qed.

Lemma get_times_hit (h : string) (d : CacheEntry) (n : nat) :
  forall (k : nat) (st : Memento),
    st !! getCacheKey h = Some (EntryData (accessed k d)) ->
    exists st', get_times (S n) h st = Ok (Some (accessed (k + S n) d)) st' /\
                st' !! getCacheKey h = Some (EntryData (accessed (k + S n) d)).
Proof.
  induction n as [|n IH]; intros k st Hst.
  - cbn [get_times]. rewrite (get_hit h st _ Hst), accessed_touch.
    replace (k + 1)%nat with (S k) by lia.
    eexists. split; [reflexivity | apply lookup_insert_eq].
  - change (get_times (S (S n)) h) with (bind (get h) (fun _ => get_times (S n) h)).
    unfold bind. rewrite (get_hit h st _ Hst), accessed_touch.
    destruct (IH (S k) (<[getCacheKey h := EntryData (accessed (S k) d)]> st)) as (st' & Hg & Hl).
    { apply lookup_insert_eq. }
    replace (k + S (S n))%nat with (S k + S n)%nat by lia.
    exists st'. split; assumption.
Qed.

(** C4. After [set(h, e)], the [n]-th retrieval in a row returns [e] with
    the access count raised by [n], the returned artifact is the stored
    text, and the raised count is in the store when [get] returns. *)
Theorem set_get_roundtrip (h : string) (e : CacheEntry) (st : Memento) (n : nat) :
  usable h -> index_ok st ->
  exists st1 st2 r,
    set h e st = Ok tt st1 /\
    get_times (S n) h st1 = Ok (Some r) st2 /\
    hash r = hash e /\ svg r = svg e /\ timestamp r = timestamp e /\
    accessCount r = (accessCount e + Z.of_nat (S n))%Z /\
    st2 !! getCacheKey h = Some (EntryData r).
Proof.
  intros Hu Hi. rewrite set_run by assumption.
  set (st1 := if bool_decide (h ∈ index_of st) then _ else _).
  assert (Hst1 : st1 !! getCacheKey h = Some (EntryData (accessed 0 e))).
  { assert (Ha : accessed 0 e = e).
    { destruct e as [eh es et ec]. unfold accessed. cbn. f_equal. lia. }
    rewrite Ha. unfold st1. destruct (bool_decide (h ∈ index_of st)).
    - apply lookup_insert_eq.
    - rewrite lookup_insert_ne by (intros E; symmetry in E; exact (usable_key h Hu E)).
      apply lookup_insert_eq. }
  destruct (get_times_hit h e n 0%nat st1 Hst1) as (st2 & Hg & Hl).
  exists st1, st2, (accessed (0 + S n) e). split_and!; try reflexivity; assumption.
Qed.

(** The time stamp stored for a fingerprint changes when the fingerprint
    is set again with an entry created later. *)
Lemma set_again_changes_timestamp :
  let h := "abc123" in
  let e1 := new_full h (u16 "<svg>old</svg>") 1000 0 in
  let e2 := new_full h (u16 "<svg>new</svg>") 2000 0 in
  exists st1 st2,
    set h e1 ∅ = Ok tt st1 /\ set h e2 st1 = Ok tt st2 /\
    timestamp <$> peek st1 h = Some 1000%Z /\
    timestamp <$> peek st2 h = Some 2000%Z.
Proof.
  intros h e1 e2.
  destruct (set_consistent h e1 ∅) as (st1 & Hs1 & Hc1 & Hp1 & _);
    [discriminate | apply consistent_empty |].
  destruct (set_consistent h e2 st1) as (st2 & Hs2 & Hc2 & Hp2 & _);
    [discriminate | exact Hc1 |].
  exists st1, st2. rewrite Hp1, Hp2. split_and!; try assumption; reflexivity.
Qed.

(** C8, as the code has it.  The time stamp stored for a fingerprint is
    the one of the entry last set for it: no sequence of retrievals,
    statistics, invalidations, clears and sets of other fingerprints
    changes it (the entry is kept with its time stamp, or removed); a
    retrieval raises the access count by one and keeps the time stamp; a
    set for the same fingerprint replaces the stored entry, time stamp
    included, by the one given. *)
Theorem createdAt_frame (st : Memento) (h : string) (d : CacheEntry) :
  consistent st -> usable h -> peek st h = Some d ->
  (forall ops, Forall op_usable ops -> Forall (fun o => ~ sets_hash h o) ops ->
     exists st', run_ops ops st = Ok tt st' /\
                 forall d', peek st' h = Some d' -> timestamp d' = timestamp d) /\
  (exists r st', get h st = Ok (Some r) st' /\ peek st' h = Some r /\
                 accessCount r = (accessCount d + 1)%Z /\ timestamp r = timestamp d) /\
  (forall e, exists st', set h e st = Ok tt st' /\ peek st' h = Some e).
Proof.
  intros Hc Hu Hp. split_and!.
  - intros ops Hops Hno.
    destruct (run_ops_consistent ops st Hops Hc) as (st' & Hr & _ & Hk).
    exists st'. split; [exact Hr|]. intros d' Hd'.
    specialize (Hk h Hno). rewrite Hd', Hp in Hk.
    destruct Hk as (d0 & [= <-] & _ & _ & Ht). exact Ht.
  - destruct (get_consistent h st Hu Hc) as (st' & Hg & _ & _ & Hp' & _).
    rewrite Hp in Hg, Hp'. exists (touch d), st'. split_and!; [exact Hg | exact Hp' | reflexivity | reflexivity].
  - intros e. destruct (set_consistent h e st Hu Hc) as (st' & Hs & _ & Hp' & _).
    exists st'. split; assumption.
Qed.

End CacheManagerFacts.

(** ** The block extractor *)
Module DocumentParserFacts.
Import Regex RegexFacts CompatFacts DocumentParser.

Lemma canonicalize_backtick (d : N) : canonicalize d = 96 <-> d = 96.
Proof.
  unfold canonicalize. split; [|intros ->; reflexivity].
  destruct (N.leb_spec 97 d); destruct (N.leb_spec d 122); cbn; lia.
Qed.

Lemma canonicalize_letter (d u : N) :
  65 <= u <= 90 -> (canonicalize d = u <-> d = u + 32 \/ d = u).
Proof.
  intros Hu. unfold canonicalize.
  destruct (N.leb_spec 97 d); destruct (N.leb_spec d 122); cbn; lia.
Qed.

Lemma canonicalize_lower (d a : N) :
  97 <= a <= 122 -> canonicalize d = canonicalize a -> d = a \/ d = a - 32.
Proof.
  intros Ha. unfold canonicalize.
  destruct (N.leb_spec 97 d); destruct (N.leb_spec d 122);
    destruct (N.leb_spec 97 a); destruct (N.leb_spec a 122); cbn; lia.
Qed.

Lemma denotes_chr_i (a : N) pre w post c c' :
  denotes (chr_i a) pre w post c c' <->
  (exists d, w = [d] /\ canonicalize d = canonicalize a) /\ c' = c.
Proof.
  cbn. split.
  - intros [(d & -> & Hd) ->]. apply N.eqb_eq in Hd. split; [exists d; split|]; auto.
  - intros [(d & -> & Hd) ->]. split; [|reflexivity]. exists d. split; [reflexivity|].
    apply N.eqb_eq, Hd.
Qed.

Lemma denotes_closing_ticks pre w post c c' :
  denotes (lit_i (u16 "```")) pre w post c c' <-> w = u16 "```" /\ c' = c.
Proof.
  change (lit_i (u16 "```")) with (Seq (chr_i 96) (Seq (chr_i 96) (chr_i 96))).
  cbn [denotes]. split.
  - intros (w1 & w2 & c1 & -> & H1 & w3 & w4 & c2 & -> & H2 & H3).
    apply denotes_chr_i in H1 as [(d1 & -> & E1) ->].
    apply denotes_chr_i in H2 as [(d2 & -> & E2) ->].
    apply denotes_chr_i in H3 as [(d3 & -> & E3) ->].
    apply (proj1 (canonicalize_backtick _)) in E1.
    apply (proj1 (canonicalize_backtick _)) in E2.
    apply (proj1 (canonicalize_backtick _)) in E3. subst. split; reflexivity.
  - intros [-> ->]. exists [96], [96; 96], c. split; [reflexivity|].
    split; [apply denotes_chr_i; split; [exists 96; split|]; reflexivity|].
    exists [96], [96], c. split; [reflexivity|].
    split; apply denotes_chr_i; (split; [exists 96; split|]; reflexivity).
Qed.

Lemma denotes_opening_ticks pre w post c c' :
  denotes (lit_i (u16 "```tikz")) pre w post c c' <->
  (exists tag, w = u16 "```" ++ tag /\ is_tikz_tag tag) /\ c' = c.
Proof.
  change (lit_i (u16 "```tikz"))
    with (Seq (chr_i 96) (Seq (chr_i 96) (Seq (chr_i 96)
           (Seq (chr_i 116) (Seq (chr_i 105) (Seq (chr_i 107) (chr_i 122))))))).
  cbn [denotes]. split.
  - intros H.
    repeat match goal with
           | H : exists _, _ |- _ => destruct H as [? H]
           | H : _ /\ _ |- _ => destruct H as [? ?]
           | H : denotes (chr_i _) _ _ _ _ _ |- _ => apply denotes_chr_i in H
           end; subst.
    repeat match goal with
           | H : canonicalize _ = canonicalize 96 |- _ =>
               apply (proj1 (canonicalize_backtick _)) in H
           | H : canonicalize ?d = canonicalize ?a |- _ =>
               apply canonicalize_lower in H; [|lia]
           end; subst.
    split; [|reflexivity]. eexists. split; [reflexivity|].
    eexists _, _, _, _. split; [reflexivity|]. cbn in *. repeat split; assumption.
  - intros [(tag & -> & (t & i & k & z & -> & Ht & Hi & Hk & Hz)) ->].
    assert (Et : canonicalize t = canonicalize 116) by (destruct Ht; subst; reflexivity).
    assert (Ei : canonicalize i = canonicalize 105) by (destruct Hi; subst; reflexivity).
    assert (Ek : canonicalize k = canonicalize 107) by (destruct Hk; subst; reflexivity).
    assert (Ez : canonicalize z = canonicalize 122) by (destruct Hz; subst; reflexivity).
    exists [96], [96; 96; t; i; k; z], c. split; [reflexivity|].
    split; [apply denotes_chr_i; split; [exists 96; split|]; reflexivity|].
    exists [96], [96; t; i; k; z], c. split; [reflexivity|].
    split; [apply denotes_chr_i; split; [exists 96; split|]; reflexivity|].
    exists [96], [t; i; k; z], c. split; [reflexivity|].
    split; [apply denotes_chr_i; split; [exists 96; split|]; reflexivity|].
    exists [t], [i; k; z], c. split; [reflexivity|].
    split; [apply denotes_chr_i; split; [exists t; split|]; auto|].
    exists [i], [k; z], c. split; [reflexivity|].
    split; [apply denotes_chr_i; split; [exists i; split|]; auto|].
    exists [k], [z], c. split; [reflexivity|].
    split; apply denotes_chr_i; (split; [eexists; split|]; auto).
Qed.

Lemma denotes_CLOSING_FENCE pre w rest c c' :
  denotes CLOSING_FENCE pre w rest c c' <-> closing_fence pre w rest /\ c' = c.
Proof.
  unfold CLOSING_FENCE. cbn [seq]. split.
  - cbn [denotes]. intros (w5 & w6' & c6 & -> & [[-> Hbol2] ->] & H).
    destruct H as (w6 & w7' & c7 & -> & Hclose & H).
    apply denotes_closing_ticks in Hclose as [-> ->].
    destruct H as (ws2 & w8 & c8 & -> & [Hws2 ->] & [[-> Heol2] ->]).
    split; [|reflexivity]. exists ws2. cbn [app rev] in *. rewrite ?app_nil_r in *.
    split_and!; [reflexivity | exact Hbol2 | exact Hws2 | exact Heol2].
  - intros [(ws2 & -> & Hbol2 & Hws2 & Heol2) ->].
    apply (denotes_Seq_app _ _ _ [] _ rest c c); [split; [split; [reflexivity | exact Hbol2] | reflexivity]|].
    apply (denotes_Seq_app _ _ _ (u16 "```") _ rest c c).
    { apply denotes_closing_ticks. split; reflexivity. }
    rewrite <- (app_nil_r ws2).
    apply (denotes_Seq_app _ _ _ ws2 [] rest c c); [split; [exact Hws2 | reflexivity]|].
    split; [split; [reflexivity | exact Heol2] | reflexivity].
Qed.

Lemma fenced_block_matches pre w body rest :
  fenced_block pre w body rest -> matches TIKZ_BLOCK_REGEX pre w rest.
Proof.
  intros (tag & ws & fence & -> & Hbol & Htag & Hws & Heol & Hclose & _).
  exists (Some body).
  change TIKZ_BLOCK_REGEX
    with (Seq (Bol true) (Seq (lit_i (u16 "```tikz")) (Seq (Star true cls_space)
           (Seq (Eol true) (Seq (Group (Star false cls_any)) CLOSING_FENCE))))).
  apply (denotes_Seq_app _ _ pre [] _ rest None None); [split; [split; [reflexivity | exact Hbol] | reflexivity]|].
  apply (denotes_Seq_app _ _ _ (u16 "```" ++ tag) _ rest None None).
  { apply denotes_opening_ticks. split; [exists tag; split; [reflexivity | exact Htag] | reflexivity]. }
  apply (denotes_Seq_app _ _ _ ws _ rest None None); [split; [exact Hws | reflexivity]|].
  apply (denotes_Seq_app _ _ _ [] _ rest None None).
  { split; [split; [reflexivity|] | reflexivity].
    unfold line_end in Heol. rewrite <- app_assoc. exact Heol. }
  apply (denotes_Seq_app _ _ _ body _ rest None (Some body)).
  { split; [|reflexivity]. exists None. split; [|reflexivity].
    apply Forall_forall. intros; reflexivity. }
  apply denotes_CLOSING_FENCE. split; [|reflexivity].
  destruct Hclose as (ws2 & -> & Hbol2 & Hws2 & Heol2). exists ws2.
  split_and!; [reflexivity | | exact Hws2 | exact Heol2].
  unfold line_start in *. etransitivity; [|exact Hbol2]. f_equal.
  cbn [rev app]. rewrite !rev_app_distr, <- !app_assoc. reflexivity.
Qed.

(** A successful attempt of the pattern has read a fenced block and
    captured its body. *)
Lemma match_here_TIKZ_sound pre s m :
  match_here TIKZ_BLOCK_REGEX pre s = Some m ->
  m_index m = length pre /\ s = m_text m ++ m_rest m /\
  m_upto m = rev (m_text m) ++ pre /\
  exists body, m_group m = Some body /\ fenced_block pre (m_text m) body (m_rest m).
Proof.
  intros Hm. pose proof (match_here_sound _ _ _ _ Hm) as (Hidx & Hs & _ & Hupto).
  split_and!; [exact Hidx | exact Hs | exact Hupto |].
  unfold match_here in Hm.
  set (x0 := {| before := pre; cap := None |}) in *.
  set (kf := fun (x : ctx) (s' : jsstring) => Some _) in Hm.
  change (mt TIKZ_BLOCK_REGEX kf x0 s)
    with (mt (Bol true) (mt (lit_i (u16 "```tikz")) (mt (Star true cls_space)
            (mt (Eol true) (mt (Group (Star false cls_any)) (mt CLOSING_FENCE kf))))) x0 s) in Hm.
  apply mt_sound in Hm as (w0 & s0 & x1 & -> & [[-> Hbol] Hc1] & Hx1 & Hm).
  apply mt_sound in Hm as (w1 & s1 & x2 & -> & Hopen & Hx2 & Hm).
  apply denotes_opening_ticks in Hopen as [(tag & -> & Htag) Hc2].
  apply mt_sound in Hm as (ws & s2 & x3 & -> & [Hws Hc3] & Hx3 & Hm).
  apply mt_sound in Hm as (w3 & s3 & x4 & -> & [[-> Heol] Hc4] & Hx4 & Hm).
  change (mt (Group (Star false cls_any)) (mt CLOSING_FENCE kf) x4 s3)
    with (mt (Star false cls_any) (fun x' s' => mt CLOSING_FENCE kf (close_group x4 x') s') x4 s3) in Hm.
  apply star_lazy_first in Hm as (body & s4 & -> & _ & Hm & Hfirst).
  apply mt_sound in Hm as (fence & s5 & x5 & -> & Hclose & Hx5 & Hm).
  apply denotes_CLOSING_FENCE in Hclose as [Hclose Hc5].
  unfold kf in Hm. injection Hm as <-. cbn [m_text m_group m_rest] in *.
  cbn [app rev] in *. rewrite ?app_nil_r in *.
  assert (Hb4 : before x4 = rev (u16 "```" ++ tag ++ ws) ++ pre).
  { rewrite Hx4, Hx3, Hx2, Hx1. cbn [before x0 app]. rewrite !rev_app_distr, <- !app_assoc. reflexivity. }
  assert (Hcons : consumed x4 (adv body x4) = body).
  { destruct x4 as [b4 c4]. unfold adv. cbn [before cap]. apply consumed_app. }
  assert (Htext : consumed x0 x5 = u16 "```" ++ tag ++ ws ++ body ++ fence).
  { destruct x5 as [b5 c5]. cbn [before cap close_group adv] in *. subst b5.
    rewrite Hb4. unfold x0.
    replace (rev fence ++ rev body ++ rev (u16 "```" ++ tag ++ ws) ++ pre)
      with (rev (u16 "```" ++ tag ++ ws ++ body ++ fence) ++ pre).
    - apply consumed_app.
    - rewrite !rev_app_distr, <- !app_assoc. reflexivity. }
  exists body. split.
  - rewrite Hc5. cbn [close_group cap]. rewrite Hcons. reflexivity.
  - rewrite Htext. exists tag, ws, fence.
    split_and!; [reflexivity | exact Hbol | exact Htag | exact Hws | | |].
    + exact Heol.
    + cbn [close_group adv before] in Hclose. rewrite Hb4 in Hclose.
      replace (rev (u16 "```" ++ tag ++ ws ++ body) ++ pre)
        with (rev body ++ rev (u16 "```" ++ tag ++ ws) ++ pre); [exact Hclose|].
      rewrite !rev_app_distr, <- !app_assoc. reflexivity.
    + intros b1 b2 f r Hbody Hne Hsplit Hcf.
      specialize (Hfirst b1 b2 Hbody Hne). rewrite Hsplit in Hfirst.
      assert (Hsome : is_Some (mt CLOSING_FENCE kf (close_group x4 (adv b1 x4)) (f ++ r))).
      { apply (mt_complete _ _ _ _ _ _ None None).
        - apply denotes_CLOSING_FENCE. split; [|reflexivity].
          cbn [close_group adv before]. rewrite Hb4.
          replace (rev b1 ++ rev (u16 "```" ++ tag ++ ws) ++ pre)
            with (rev (u16 "```" ++ tag ++ ws ++ b1) ++ pre); [exact Hcf|].
          rewrite !rev_app_distr, <- !app_assoc. reflexivity.
        - intros x' _. unfold kf. eexists; reflexivity. }
      rewrite Hfirst in Hsome. destruct Hsome; discriminate.
Qed.

Lemma fenced_block_length pre w body rest :
  fenced_block pre w body rest -> (10 <= length w)%nat.
Proof.
  intros (tag & ws & fence & -> & _ & (t & i & k & z & -> & _) & _ & _ & (ws2 & -> & _) & _).
  rewrite !length_app. cbn. lia.
Qed.

Lemma no_fence_no_match pre s :
  (forall w body rest, s = w ++ rest -> ~ fenced_block pre w body rest) <->
  match_here TIKZ_BLOCK_REGEX pre s = None.
Proof.
  split.
  - intros Hno. destruct (match_here TIKZ_BLOCK_REGEX pre s) as [m|] eqn:E; [|reflexivity].
    exfalso. apply match_here_TIKZ_sound in E as (_ & Hs & _ & body & _ & Hf).
    exact (Hno _ _ _ Hs Hf).
  - intros Hnone w body rest -> Hf.
    apply fenced_block_matches, match_here_complete in Hf.
    rewrite Hnone in Hf. destruct Hf; discriminate.
Qed.

(** The loop of [parse] ends, and returns the fenced blocks from left to
    right. *)
Lemma exec_loop_spec (fuel : nat) :
  forall pre s, (length s < fuel)%nat ->
    exists ms, exec_loop fuel pre s = Some ms /\ extraction pre s ms /\
               in_document_order (length pre) ms.
Proof.
  induction fuel as [|fuel IH]; intros pre s Hlen; [lia|].
  cbn [exec_loop]. destruct (search TIKZ_BLOCK_REGEX pre s) as [m|] eqn:E.
  - apply search_Some in E as (p & rest0 & Hs & Hm & Hleft).
    pose proof (match_here_TIKZ_sound _ _ _ Hm) as (Hidx & Hrest0 & Hupto & body & Hg & Hf).
    pose proof (fenced_block_length _ _ _ _ Hf) as Hw.
    assert (Hlen' : (length (m_rest m) < fuel)%nat).
    { rewrite Hs, Hrest0, !length_app in Hlen. lia. }
    destruct (IH (m_upto m) (m_rest m) Hlen') as (ms & Hloop & Hext & Hord).
    rewrite Hloop. exists (m :: ms). split; [reflexivity|].
    rewrite length_app, length_rev in Hidx.
    split.
    + apply (extraction_block pre s p m ms body).
      * rewrite Hs, Hrest0. reflexivity.
      * lia.
      * exact Hg.
      * exact Hf.
      * intros p1 p2 w body' rest Hp Hne Hsplit Hf'.
        specialize (Hleft p1 p2 Hp Hne). rewrite Hrest0, Hsplit in Hleft.
        exact (proj2 (no_fence_no_match _ _) Hleft _ _ _ eq_refl Hf').
      * rewrite Hupto in Hext. exact Hext.
    + cbn [in_document_order]. split; [lia|].
      rewrite Hupto, !length_app, !length_rev in Hord.
      replace (m_index m + length (m_text m))%nat
        with (length (m_text m) + (length p + length pre))%nat by lia.
      exact Hord.
  - exists []. split; [reflexivity|]. split; [|exact I].
    apply extraction_done. intros p r w body rest Hs Hr Hf.
    pose proof (search_None _ _ _ E p r Hs) as Hn.
    exact (proj2 (no_fence_no_match _ _) Hn _ _ _ Hr Hf).
Qed.

(** Every block ends in a closing fence: without one there is no block. *)
Lemma extraction_unterminated pre s ms :
  extraction pre s ms ->
  (forall p r w rest, s = p ++ r -> r = w ++ rest -> ~ closing_fence (rev p ++ pre) w rest) ->
  ms = [].
Proof.
  intros Hext Hno. destruct Hext as [|pre s p m ms body Hs _ _ Hf _ _]; [reflexivity|].
  exfalso. destruct Hf as (tag & ws & fence & Hw & _ & _ & _ & _ & Hclose & _).
  apply (Hno (p ++ u16 "```" ++ tag ++ ws ++ body) (fence ++ m_rest m) fence (m_rest m)).
  - rewrite Hs, Hw, <- !app_assoc. reflexivity.
  - reflexivity.
  - rewrite rev_app_distr, <- app_assoc. exact Hclose.
Qed.

(** A fenced block at the very start of the text is the first block
    returned. *)
Lemma extraction_first pre s ms w body rest :
  extraction pre s ms -> s = w ++ rest -> fenced_block pre w body rest ->
  exists m ms', ms = m :: ms' /\ m_index m = length pre.
Proof.
  intros Hext Hs Hf. destruct Hext as [pre s Hno|pre s p m ms body' Hs' Hidx _ _ Hleft _].
  - exfalso. exact (Hno [] s w body rest eq_refl Hs Hf).
  - exists m, ms. split; [reflexivity|]. destruct p as [|c p]; [cbn in Hidx; lia|].
    exfalso. apply (Hleft [] (c :: p) w body rest eq_refl); [discriminate | | exact Hf].
    rewrite <- Hs', Hs. reflexivity.
Qed.

Lemma at_bol_last (gap : jsstring) (t : N) (pre : list N) :
  last gap = Some t -> is_line_terminator t = true -> at_bol true (rev gap ++ pre) = true.
Proof.
  intros Hl Ht. destruct (rev gap) as [|c g] eqn:E.
  - apply (f_equal (@rev N)) in E. rewrite rev_involutive in E. subst. discriminate.
  - apply (f_equal (@rev N)) in E. rewrite rev_involutive in E. subst gap.
    cbn [rev] in Hl. rewrite last_snoc in Hl. injection Hl as ->. cbn. exact Ht.
Qed.

Lemma closing_fence_starts_with_backtick pre f r c rest :
  closing_fence pre f r -> f ++ r = c :: rest -> c = 96.
Proof.
  intros (ws & -> & _) E. change (u16 "```") with [96; 96; 96] in E.
  cbn [app] in E. injection E as <- _. reflexivity.
Qed.

(** A fence whose body is white space only: the block is recognized and
    its source is white space. *)
Lemma whitespace_body (text tag gap tail ws2 r : jsstring) (t : N) (ms : list rmatch) :
  text = u16 "```" ++ tag ++ gap ++ u16 "```" ++ tail ->
  is_tikz_tag tag ->
  Forall (fun c => is_space c = true) gap ->
  last gap = Some t -> is_line_terminator t = true ->
  tail = ws2 ++ r -> Forall (fun c => is_space c = true) ws2 -> line_end r ->
  extraction [] text ms ->
  exists m ms', ms = m :: ms' /\ m_index m = 0%nat /\
    exists body, m_group m = Some body /\ Forall (fun c => is_space c = true) body.
Proof.
  intros Htext Htag Hgap Hlast Ht Htail Hws2 Hr Hext.
  assert (Hgap' : exists g0, gap = g0 ++ [t]).
  { destruct gap as [|c g] using rev_ind; [discriminate|].
    rewrite last_snoc in Hlast. injection Hlast as ->. exists g. reflexivity. }
  destruct Hgap' as [g0 Hg0].
  assert (Hf0 : fenced_block [] (u16 "```" ++ tag ++ g0 ++ [t] ++ (u16 "```" ++ ws2)) [t] r).
  { exists tag, g0, (u16 "```" ++ ws2).
    split_and!; [reflexivity | reflexivity | exact Htag | | exact Ht | |].
    - rewrite Hg0 in Hgap. apply Forall_app in Hgap as [Hg _]. exact Hg.
    - exists ws2. split_and!; [reflexivity | | exact Hws2 | exact Hr].
      unfold line_start. rewrite app_nil_r, !app_assoc, rev_app_distr. cbn. exact Ht.
    - intros b1 b2 f r' Hb Hne Hsplit Hcf.
      destruct b1 as [|c b1].
      2:{ cbn in Hb. injection Hb as _ Hb. symmetry in Hb.
          apply app_eq_nil in Hb as [_ ->]. contradiction. }
      cbn in Hb. subst b2.
      pose proof (closing_fence_starts_with_backtick _ _ _ t _ Hcf (eq_sym Hsplit)) as E.
      subst t. discriminate. }
  destruct (extraction_first [] text ms (u16 "```" ++ tag ++ g0 ++ [t] ++ u16 "```" ++ ws2) [t] r Hext)
    as (m & ms' & -> & Hidx); [|exact Hf0|].
  { rewrite Htext, Htail, Hg0, <- !app_assoc. reflexivity. }
  exists m, ms'. split_and!; [reflexivity | exact Hidx |].
  inversion Hext as [|? ? p ? ? body Hs Hidx' Hg Hf Hleft Hrest]; subst.
  exists body. split; [exact Hg|].
  assert (p = []) by (destruct p; [reflexivity | cbn in Hidx, Hidx'; lia]). subst p.
  cbn [app] in Hs.
  destruct Hf as (tag' & ws' & fence' & Hw & _ & Htag' & Hws' & Heol & (ws2' & Hfence' & _) & Hmin).
  rewrite Hw in Hs.
  destruct Htag as (a1 & a2 & a3 & a4 & -> & _), Htag' as (a1' & a2' & a3' & a4' & -> & _).
  change (u16 "```") with [96; 96; 96] in *.
  rewrite <- !app_assoc in Hs. cbn [app] in Hs.
  injection Hs as <- <- <- <- Hs.
  assert (Hs' : ws' ++ body ++ fence' ++ m_rest m = (g0 ++ [t]) ++ [96; 96; 96] ++ ws2 ++ r)
    by (rewrite <- Hs, <- app_assoc; reflexivity).
  clear Hs. apply app_eq_app in Hs' as [l [[Hwsl Hl]|[Hgapl Hl]]].
  - (* the white space of the opening line would reach the closing fence *)
    exfalso. destruct l as [|c l].
    + cbn [app] in Hl. unfold line_end in Heol.
      rewrite <- Hl in Heol. cbn in Heol. discriminate.
    + cbn [app] in Hl. injection Hl as <- _.
      rewrite Hwsl in Hws'. apply Forall_app in Hws' as [_ Hc]. inversion Hc; subst. discriminate.
  - apply app_eq_app in Hl as [l2 [[Hbody Hl2]|[Hl2 Hb]]].
    + (* body = l ++ l2 *)
      destruct l2 as [|c l2].
      * rewrite app_nil_r in Hbody. subst body.
        rewrite Hgapl in Hgap. apply Forall_app in Hgap as [_ Hl']. exact Hl'.
      * exfalso. apply (Hmin l (c :: l2) ([96; 96; 96] ++ ws2) r Hbody ltac:(discriminate)).
        -- rewrite <- Hl2, <- !app_assoc. reflexivity.
        -- exists ws2. split_and!; [reflexivity | | exact Hws2 | exact Hr].
           unfold line_start.
           replace ([96; 96; 96] ++ [a1; a2; a3; a4] ++ ws' ++ l)
             with (([96; 96; 96] ++ [a1; a2; a3; a4]) ++ (g0 ++ [t]))
             by (rewrite Hgapl, <- !app_assoc; reflexivity).
           rewrite rev_app_distr, <- app_assoc. apply (at_bol_last (g0 ++ [t]) t _ Hlast Ht).
    + (* l = body ++ l2 *)
      rewrite Hgapl in Hgap. apply Forall_app in Hgap as [_ Hl].
      rewrite Hl2 in Hl. apply Forall_app in Hl as [Hb' _]. exact Hb'.
Qed.

(** A fence line with white space before the fence, or between the fence
    and the tag, is not recognized. *)
Lemma fence_with_leading_space_not_recognized :
  parse_matches (u16 "``` tikz" ++ [LF] ++ u16 "\draw (0,0) -- (1,1);" ++ [LF] ++ u16 "```")
    = Some [] /\
  parse_matches (u16 " ```tikz" ++ [LF] ++ u16 "\draw (0,0) -- (1,1);" ++ [LF] ++ u16 "```")
    = Some [].
Proof. split; vm_compute; reflexivity. Qed.

(** C9, as the code has it.  [parse] always returns.  Its blocks come in
    document order and are exactly the fenced blocks met from left to
    right: three backticks at the start of a line, directly followed by
    the tag in any letter case and then by white space only up to the end
    of a line, and a later closing fence.  A block's source is the body
    the pattern captured and its hash that of the trimmed source.  Without
    any closing fence there is no block, and a fence around white space
    only gives a block whose source is white space. *)
Theorem parse_extraction (generateHash : jsstring -> string) (text : jsstring) :
  exists ms,
    parse_matches text = Some ms /\
    parse generateHash text = Some (map (block_of_match generateHash) ms) /\
    in_document_order 0 ms /\
    extraction [] text ms /\
    Forall (fun m => exists body,
              m_group m = Some body /\
              source (block_of_match generateHash m) = body /\
              hash (block_of_match generateHash m) = generateHash (trim body)) ms /\
    ((forall p r w rest, text = p ++ r -> r = w ++ rest -> ~ closing_fence (rev p) w rest) ->
     ms = []) /\
    (forall tag gap tail ws2 r t,
       text = u16 "```" ++ tag ++ gap ++ u16 "```" ++ tail ->
       is_tikz_tag tag ->
       Forall (fun c => is_space c = true) gap ->
       last gap = Some t -> is_line_terminator t = true ->
       tail = ws2 ++ r -> Forall (fun c => is_space c = true) ws2 -> line_end r ->
       exists m ms', ms = m :: ms' /\ m_index m = 0%nat /\
         exists body, m_group m = Some body /\ Forall (fun c => is_space c = true) body).
Proof.
  destruct (exec_loop_spec (S (length text)) [] text ltac:(lia)) as (ms & Hloop & Hext & Hord).
  exists ms. split_and!.
  - exact Hloop.
  - unfold parse, parse_matches. rewrite Hloop. reflexivity.
  - exact Hord.
  - exact Hext.
  - clear Hloop Hord. remember [] as pre eqn:Hpre. clear Hpre.
    induction Hext as [|pre s p m ms body Hs Hidx Hg Hf Hleft Hrest IH]; constructor.
    + exists body. unfold block_of_match, new_TikzBlock. cbn [source hash]. rewrite Hg.
      split_and!; reflexivity.
    + exact IH.
  - intros Hno. apply (extraction_unterminated [] text ms Hext).
    intros p r w rest Hp Hr. rewrite app_nil_r. apply (Hno p r w rest Hp Hr).
  - intros tag gap tail ws2 r t Htext Htag Hgap Hlast Ht Htail Hws2 Hr.
    exact (whitespace_body text tag gap tail ws2 r t ms Htext Htag Hgap Hlast Ht Htail Hws2 Hr Hext).
Qed.

End DocumentParserFacts.

(** ** Rendering one block *)
Module PreviewManagerFacts.
Import CacheEntry CacheManager CacheManagerFacts DocumentParser PreviewText TexErrorFacts
       PreviewManager.

Lemma decimal_no_bang (n : N) : Forall (fun c => c <> 33) (decimal n).
Proof.
  unfold decimal. generalize (N.to_uint n). intros d.
  assert (H : Forall (fun c => c <> 33) (u16 (NilEmpty.string_of_uint d))).
  { induction d; cbn; constructor; try discriminate; assumption. }
  destruct d; try exact H. cbn. repeat constructor. discriminate.
Qed.

Section Host.
Variable postProcessSvg : jsstring -> bool -> option jsstring.
Variable tex2svg : list jsstring -> jsstring -> engine_reply.
Variable darkMode : bool.
Variable Date_now : nat -> Z.
Variable renderTimeout : N.

Let renderSingleBlock := _renderSingleBlock postProcessSvg tex2svg darkMode Date_now renderTimeout.

Lemma renderSingleBlock_failure (s : state) (hash : string) (source : jsstring) (err : thrown) :
  failure renderTimeout (tex2svg (map snd (engineCalls s)) (engine_source source)) = Some err ->
  renderSingleBlock hash source s =
    Ok tt (with_svgCache (insert hash (ResultError (_extractTexError err)))
             (with_engine_call hash (engine_source source) s)).
Proof.
  unfold failure, renderSingleBlock, _renderSingleBlock, _renderTikzToSvg, bind.
  destruct (race renderTimeout _) as [svg|e]; [discriminate|].
  intros [= ->]. reflexivity.
Qed.

End Host.

(** A marker line is not found when an earlier line of the error text
    holds a [!]: the stored message is made of what follows that one. *)
Lemma marker_after_earlier_bang :
  let err := ErrorObject (u16 "Error")
               (u16 "\draw[fill=blue!20] (0,0);" ++ [LF] ++ u16 "! Undefined control sequence") in
  let run := _renderSingleBlock (fun svg _ => Some svg) (fun _ _ => Rejects err) false
               (fun _ => 0%Z) 0 "h" (u16 "\draw (0,0);") initial in
  exists s', run = Ok tt s' /\
    svgCache s' !! "h"%string = Some (ResultError (u16 "TeX compilation failed: 20] (0,0);")) /\
    includes (u16 "TeX compilation failed: 20] (0,0);") (u16 "Undefined control sequence") = false.
Proof.
  intros err run.
  pose proof (renderSingleBlock_failure (fun svg _ => Some svg) (fun _ _ => Rejects err) false
                (fun _ => 0%Z) 0 initial "h" (u16 "\draw (0,0);") err eq_refl) as H.
  eexists. split; [exact H|]. split; [|vm_compute; reflexivity].
  cbn [svgCache with_svgCache]. rewrite lookup_insert_eq. vm_compute. reflexivity.
Qed.

(** *** Rendering a document *)

Lemma distinct_subset (l : list string) : forall h, h ∈ distinct l -> h ∈ l.
Proof.
  induction l as [|a l IH]; intros h Hh; [exact Hh|].
  cbn in Hh. apply elem_of_cons in Hh as [->|Hh]; [left|].
  apply list_elem_of_filter in Hh as [_ Hh]. right. apply IH, Hh.
Qed.



Lemma filter_comm_string (P Q : string -> Prop) `{!forall x, Decision (P x)} `{!forall x, Decision (Q x)}
    (l : list string) :
  filter P (filter Q l) = filter Q (filter P l).
Proof. rewrite !list_filter_filter. apply list_filter_iff. intros x. tauto. Qed.

Lemma filter_all (P : string -> Prop) `{!forall x, Decision (P x)} (l : list string) :
  Forall P l -> filter P l = l.
Proof.
  induction 1 as [|a l Ha Hl IH]; [reflexivity|].
  rewrite filter_cons_True by exact Ha. f_equal. exact IH.
Qed.

Lemma distinct_filter (P : string -> Prop) `{!forall x, Decision (P x)} (l : list string) :
  filter P (distinct l) = distinct (filter P l).
Proof.
  induction l as [|a l IH]; [reflexivity|].
  cbn [distinct]. rewrite !filter_cons. destruct (decide (P a)) as [Ha|Ha].
  - cbn [distinct]. f_equal. rewrite filter_comm_string, IH. reflexivity.
  - rewrite filter_comm_string, IH. apply filter_all.
    apply Forall_forall. intros h Hh Heq. subst h.
    apply distinct_subset, list_elem_of_filter in Hh as [HP _]. contradiction.
Qed.

Section Document.
Variable generateHash : jsstring -> string.
Variable postProcessSvg : jsstring -> bool -> option jsstring.
Variable tex2svg : list jsstring -> jsstring -> engine_reply.
Variable darkMode : bool.
Variable Date_now : nat -> Z.
Variable renderTimeout : N.

Let settle' := settle postProcessSvg darkMode Date_now.
Let renderSingleBlock := _renderSingleBlock postProcessSvg tex2svg darkMode Date_now renderTimeout.
Let render_block' := render_block postProcessSvg tex2svg darkMode Date_now renderTimeout.
Let renderDocument' :=
  renderDocument generateHash postProcessSvg tex2svg darkMode Date_now renderTimeout.

Lemma settle_spec (s : state) (h : string) (r : jsstring + thrown) :
  consistent (globalState s) -> usable h ->
  exists s', settle' h r s = Ok tt s' /\ block_frame h s s' /\
             engineCalls s' = engineCalls s /\ nudges s' = nudges s.
Proof.
  intros Hc Hu. unfold settle', settle. destruct r as [svg|err].
  - unfold bind, modify, on_cache. cbn [globalState with_svgCache].
    destruct (set_consistent h (new (Date_now (length (engineCalls s))) h svg) (globalState s) Hu Hc)
      as (g' & Hset & Hc' & Hp & Hf).
    cbn [engineCalls with_svgCache]. rewrite Hset. eexists. split; [reflexivity|].
    split; [|split; reflexivity].
    split_and!; cbn; try reflexivity; try exact Hc'.
    + rewrite lookup_insert_eq. eexists; reflexivity.
    + intros h' Hne. split; [apply lookup_insert_ne; congruence | apply Hf, Hne].
  - unfold modify. eexists. split; [reflexivity|].
    split; [|split; reflexivity].
    split_and!; cbn; try reflexivity; try exact Hc.
    + rewrite lookup_insert_eq. eexists; reflexivity.
    + intros h' Hne. split; [apply lookup_insert_ne; congruence | reflexivity].
Qed.

Lemma render_block_skip (b : TikzBlock) (s : state) :
  is_Some (svgCache s !! hash b) -> render_block' b s = Ok tt s.
Proof.
  intros H. unfold render_block', render_block. rewrite bool_decide_eq_true_2 by exact H. reflexivity.
Qed.

Lemma render_block_spec (b : TikzBlock) (s : state) :
  consistent (globalState s) -> usable (hash b) ->
  exists s', render_block' b s = Ok tt s' /\ block_frame (hash b) s s' /\
             engine_hashes s' =
               engine_hashes s ++ (if unresolvedb s (hash b) then [hash b] else []).
Proof.
  intros Hc Hu. unfold render_block', render_block.
  destruct (svgCache s !! hash b) as [res|] eqn:Hmem.
  - rewrite bool_decide_eq_true_2 by (eexists; reflexivity).
    exists s. split; [reflexivity|]. split.
    + split_and!; try reflexivity; [exact Hc | rewrite Hmem; eexists; reflexivity |].
      intros h' _. split; reflexivity.
    + unfold unresolvedb. rewrite Hmem, app_nil_r. reflexivity.
  - rewrite bool_decide_eq_false_2 by (intros [x Hx]; discriminate).
    destruct (get_consistent (hash b) (globalState s) Hu Hc) as (g1 & Hget & Hc1 & _ & Hp1 & Hf1).
    unfold bind at 1. unfold on_cache at 1. rewrite Hget.
    unfold unresolvedb. rewrite Hmem.
    destruct (peek (globalState s) (hash b)) as [d|] eqn:Hpeek; cbn [fmap option_fmap option_map].
    + unfold bind, modify, _nudgeDocument. eexists. split; [reflexivity|]. split.
      * split_and!; cbn; try reflexivity; try exact Hc1.
        -- rewrite lookup_insert_eq. eexists; reflexivity.
        -- intros h' Hne. split; [apply lookup_insert_ne; congruence | apply Hf1, Hne].
      * unfold engine_hashes. cbn. rewrite app_nil_r. reflexivity.
    + unfold bind at 1. unfold _renderSingleBlock, bind at 1, _renderTikzToSvg.
      set (s1 := with_engine_call _ _ _).
      set (r := race _ _).
      assert (Hc1' : consistent (globalState s1)) by exact Hc1.
      destruct (settle_spec s1 (hash b) r Hc1' Hu) as (s2 & Hs2 & (Hc2 & Hr2 & Hx2 & Hm2 & Hf2) & He2 & Hn2).
      fold settle'. rewrite Hs2. unfold _nudgeDocument, modify.
      eexists. split; [reflexivity|]. split.
      * split_and!; cbn; try assumption.
        intros h' Hne. destruct (Hf2 h' Hne) as [Hm Hp]. split; [exact Hm|].
        rewrite Hp. cbn. apply Hf1, Hne.
      * unfold engine_hashes. cbn. rewrite He2. unfold s1. cbn. rewrite map_app. reflexivity.
Qed.

Lemma unresolvedb_frame (h h' : string) (s s' : state) :
  block_frame h s s' ->
  unresolvedb s' h' = unresolvedb s h' && bool_decide (h' <> h).
Proof.
  intros (_ & _ & _ & [x Hx] & Hf). unfold unresolvedb.
  destruct (decide (h' = h)) as [->|Hne].
  - rewrite Hx. rewrite bool_decide_eq_false_2 by tauto. rewrite andb_false_r. reflexivity.
  - destruct (Hf h' Hne) as [-> ->]. rewrite bool_decide_eq_true_2 by exact Hne.
    rewrite andb_true_r. reflexivity.
Qed.

(** The loop of [renderDocument]: the engine is called once for each
    distinct fingerprint that neither cache resolves, in the order of
    first occurrence, and afterwards the memory cache resolves every
    block. *)
Lemma render_blocks_spec (blocks : list TikzBlock) :
  forall s : state,
    consistent (globalState s) -> Forall (fun b => usable (hash b)) blocks ->
    exists s', for_each blocks render_block' s = Ok tt s' /\
               consistent (globalState s') /\
               isRendering s' = isRendering s /\
               extractions s' = extractions s /\
               (forall h, is_Some (svgCache s !! h) -> is_Some (svgCache s' !! h)) /\
               Forall (fun b => is_Some (svgCache s' !! hash b)) blocks /\
               engine_hashes s' =
                 engine_hashes s ++
                 distinct (filter (fun h => unresolvedb s h = true) (map hash blocks)).
Proof.
  induction blocks as [|b blocks IH]; intros s Hc Hu.
  - exists s. split_and!; try reflexivity; try assumption; [tauto | constructor |].
    cbn. rewrite app_nil_r. reflexivity.
  - inversion Hu as [|? ? Hb Hbs]; subst.
    destruct (render_block_spec b s Hc Hb) as (s1 & Hr1 & Hfr & He1).
    pose proof Hfr as (Hc1 & Hi1 & Hx1 & Hm1 & Hf1).
    destruct (IH s1 Hc1 Hbs) as (s' & Hr' & Hc' & Hi' & Hx' & Hmono & Hall & He').
    assert (Hmono1 : forall h, is_Some (svgCache s !! h) -> is_Some (svgCache s1 !! h)).
    { intros h Hh. destruct (decide (h = hash b)) as [->|Hne]; [exact Hm1|].
      destruct (Hf1 h Hne) as [-> _]. exact Hh. }
    exists s'. cbn [for_each]. unfold bind at 1. rewrite Hr1.
    split_and!; try congruence.
    + intros h Hh. apply Hmono, Hmono1, Hh.
    + constructor; [apply Hmono, Hm1 | exact Hall].
    + rewrite He', He1, <- app_assoc. f_equal.
      assert (Hfilter : filter (fun h => unresolvedb s1 h = true) (map hash blocks) =
                        filter (fun h => h <> hash b)
                          (filter (fun h => unresolvedb s h = true) (map hash blocks))).
      { rewrite list_filter_filter. apply list_filter_iff. intros h.
        rewrite (unresolvedb_frame (hash b) h s s1 Hfr).
        rewrite andb_true_iff, bool_decide_eq_true. tauto. }
      cbn [map]. rewrite filter_cons.
      destruct (unresolvedb s (hash b)) eqn:Hub.
      * rewrite decide_True by reflexivity. cbn [distinct app]. f_equal.
        rewrite Hfilter. symmetry. apply distinct_filter.
      * rewrite decide_False by discriminate. cbn [app]. rewrite Hfilter.
        rewrite <- distinct_filter. apply filter_all.
        apply Forall_forall. intros h Hh Heq. subst h.
        apply distinct_subset, list_elem_of_filter in Hh as [Hu' _]. congruence.
Qed.





End Document.

End PreviewManagerFacts.

(** ** The re-entrancy guard *)
Module OrchestratorFacts.
Import CacheManager DocumentParser PreviewText PreviewManager Orchestrator.

Section Host.
Variable generateHash : jsstring -> string.
Variable postProcessSvg : jsstring -> bool -> option jsstring.
Variable tex2svg : list jsstring -> jsstring -> engine_reply.
Variable darkMode : bool.
Variable Date_now : nat -> Z.
Variable renderTimeout : N.

Let render_block' := render_block postProcessSvg tex2svg darkMode Date_now renderTimeout.
Let renderDocument' :=
  renderDocument generateHash postProcessSvg tex2svg darkMode Date_now renderTimeout.
Let call' := call generateHash.
Let resume' := resume postProcessSvg tex2svg darkMode Date_now renderTimeout.
Let step' := step generateHash postProcessSvg tex2svg darkMode Date_now renderTimeout.
Let run' := run generateHash postProcessSvg tex2svg darkMode Date_now renderTimeout.

Lemma on_cache_keeps_flag {A} (m : StateMonad.M Memento A) (s s' : state) (a : A) :
  on_cache m s = Ok a s' -> isRendering s' = isRendering s.
Proof.
  unfold on_cache. destruct (m (globalState s)); [|discriminate].
  intros [= _ <-]. reflexivity.
Qed.

Lemma settle_keeps_flag (h : string) (r : jsstring + thrown) (s s' : state) :
  settle postProcessSvg darkMode Date_now h r s = Ok tt s' -> isRendering s' = isRendering s.
Proof.
  unfold settle. destruct r as [svg|err].
  - unfold bind, modify. intros H. apply on_cache_keeps_flag in H. exact H.
  - unfold modify. intros [= <-]. reflexivity.
Qed.

Lemma render_block_keeps_flag (b : TikzBlock) (s s' : state) :
  render_block' b s = Ok tt s' -> isRendering s' = isRendering s.
Proof.
  unfold render_block', render_block.
  destruct (bool_decide _); [intros [= <-]; reflexivity|].
  unfold bind at 1.
  destruct (on_cache (get (hash b)) s) as [cached s1|] eqn:Hget; [|discriminate].
  apply on_cache_keeps_flag in Hget. destruct cached as [entry|].
  - unfold bind, modify, _nudgeDocument. intros [= <-]. cbn. exact Hget.
  - unfold bind at 1. unfold _renderSingleBlock, bind at 1, _renderTikzToSvg.
    destruct (settle _ _ _ _ _ _) as [[] s2|] eqn:Hs; [|discriminate].
    apply settle_keeps_flag in Hs. unfold _nudgeDocument, modify. intros [= <-].
    cbn. rewrite Hs. cbn. exact Hget.
Qed.

Lemma exclusive_initial : exclusive initial_world.
Proof. left. split; [reflexivity | constructor]. Qed.

Lemma exclusive_running (w : world) (i : nat) (todo : list TikzBlock) :
  exclusive w -> passes w !! i = Some (Running todo) ->
  isRendering (pm w) = true /\
  forall j p, passes w !! j = Some p -> j <> i -> active p = false.
Proof.
  intros [[_ Hall]|[Hflag (i0 & todo0 & Hi0 & Hothers)]] Hi.
  - rewrite Forall_lookup in Hall. specialize (Hall i _ Hi). discriminate.
  - destruct (decide (i = i0)) as [->|Hne].
    + split; assumption.
    + specialize (Hothers i _ Hi Hne). discriminate.
Qed.

Lemma exclusive_step (l : label) (w w' : world) :
  exclusive w -> step' l w = Some w' -> exclusive w'.
Proof.
  intros Hex Hstep. destruct l as [text|i]; cbn in Hstep.
  - injection Hstep as <-. unfold call.
    destruct (isRendering (pm w)) eqn:Hflag.
    + destruct Hex as [[Hf _]|[_ (i0 & todo0 & Hi0 & Hothers)]]; [congruence|].
      right. split; [exact Hflag|]. exists i0, todo0. cbn. split.
      * rewrite lookup_app_l; [exact Hi0 | eapply lookup_lt_Some, Hi0].
      * intros j p Hj Hne. apply lookup_app_Some in Hj as [Hj|[_ Hj]]; [eapply Hothers; eassumption|].
        apply list_lookup_singleton_Some in Hj as [_ <-]. reflexivity.
    + destruct Hex as [[_ Hall]|[Hf _]]; [|congruence].
      destruct (parse_blocks generateHash text) as [|b bs].
      * left. cbn. split; [exact Hflag|]. apply Forall_app. split; [exact Hall | repeat constructor].
      * right. cbn. split; [reflexivity|]. exists (length (passes w)), (b :: bs). split.
        -- rewrite lookup_app_r by lia. rewrite Nat.sub_diag. reflexivity.
        -- intros j p Hj Hne. apply lookup_app_Some in Hj as [Hj|[Hge Hj]].
           ++ rewrite Forall_lookup in Hall. exact (Hall j p Hj).
           ++ apply list_lookup_singleton_Some in Hj as [Hj _]. lia.
  - unfold resume in Hstep.
    destruct (passes w !! i) as [[[|b rest]| |]|] eqn:Hi; try discriminate.
    destruct (render_block _ _ _ _ _ b (pm w)) as [[] s'|] eqn:Hrb; [|discriminate].
    apply render_block_keeps_flag in Hrb.
    destruct (exclusive_running w i _ Hex Hi) as [Hflag Hothers].
    injection Hstep as <-. destruct rest as [|b' rest'].
    + left. cbn. split; [reflexivity|]. apply Forall_lookup. intros j p Hj.
      destruct (decide (j = i)) as [->|Hne].
      * rewrite list_lookup_insert_eq in Hj by (eapply lookup_lt_Some, Hi).
        injection Hj as <-. reflexivity.
      * rewrite list_lookup_insert_ne in Hj by congruence. eapply Hothers; eassumption.
    + right. cbn. split; [congruence|]. exists i, (b' :: rest'). split.
      * apply list_lookup_insert_eq. eapply lookup_lt_Some, Hi.
      * intros j p Hj Hne. rewrite list_lookup_insert_ne in Hj by congruence.
        eapply Hothers; eassumption.
Qed.

Lemma exclusive_run (ls : list label) :
  forall w w', exclusive w -> run' ls w = Some w' -> exclusive w'.
Proof.
  induction ls as [|l ls IH]; intros w w' Hex Hrun; cbn in Hrun.
  - injection Hrun as <-. exact Hex.
  - destruct (step _ _ _ _ _ _ l w) as [w1|] eqn:Hstep; [|discriminate].
    eapply IH; [|exact Hrun]. eapply exclusive_step; eassumption.
Qed.

Lemma dropped_step (l : label) (w w' : world) (i : nat) :
  passes w !! i = Some Dropped -> step' l w = Some w' -> passes w' !! i = Some Dropped.
Proof.
  intros Hi Hstep. destruct l as [text|j]; cbn in Hstep.
  - injection Hstep as <-. unfold call.
    assert (Hlt : (i < length (passes w))%nat) by (eapply lookup_lt_Some, Hi).
    destruct (isRendering (pm w)); [|destruct (parse_blocks generateHash text)];
      cbn; rewrite lookup_app_l by exact Hlt; exact Hi.
  - unfold resume in Hstep.
    destruct (passes w !! j) as [[[|b rest]| |]|] eqn:Hj; try discriminate.
    destruct (render_block _ _ _ _ _ b (pm w)) as [[] s'|]; [|discriminate].
    assert (Hne : j <> i) by (intros ->; congruence).
    injection Hstep as <-. destruct rest; cbn; rewrite list_lookup_insert_ne by exact Hne; exact Hi.
Qed.

Lemma dropped_run (ls : list label) :
  forall w w' i, passes w !! i = Some Dropped -> run' ls w = Some w' ->
                 passes w' !! i = Some Dropped.
Proof.
  induction ls as [|l ls IH]; intros w w' i Hi Hrun; cbn in Hrun.
  - injection Hrun as <-. exact Hi.
  - destruct (step _ _ _ _ _ _ l w) as [w1|] eqn:Hstep; [|discriminate].
    eapply IH; [|exact Hrun]. eapply dropped_step; eassumption.
Qed.

(** A call of [renderDocument] that no other call interleaves with: the
    steps of its loop, one after the other, do what the sequential
    [renderDocument] does. *)
Lemma loop_alone (todo : list TikzBlock) :
  forall (w : world) (ps : list pass) (s' : state),
    todo <> [] ->
    passes w = ps ++ [Running todo] ->
    for_each todo render_block' (pm w) = Ok tt s' ->
    run' (replicate (length todo) (Resume (length ps))) w =
      Some {| pm := with_isRendering false s'; passes := ps ++ [Finished] |}.
Proof.
  induction todo as [|b rest IH]; intros w ps s' Hne Hps Hloop; [congruence|].
  cbn [length replicate]. unfold run'. cbn [run step]. unfold resume.
  rewrite Hps, list_lookup_middle by reflexivity.
  cbn [for_each] in Hloop. unfold bind in Hloop. unfold render_block' in Hloop.
  destruct (render_block _ _ _ _ _ b (pm w)) as [[] s1|]; [|discriminate].
  rewrite insert_app_r_alt by reflexivity. rewrite Nat.sub_diag. cbn [insert list_insert].
  destruct rest as [|b' rest'].
  - cbn in Hloop. injection Hloop as <-. reflexivity.
  - rewrite insert_app_r_alt by reflexivity. rewrite Nat.sub_diag. cbn [insert list_insert].
    apply IH; [discriminate | reflexivity | exact Hloop].
Qed.

Lemma pass_alone (text : jsstring) (w : world) (s' : state) :
  isRendering (pm w) = false ->
  renderDocument' text (pm w) = Ok tt s' ->
  run' (Call text :: replicate (length (parse_blocks generateHash text))
                               (Resume (length (passes w)))) w =
    Some {| pm := s'; passes := passes w ++ [Finished] |}.
Proof.
  intros Hidle. unfold renderDocument', renderDocument, run'. rewrite Hidle.
  cbn [run step]. unfold call. rewrite Hidle.
  destruct (parse_blocks generateHash text) as [|b0 bs].
  - intros [= <-]. reflexivity.
  - unfold bind at 1. unfold modify at 1. unfold bind at 1.
    destruct (for_each (b0 :: bs) _ _) as [[] s1|] eqn:Hloop; [|discriminate].
    unfold modify. intros [= <-].
    apply (loop_alone (b0 :: bs) _ (passes w) s1); [discriminate | reflexivity | exact Hloop].
Qed.

(** C6. In every state the calls of [renderDocument] can reach, at most
    one call is in its loop, and the flag is set exactly then.  While it
    is set, a further call returns at once: the state, with both caches,
    the engine calls, the nudges and the extractions, is as before, and
    the call is recorded as dropped; a dropped call never runs a block
    later. *)
Theorem reentrancy_guard (ls : list label) (w : world) :
  run' ls initial_world = Some w ->
  (forall i j ti tj, passes w !! i = Some (Running ti) ->
                     passes w !! j = Some (Running tj) -> i = j) /\
  (isRendering (pm w) = true <-> exists i todo, passes w !! i = Some (Running todo)) /\
  (forall text, isRendering (pm w) = true ->
     renderDocument' text (pm w) = Ok tt (pm w) /\
     call' text w = {| pm := pm w; passes := passes w ++ [Dropped] |}) /\
  (forall i, passes w !! i = Some Dropped ->
     resume' i w = None /\
     forall ls' w', run' ls' w = Some w' -> passes w' !! i = Some Dropped).
Proof.
  intros Hrun. pose proof (exclusive_run ls _ _ exclusive_initial Hrun) as Hex.
  split_and!.
  - intros i j ti tj Hi Hj. destruct (decide (i = j)) as [|Hne]; [assumption|].
    destruct (exclusive_running w i _ Hex Hi) as [_ Hothers].
    specialize (Hothers j _ Hj ltac:(congruence)). discriminate.
  - split.
    + intros Hflag. destruct Hex as [[Hf _]|[_ (i & todo & Hi & _)]]; [congruence|].
      exists i, todo. exact Hi.
    + intros (i & todo & Hi). apply (exclusive_running w i _ Hex Hi).
  - intros text Hflag. split.
    + unfold renderDocument', renderDocument. rewrite Hflag. reflexivity.
    + unfold call', call. rewrite Hflag. reflexivity.
  - intros i Hi. split.
    + unfold resume', resume. rewrite Hi. reflexivity.
    + intros ls' w' Hrun'. eapply dropped_run; eassumption.
Qed.

End Host.

End OrchestratorFacts.

(** ** The render chain *)
Module RenderChainFacts.
Import CacheManager PreviewText PreviewManager RenderChain.

Lemma map_take_insert_same {A B : Type} (f : A -> B) (l : list A) :
  forall (i k : nat) (x y : A),
    l !! i = Some y -> f x = f y -> map f (take k (<[i:=x]> l)) = map f (take k l).
Proof.
  induction l as [|a l IH]; intros i k x y Hi Hf; [discriminate|].
  destruct k as [|k]; [reflexivity|]. destruct i as [|i].
  - cbn in Hi. injection Hi as ->. cbn. rewrite Hf. reflexivity.
  - cbn in Hi. cbn. f_equal. exact (IH i k x y Hi Hf).
Qed.

Lemma settled_begun (st : status) : settled st = true -> begun st = true.
Proof. destruct st; cbn; congruence. Qed.

Section Host.
Variable postProcessSvg : jsstring -> bool -> option jsstring.
Variable darkMode : bool.
Variable Date_now : nat -> Z.
Variable renderTimeout : N.

Let settle' := settle postProcessSvg darkMode Date_now.
Let step' := step postProcessSvg darkMode Date_now renderTimeout.
Let run' := run postProcessSvg darkMode Date_now renderTimeout.

Lemma settle_keeps_calls (h : string) (res : jsstring + thrown) (s s' : state) :
  settle' h res s = Ok tt s' -> engineCalls s' = engineCalls s.
Proof.
  unfold settle', settle. destruct res as [svg|err].
  - unfold bind, modify. intros H. unfold on_cache in H.
    match type of H with
    | match ?t with _ => _ end = _ => destruct t; [|discriminate]
    end.
    inversion H; subst. reflexivity.
  - unfold modify. intros [= <-]. reflexivity.
Qed.

Lemma chained_initial : chained initial_chain.
Proof.
  split; cbn.
  - reflexivity.
  - intros i r H. discriminate.
  - intros i j ri rj _ H. discriminate.
  - exists 0%nat. split_and!; [lia | reflexivity | intros i r H; discriminate].
  - intros i H. inversion H.
Qed.

Lemma chained_submit (hash : string) (source : jsstring) (c : chain) :
  chained c -> chained (submit hash source c).
Proof.
  intros [Htail Hlinks Horder (k & Hk & Hcalls & Hbegun) Hres]. unfold submit. split; cbn.
  - rewrite length_app. cbn. rewrite Nat.add_1_r. reflexivity.
  - intros i r Hi. apply lookup_app_Some in Hi as [Hi|[Hge Hi]]; [exact (Hlinks i r Hi)|].
    apply list_lookup_singleton_Some in Hi as [Hi <-]. cbn.
    assert (i = length (requests c)) by lia. subst i. split; [reflexivity|].
    intros on [= <-]. rewrite Htail. reflexivity.
  - intros i j ri rj Hlt Hi Hj Hb.
    apply lookup_app_Some in Hj as [Hj|[Hge Hj]].
    + apply lookup_app_Some in Hi as [Hi|[Hge' _]]; [exact (Horder i j ri rj Hlt Hi Hj Hb)|].
      apply lookup_lt_Some in Hj. lia.
    + apply list_lookup_singleton_Some in Hj as [_ <-]. discriminate.
  - exists k. split_and!.
    + rewrite length_app. lia.
    + rewrite take_app_le by exact Hk. exact Hcalls.
    + intros i r Hi. apply lookup_app_Some in Hi as [Hi|[Hge Hi]]; [exact (Hbegun i r Hi)|].
      apply list_lookup_singleton_Some in Hi as [_ <-]. cbn. split; [discriminate | lia].
  - intros i Hi. destruct (Hres i Hi) as (r & Hr & Hs). exists r. split; [|exact Hs].
    apply lookup_app_l_Some. exact Hr.
Qed.

(** A begun step changes its status to a settled one. *)
Lemma chained_settle (c : chain) (i : nat) (r : request) (st : status) (s' : state) :
  chained c -> requests c !! i = Some r ->
  begun (r_status r) = true -> settled st = true ->
  engineCalls s' = engineCalls (pm c) ->
  chained {| pm := s'; requests := <[i := with_status st r]> (requests c);
             _renderChain := _renderChain c; resumed := resumed c |}.
Proof.
  intros [Htail Hlinks Horder (k & Hk & Hcalls & Hbegun) Hres] Hi Hb Hst Hcalls'.
  assert (Hlen : (i < length (requests c))%nat) by (eapply lookup_lt_Some, Hi).
  assert (Hlook : forall j rj, <[i := with_status st r]> (requests c) !! j = Some rj ->
            exists rj0, requests c !! j = Some rj0 /\
                        r_awaited rj = r_awaited rj0 /\
                        (begun (r_status rj0) = true -> begun (r_status rj) = true) /\
                        (begun (r_status rj) = true -> begun (r_status rj0) = true) /\
                        (settled (r_status rj0) = true -> settled (r_status rj) = true) /\
                        (forall on, r_status rj = Waiting on -> r_status rj0 = Waiting on)).
  { intros j rj Hj. destruct (decide (j = i)) as [->|Hne].
    - rewrite list_lookup_insert_eq in Hj by exact Hlen. injection Hj as <-.
      exists r. cbn. split_and!; try tauto; try reflexivity.
      + intros _. apply settled_begun, Hst.
      + intros on Hon. rewrite Hon in Hst. discriminate.
    - rewrite list_lookup_insert_ne in Hj by congruence. exists rj. tauto. }
  split; cbn.
  - rewrite length_insert. exact Htail.
  - intros j rj Hj. destruct (Hlook j rj Hj) as (rj0 & Hj0 & Haw & _ & _ & _ & Hw).
    destruct (Hlinks j rj0 Hj0) as [Ha Hon]. split; [congruence|].
    intros on Hwait. apply Hon, Hw, Hwait.
  - intros i1 j ri rj Hlt Hi1 Hj Hbj.
    destruct (Hlook i1 ri Hi1) as (ri0 & Hi0 & _ & _ & _ & Hs & _).
    destruct (Hlook j rj Hj) as (rj0 & Hj0 & _ & _ & Hb0 & _ & _).
    apply Hs. exact (Horder i1 j ri0 rj0 Hlt Hi0 Hj0 (Hb0 Hbj)).
  - exists k. split_and!.
    + rewrite length_insert. exact Hk.
    + rewrite Hcalls', Hcalls. symmetry. apply (map_take_insert_same _ _ i k _ r Hi). reflexivity.
    + intros j rj Hj. destruct (Hlook j rj Hj) as (rj0 & Hj0 & _ & Hb1 & Hb2 & _ & _).
      rewrite <- (Hbegun j rj0 Hj0). split; assumption.
  - intros j Hj. destruct (Hres j Hj) as (rj & Hrj & Hs).
    destruct (decide (j = i)) as [->|Hne].
    + exists (with_status st r). split; [apply list_lookup_insert_eq, Hlen | exact Hst].
    + exists rj. split; [rewrite list_lookup_insert_ne by congruence; exact Hrj | exact Hs].
Qed.

Lemma chained_start (i : nat) (c c' : chain) :
  chained c -> start i c = Some c' -> chained c'.
Proof.
  intros Hch Hstart. pose proof Hch as [Htail Hlinks Horder (k & Hk & Hcalls & Hbegun) Hres].
  unfold start in Hstart.
  destruct (requests c !! i) as [r|] eqn:Hi; [|discriminate].
  destruct (r_status r) as [on| | |] eqn:Hst; try discriminate.
  destruct (fulfilled c on) eqn:Hful; [|discriminate].
  injection Hstart as <-.
  assert (Hlen : (i < length (requests c))%nat) by (eapply lookup_lt_Some, Hi).
  assert (Hprev : forall j rj, (j < i)%nat -> requests c !! j = Some rj ->
                               settled (r_status rj) = true).
  { destruct (Hlinks i r Hi) as [_ Hon]. specialize (Hon on Hst). subst on.
    destruct i as [|n]; [intros j rj Hj; lia|].
    cbn in Hful. destruct (requests c !! n) as [rn|] eqn:Hn; [|discriminate].
    intros j rj Hj Hrj. destruct (decide (j = n)) as [->|Hne].
    - congruence.
    - apply (Horder j n rj rn ltac:(lia) Hrj Hn). apply settled_begun, Hful. }
  assert (Hki : k = i).
  { assert (Hnot : ~ (i < k)%nat).
    { intros Hlt. apply (Hbegun i r Hi) in Hlt. rewrite Hst in Hlt. discriminate. }
    destruct (decide (k < i)%nat) as [Hlt|Hge]; [|lia].
    exfalso. destruct (lookup_lt_is_Some_2 (requests c) k ltac:(lia)) as [rk Hrk].
    pose proof (Hprev k rk Hlt Hrk) as Hs. apply settled_begun in Hs.
    apply (Hbegun k rk Hrk) in Hs. lia. }
  subst k.
  split; cbn.
  - rewrite length_insert. exact Htail.
  - intros j rj Hj. destruct (decide (j = i)) as [->|Hne].
    + rewrite list_lookup_insert_eq in Hj by exact Hlen. injection Hj as <-. cbn.
      split; [apply (Hlinks i r Hi) | discriminate].
    + rewrite list_lookup_insert_ne in Hj by congruence. exact (Hlinks j rj Hj).
  - intros i1 j ri rj Hlt Hi1 Hj Hbj.
    destruct (decide (j = i)) as [->|Hnej].
    + rewrite list_lookup_insert_ne in Hi1 by lia. exact (Hprev i1 ri Hlt Hi1).
    + rewrite list_lookup_insert_ne in Hj by congruence.
      destruct (decide (i1 = i)) as [->|Hnei].
      * exfalso. pose proof (Horder i j r rj Hlt Hi Hj Hbj) as Hs.
        rewrite Hst in Hs. discriminate.
      * rewrite list_lookup_insert_ne in Hi1 by congruence.
        exact (Horder i1 j ri rj Hlt Hi1 Hj Hbj).
  - exists (S i). split_and!.
    + rewrite length_insert. lia.
    + rewrite (take_S_r _ i (with_status Racing r)) by (apply list_lookup_insert_eq, Hlen).
      rewrite take_insert_ge by lia. rewrite map_app, Hcalls. reflexivity.
    + intros j rj Hj. destruct (decide (j = i)) as [->|Hne].
      * rewrite list_lookup_insert_eq in Hj by exact Hlen. injection Hj as <-. cbn. split; [lia | reflexivity].
      * rewrite list_lookup_insert_ne in Hj by congruence.
        rewrite (Hbegun j rj Hj). lia.
  - intros j Hj. destruct (Hres j Hj) as (rj & Hrj & Hs).
    exists rj. split; [|exact Hs]. rewrite list_lookup_insert_ne; [exact Hrj|].
    intros <-. rewrite Hi in Hrj. injection Hrj as <-. rewrite Hst in Hs. discriminate.
Qed.

Lemma chained_step (l : label) (c c' : chain) :
  chained c -> step' l c = Some c' -> chained c'.
Proof.
  intros Hch Hstep. destruct l as [h src|i|i res|i|i]; cbn in Hstep.
  - injection Hstep as <-. apply chained_submit, Hch.
  - eapply chained_start; eassumption.
  - unfold engine_done in Hstep.
    destruct (requests c !! i) as [r|] eqn:Hi; [|discriminate].
    destruct (r_status r) eqn:Hst; try discriminate.
    + unfold settle_with in Hstep.
      destruct (settle _ _ _ _ _ _) as [[] s'|] eqn:Hs; [|discriminate].
      injection Hstep as <-. apply settle_keeps_calls in Hs.
      apply chained_settle; try assumption; [rewrite Hst|]; reflexivity.
    + injection Hstep as <-.
      apply chained_settle; try assumption; [rewrite Hst|..]; reflexivity.
  - unfold timer_fires in Hstep.
    destruct (requests c !! i) as [r|] eqn:Hi; [|discriminate].
    destruct (r_status r) eqn:Hst; try discriminate.
    unfold settle_with in Hstep.
    destruct (settle _ _ _ _ _ _) as [[] s'|] eqn:Hs; [|discriminate].
    injection Hstep as <-. apply settle_keeps_calls in Hs.
    apply chained_settle; try assumption; [rewrite Hst|]; reflexivity.
  - unfold caller_resumes in Hstep.
    destruct (requests c !! i) as [r|] eqn:Hi; [|discriminate].
    destruct (fulfilled c (r_awaited r)) eqn:Hful; [|discriminate].
    injection Hstep as <-.
    destruct Hch as [Htail Hlinks Horder Hcalls Hres]. split; cbn; try assumption.
    intros j Hj. apply elem_of_app in Hj as [Hj|Hj]; [exact (Hres j Hj)|].
    apply list_elem_of_singleton in Hj. subst j.
    destruct (Hlinks i r Hi) as [Haw _]. rewrite Haw in Hful. cbn in Hful. rewrite Hi in Hful.
    exists r. split; [exact Hi | exact Hful].
Qed.

Lemma chained_run (ls : list label) :
  forall c c', chained c -> run' ls c = Some c' -> chained c'.
Proof.
  induction ls as [|l ls IH]; intros c c' Hch Hrun; cbn in Hrun.
  - injection Hrun as <-. exact Hch.
  - destruct (step _ _ _ _ l c) as [c1|] eqn:Hstep; [|discriminate].
    eapply IH; [|exact Hrun]. eapply chained_step; eassumption.
Qed.

Lemma none_abandoned_step (l : label) (c c' : chain) :
  none_abandoned c -> is_timer l = false -> step' l c = Some c' -> none_abandoned c'.
Proof.
  unfold none_abandoned. intros Hna Hl Hstep. destruct l as [h src|i|i res|i|i]; cbn in Hstep; try discriminate.
  - injection Hstep as <-. cbn. apply Forall_app. split; [exact Hna|]. repeat constructor. discriminate.
  - unfold start in Hstep.
    destruct (requests c !! i) as [r|]; [|discriminate].
    destruct (r_status r); try discriminate. destruct (fulfilled c on); [|discriminate].
    injection Hstep as <-. cbn. apply Forall_insert; [exact Hna | discriminate].
  - unfold engine_done in Hstep.
    destruct (requests c !! i) as [r|]; [|discriminate].
    destruct (r_status r); try discriminate.
    + unfold settle_with in Hstep. destruct (settle _ _ _ _ _ _) as [[] s'|]; [|discriminate].
      injection Hstep as <-. cbn. apply Forall_insert; [exact Hna | discriminate].
    + injection Hstep as <-. cbn. apply Forall_insert; [exact Hna | discriminate].
  - unfold caller_resumes in Hstep.
    destruct (requests c !! i) as [r|]; [|discriminate].
    destruct (fulfilled c (r_awaited r)); [|discriminate].
    injection Hstep as <-. exact Hna.
Qed.

Lemma none_abandoned_run (ls : list label) :
  forall c c', none_abandoned c -> forallb (fun l => negb (is_timer l)) ls = true ->
               run' ls c = Some c' -> none_abandoned c'.
Proof.
  induction ls as [|l ls IH]; intros c c' Hna Hls Hrun; cbn in Hrun, Hls.
  - injection Hrun as <-. exact Hna.
  - apply andb_true_iff in Hls as [Hl Hls]. apply negb_true_iff in Hl.
    destruct (step _ _ _ _ l c) as [c1|] eqn:Hstep; [|discriminate].
    eapply IH; [|exact Hls|exact Hrun]. eapply none_abandoned_step; eassumption.
Qed.

Lemma fulfilled_app (c : chain) (p : option nat) (s : state) (rs : list request)
    (t : option nat) (done : list nat) :
  fulfilled c p = true ->
  fulfilled {| pm := s; requests := requests c ++ rs; _renderChain := t; resumed := done |} p
  = true.
Proof.
  destruct p as [j|]; [|reflexivity]. cbn.
  destruct (requests c !! j) as [r|] eqn:Hj; [|discriminate].
  rewrite (lookup_app_l_Some _ _ _ _ Hj). trivial.
Qed.

(** A request that no other request interleaves with: appended to a
    chain whose last step is settled, its step starts, the race is
    settled as the reply of the engine has it, and its caller goes on;
    the state is then the one the sequential [_renderSingleBlock]
    gives. *)
Lemma request_alone (tex2svg : list jsstring -> jsstring -> engine_reply)
    (h : string) (src : jsstring) (c : chain) (s' : state) :
  fulfilled c (_renderChain c) = true ->
  _renderSingleBlock postProcessSvg tex2svg darkMode Date_now renderTimeout h src (pm c)
  = Ok tt s' ->
  let n := length (requests c) in
  exists c',
    run' [Submit h src; Start n;
          settling n (tex2svg (map snd (engineCalls (pm c))) (engine_source src));
          CallerResumes n] c = Some c' /\
    pm c' = s' /\ resumed c' = resumed c ++ [n].
Proof.
  intros Hf Hr n. unfold _renderSingleBlock, bind, _renderTikzToSvg in Hr.
  unfold run'. cbn [run step]. unfold submit. fold n.
  unfold start. cbn [requests].
  rewrite list_lookup_middle by reflexivity. cbn [r_status].
  rewrite (fulfilled_app c _ _ _ _ _ Hf).
  cbn [pm requests _renderChain resumed r_hash r_source].
  rewrite insert_app_r_alt by reflexivity. fold n. rewrite Nat.sub_diag. cbn [insert list_insert].
  set (reply := tex2svg (map snd (engineCalls (pm c))) (engine_source src)) in *.
  assert (Hend : forall st r0,
            settled st = true -> r_awaited r0 = Some n ->
            caller_resumes n
              {| pm := s'; requests := requests c ++ [with_status st r0];
                 _renderChain := Some n; resumed := resumed c |} =
            Some {| pm := s'; requests := requests c ++ [with_status st r0];
                    _renderChain := Some n; resumed := resumed c ++ [n] |}).
  { intros st r0 Hst Haw. unfold caller_resumes. cbn [requests].
    rewrite list_lookup_middle by reflexivity. cbn [r_awaited with_status]. rewrite Haw.
    unfold fulfilled. cbn [requests].
    rewrite list_lookup_middle by reflexivity. cbn [r_status with_status].
    rewrite Hst. reflexivity. }
  destruct reply as [svg|err|]; cbn [settling step race] in *.
  - unfold engine_done. cbn [requests].
    rewrite list_lookup_middle by reflexivity. cbn [r_status with_status].
    unfold settle_with. cbn [pm r_hash with_status]. rewrite Hr. cbn [requests _renderChain resumed].
    rewrite insert_app_r_alt by reflexivity. fold n. rewrite Nat.sub_diag. cbn [insert list_insert].
    rewrite Hend by reflexivity. eexists. split; [reflexivity|]. split; reflexivity.
  - unfold engine_done. cbn [requests].
    rewrite list_lookup_middle by reflexivity. cbn [r_status with_status].
    unfold settle_with. cbn [pm r_hash with_status]. rewrite Hr. cbn [requests _renderChain resumed].
    rewrite insert_app_r_alt by reflexivity. fold n. rewrite Nat.sub_diag. cbn [insert list_insert].
    rewrite Hend by reflexivity. eexists. split; [reflexivity|]. split; reflexivity.
  - unfold timer_fires. cbn [requests].
    rewrite list_lookup_middle by reflexivity. cbn [r_status with_status].
    unfold settle_with. cbn [pm r_hash with_status]. rewrite Hr. cbn [requests _renderChain resumed].
    rewrite insert_app_r_alt by reflexivity. fold n. rewrite Nat.sub_diag. cbn [insert list_insert].
    rewrite Hend by reflexivity. eexists. split; [reflexivity|]. split; reflexivity.
Qed.

(** C1, as the code has it.  In every state the render chain can reach:
    a step has begun only if every step appended before it is settled,
    by the end of its engine call or by its timer, so no two steps race
    at the same time; the engine has been called for the begun steps in
    the order they were appended; a caller has gone on only if its own
    step is settled; and as long as no timer has fired, at most one
    engine call is running. *)
Theorem render_chain_serialized (ls : list label) (c : chain) :
  run' ls initial_chain = Some c ->
  (forall i j ri rj, (i < j)%nat ->
     requests c !! i = Some ri -> requests c !! j = Some rj ->
     begun (r_status rj) = true -> settled (r_status ri) = true) /\
  (forall i j ri rj,
     requests c !! i = Some ri -> requests c !! j = Some rj ->
     r_status ri = Racing -> r_status rj = Racing -> i = j) /\
  (exists k, engineCalls (pm c) =
             map (fun r => (r_hash r, engine_source (r_source r))) (take k (requests c)) /\
             forall i r, requests c !! i = Some r ->
                         (begun (r_status r) = true <-> (i < k)%nat)) /\
  (forall i, i ∈ resumed c ->
     exists r, requests c !! i = Some r /\ settled (r_status r) = true) /\
  (forallb (fun l => negb (is_timer l)) ls = true ->
   forall i j ri rj,
     requests c !! i = Some ri -> requests c !! j = Some rj ->
     in_flight (r_status ri) = true -> in_flight (r_status rj) = true -> i = j).
Proof.
  intros Hrun. pose proof (chained_run ls _ _ chained_initial Hrun) as Hch.
  pose proof Hch as [Htail Hlinks Horder (k & Hk & Hcalls & Hbegun) Hres].
  assert (Hone : forall i j ri rj,
            requests c !! i = Some ri -> requests c !! j = Some rj ->
            r_status ri = Racing -> r_status rj = Racing -> i = j).
  { intros i j ri rj Hi Hj Hri Hrj.
    destruct (Nat.lt_trichotomy i j) as [Hlt|[Heq|Hgt]]; [exfalso | exact Heq | exfalso].
    - pose proof (Horder i j ri rj Hlt Hi Hj) as H. rewrite Hri, Hrj in H.
      specialize (H eq_refl). discriminate.
    - pose proof (Horder j i rj ri Hgt Hj Hi) as H. rewrite Hri, Hrj in H.
      specialize (H eq_refl). discriminate. }
  split_and!.
  - exact Horder.
  - exact Hone.
  - exists k. split; assumption.
  - exact Hres.
  - intros Hno i j ri rj Hi Hj Hfi Hfj.
    assert (Hna : none_abandoned c).
    { eapply none_abandoned_run; [|exact Hno|exact Hrun]. constructor. }
    unfold none_abandoned in Hna. rewrite Forall_lookup in Hna.
    pose proof (Hna i ri Hi) as Hai. pose proof (Hna j rj Hj) as Haj.
    apply (Hone i j ri rj Hi Hj).
    + destruct (r_status ri); try discriminate; [reflexivity | contradiction].
    + destruct (r_status rj); try discriminate; [reflexivity | contradiction].
Qed.

End Host.

(** When the timer of the first request fires, the second request's
    engine call begins while the first one's still runs. *)
Lemma engine_calls_overlap_after_timeout :
  (fun c => map r_status (requests c)) <$>
    run (fun svg _ => Some svg) false (fun _ => 0%Z) 15000
      [Submit "a" (u16 "\draw (0,0) -- (1,1);"); Submit "b" (u16 "\draw (0,0) -- (2,2);");
       Start 0; TimerFires 0; Start 1]
      initial_chain
  = Some [Abandoned; Racing].
Proof. vm_compute. reflexivity. Qed.

End RenderChainFacts.

(** ** The preprocessor: what it keeps *)
Module PreprocessorContentFacts.
Import Preprocessor Content JSStringFacts PreprocessorFacts.

Lemma ink_cons (c : N) (s : jsstring) :
  ink (c :: s) = if is_space c then ink s else c :: ink s.
Proof.
  unfold ink. rewrite filter_cons. destruct (is_space c); reflexivity.
Qed.

Lemma ink_app (a b : jsstring) : ink (a ++ b) = ink a ++ ink b.
Proof. unfold ink. apply filter_app. Qed.

Lemma ink_nil_iff (s : jsstring) : ink s = [] <-> Forall (fun c => is_space c = true) s.
Proof.
  induction s as [|c r IH]; [split; [constructor | reflexivity]|].
  rewrite ink_cons. destruct (is_space c) eqn:Hc.
  - rewrite IH. split; [intros H; constructor; assumption | intros H; inversion H; assumption].
  - split; [discriminate | intros H; inversion H; congruence].
Qed.

Lemma ink_replace_nbsp (s : jsstring) : ink (replace_nbsp s) = ink s.
Proof.
  unfold replace_nbsp. induction s as [|c r IH]; [reflexivity|].
  cbn [map]. rewrite !ink_cons, IH.
  destruct (N.eqb_spec c NBSP) as [->|Hc]; reflexivity.
Qed.

Lemma ink_trimStart (s : jsstring) : ink (trimStart s) = ink s.
Proof.
  induction s as [|c r IH]; [reflexivity|]. cbn [trimStart].
  destruct (is_space c) eqn:Hc; [|reflexivity].
  rewrite IH, ink_cons, Hc. reflexivity.
Qed.

Lemma ink_trimEnd (s : jsstring) : ink (trimEnd s) = ink s.
Proof.
  induction s as [|c r IH]; [reflexivity|]. cbn [trimEnd].
  destruct (trimEnd r) as [|c' r'] eqn:Hr.
  - rewrite ink_cons, <- IH. destruct (is_space c) eqn:Hc; [reflexivity|].
    rewrite ink_cons, Hc. reflexivity.
  - rewrite !(ink_cons c), <- IH. reflexivity.
Qed.

Lemma ink_trim (s : jsstring) : ink (trim s) = ink s.
Proof. unfold trim. rewrite ink_trimEnd, ink_trimStart. reflexivity. Qed.

Lemma ink_join_nl (ls : list jsstring) : ink (join_nl ls) = concat (map ink ls).
Proof.
  induction ls as [|l ls IH]; [reflexivity|]. cbn [join_nl map concat].
  destruct ls as [|l' ls'].
  - cbn. rewrite app_nil_r. reflexivity.
  - rewrite ink_app, ink_cons, IH. reflexivity.
Qed.

Lemma ink_nonempty_lines (ls : list jsstring) :
  concat (map ink (filter (fun l => nonempty l = true) ls)) = concat (map ink ls).
Proof.
  induction ls as [|l ls IH]; [reflexivity|]. rewrite filter_cons.
  destruct (decide (nonempty l = true)) as [Hl|Hl]; cbn [map concat]; rewrite IH; [reflexivity|].
  destruct l; [reflexivity | exfalso; apply Hl; reflexivity].
Qed.

Lemma ink_preprocess (s : jsstring) : ink (preprocessSource s) = ink s.
Proof.
  unfold preprocessSource. rewrite ink_join_nl, ink_nonempty_lines.
  rewrite <- (ink_replace_nbsp s). rewrite <- (join_split_nl (replace_nbsp s)) at 2.
  rewrite ink_join_nl, map_map. f_equal.
  apply map_ext. intros l. apply ink_trim.
Qed.

Lemma trim_length (s : jsstring) : (length (trim s) <= length s)%nat.
Proof.
  assert (Hs : forall r, (length (trimStart r) <= length r)%nat).
  { induction r as [|c r IH]; [reflexivity|]. cbn [trimStart].
    destruct (is_space c); cbn [length]; lia. }
  assert (He : forall r, (length (trimEnd r) <= length r)%nat).
  { induction r as [|c r IH]; [reflexivity|]. cbn [trimEnd].
    destruct (trimEnd r); [destruct (is_space c)|]; cbn [length] in *; lia. }
  unfold trim. etransitivity; [apply He | apply Hs].
Qed.

(** The length of a joined text, counted with one separator after each
    line. *)
Lemma join_nl_length (ls : list jsstring) :
  ls <> [] -> S (length (join_nl ls)) = sum_list (map (fun l => S (length l)) ls).
Proof.
  induction ls as [|l ls IH]; [congruence|]. intros _. cbn [join_nl map sum_list].
  destruct ls as [|l' ls']; [cbn; lia|].
  rewrite length_app. cbn [length]. rewrite <- IH by discriminate. unfold id. lia.
Qed.

Lemma cleaned_length (ls : list jsstring) :
  (sum_list (map (fun l => S (length l)) (filter (fun l => nonempty l = true) (map trim ls)))
   <= sum_list (map (fun l => S (length l)) ls))%nat.
Proof.
  induction ls as [|l ls IH]; [reflexivity|]. cbn [map]. rewrite filter_cons.
  pose proof (trim_length l).
  destruct (decide (nonempty (trim l) = true)); cbn [map sum_list]; unfold id in *; lia.
Qed.

(** X1.  [preprocessSource] changes white space only: the code units
    that are not white space come out as they went in, in the same
    order; and the lines of the output are the input's lines, trimmed,
    without the blank ones. *)
Theorem preprocessSource_keeps_content (s : jsstring) :
  ink (preprocessSource s) = ink s /\
  lines_of (preprocessSource s) =
    filter (fun l => l <> []) (map trim (split_nl (replace_nbsp s))).
Proof.
  split; [apply ink_preprocess|].
  assert (Hf : forall ls : list jsstring,
             filter (fun l => l <> []) ls = filter (fun l => nonempty l = true) ls).
  { intros ls. apply list_filter_iff. intros l. destruct l; cbn; split; congruence. }
  rewrite Hf. apply (lines_of_joined (cleaned_lines s)). apply cleaned_lines_clean.
Qed.

(** X2.  The output is empty exactly for an input of white space only,
    and it is never longer than the input. *)
Theorem preprocessSource_blank_and_shorter (s : jsstring) :
  (preprocessSource s = [] <-> Forall (fun c => is_space c = true) s) /\
  (length (preprocessSource s) <= length s)%nat.
Proof.
  split.
  - rewrite <- ink_nil_iff, <- ink_preprocess. split; [intros ->; reflexivity|].
    intros Hnone.
    pose proof (cleaned_lines_clean s) as Hclean.
    change (preprocessSource s) with (join_nl (cleaned_lines s)) in *.
    destruct (cleaned_lines s) as [|l ls]; [reflexivity|]. exfalso.
    apply Forall_cons in Hclean as [[[Hfirst _] [Hne _]] _].
    destruct l as [|c l]; [congruence|].
    specialize (Hfirst c eq_refl).
    assert (Hhead : exists rest, join_nl ((c :: l) :: ls) = c :: rest).
    { cbn [join_nl]. destruct ls; eexists; reflexivity. }
    destruct Hhead as [rest Hrest].
    assert (Hink : ink (c :: rest) = []) by (rewrite <- Hrest; exact Hnone).
    rewrite ink_cons, Hfirst in Hink. discriminate.
  - unfold preprocessSource.
    set (ls := split_nl (replace_nbsp s)).
    assert (Hlen : length s = length (join_nl ls)).
    { unfold ls. rewrite join_split_nl. unfold replace_nbsp. rewrite length_map. reflexivity. }
    rewrite Hlen.
    pose proof (cleaned_length ls) as Hc.
    pose proof (join_nl_length ls (split_nl_nonnil _)) as Hj.
    destruct (filter (fun l => nonempty l = true) (map trim ls)) as [|l0 ls0] eqn:Hf;
      [cbn; lia|].
    pose proof (join_nl_length (l0 :: ls0) ltac:(discriminate)) as Hj0. lia.
Qed.

End PreprocessorContentFacts.

(** ** The error message of a failed render, in all cases *)
Module TexErrorShapeFacts.
Import Regex PreviewText JSStringFacts RegexFacts CompatFacts.

Lemma trimStart_suffix (s : jsstring) : exists a, s = a ++ trimStart s.
Proof.
  induction s as [|c r [a Ha]]; [exists []; reflexivity|]. cbn [trimStart].
  destruct (is_space c); [|exists []; reflexivity].
  exists (c :: a). cbn. f_equal. exact Ha.
Qed.

Lemma trimEnd_prefix (s : jsstring) : exists b, s = trimEnd s ++ b.
Proof.
  induction s as [|c r [b Hb]]; [exists []; reflexivity|]. cbn [trimEnd].
  destruct (trimEnd r) as [|c' r'] eqn:Hr.
  - destruct (is_space c).
    + exists (c :: r). reflexivity.
    + exists b. cbn. f_equal. exact Hb.
  - exists b. cbn. f_equal. exact Hb.
Qed.

Lemma trim_infix (s : jsstring) : exists a b, s = a ++ trim s ++ b.
Proof.
  unfold trim. destruct (trimStart_suffix s) as [a Ha].
  destruct (trimEnd_prefix (trimStart s)) as [b Hb].
  exists a, b. rewrite <- Hb. exact Ha.
Qed.

Lemma includes_nil (t : jsstring) : t <> [] -> includes [] t = false.
Proof. destruct t; [congruence | reflexivity]. Qed.


(** The message made of a thrown value that reads as text. *)
Lemma extractTexError_text_shape (err : thrown) :
  let msg := error_text err in
  let out := _extractTexError err in
  out <> [] /\
  ((exists line pre post,
      out = u16 "TeX compilation failed: " ++ line /\
      trimmed line /\ Forall (fun c => is_line_terminator c = false) line /\
      msg = pre ++ line ++ post /\ 33 ∈ pre) \/
   (out = msg /\ includes msg (u16 "timed out") = true) \/
   (out = u16 "TeX compilation failed. Check your LaTeX syntax." ++ [LF] ++ take 300 msg /\
    includes msg (u16 "timed out") = false /\
    (length out <= 349)%nat)).
Proof.
  intros msg out. subst out. unfold _extractTexError. fold msg.
  assert (Hp1 : length (u16 "TeX compilation failed: ") = 24%nat) by (vm_compute; reflexivity).
  assert (Hp2 : length (u16 "TeX compilation failed. Check your LaTeX syntax.") = 48%nat)
    by (vm_compute; reflexivity).
  destruct (exec TEX_ERROR_REGEX msg) as [m|] eqn:Hexec.
  - split.
    { intros H. apply (f_equal length) in H. rewrite length_app, Hp1 in H. cbn in H. lia. }
    left. unfold exec in Hexec.
    apply search_Some in Hexec as (p & rest & Hmsg & Hhere & _).
    apply match_here_sound in Hhere as (_ & Hrest & Hden & _).
    unfold TEX_ERROR_REGEX in Hden. cbn [denotes] in Hden.
    destruct Hden as (w1 & w2 & c1 & Htext & Hbang & w3 & w4 & c2 & Hw2 & Hgroup & Hend).
    apply denotes_chr in Hbang as [-> ->].
    destruct Hgroup as [[c1' [Hdot _]] ->].
    assert (Hg : m_group m = Some w3).
    { destruct Hend as [[_ ->]|[_ ->]]; reflexivity. }
    rewrite Hg. cbn [default].
    destruct (trim_infix w3) as (a & b & Hw3).
    exists (trim w3), (p ++ [33] ++ a), (b ++ w4 ++ m_rest m).
    split_and!.
    + reflexivity.
    + apply trim_trimmed.
    + apply trim_Forall. eapply Forall_impl; [exact Hdot|].
      cbn. unfold cls_dot. intros c Hc. destruct (is_line_terminator c); [discriminate|reflexivity].
    + rewrite Hmsg, Hrest, Htext, Hw2. rewrite Hw3 at 1.
      rewrite <- !app_assoc. reflexivity.
    + apply elem_of_app. right. left.
  - destruct (includes msg (u16 "timed out")) eqn:Hinc.
    + split.
      * intros ->. rewrite includes_nil in Hinc by discriminate. discriminate.
      * right. left. split; reflexivity.
    + split.
      { intros H. apply (f_equal length) in H. rewrite length_app, Hp2 in H. cbn in H. lia. }
      right. right. split_and!; [reflexivity | reflexivity |].
      rewrite !length_app, Hp2, length_take. cbn [length]. lia.
Qed.

(** X3.  [_extractTexError(err: any)] returns a message exactly for the
    thrown values that read as text ([err?.message || String(err)] is a
    string).  The message is then not empty and has one of three shapes:
    the fixed prefix followed by one trimmed line quoted from the text
    after an exclamation mark; the text itself, when it tells of a
    time-out; or the general message followed by at most the first 300
    code units of the text.  For a value whose [message] is truthy and
    not a string, and for one that [String] cannot convert, the call
    throws and returns no message. *)
Theorem extractTexError_shape (err : PreviewCatch.any) :
  match err with
  | PreviewCatch.Text t =>
      let msg := error_text t in
      exists out,
        PreviewCatch._extractTexError err = Some out /\
        out <> [] /\
        ((exists line pre post,
            out = u16 "TeX compilation failed: " ++ line /\
            trimmed line /\ Forall (fun c => is_line_terminator c = false) line /\
            msg = pre ++ line ++ post /\ 33 ∈ pre) \/
         (out = msg /\ includes msg (u16 "timed out") = true) \/
         (out = u16 "TeX compilation failed. Check your LaTeX syntax." ++ [LF] ++ take 300 msg /\
          includes msg (u16 "timed out") = false /\
          (length out <= 349)%nat))
  | PreviewCatch.MessageNotString | PreviewCatch.NotConvertible =>
      PreviewCatch._extractTexError err = None
  end.
Proof.
  destruct err as [t| |]; [|reflexivity|reflexivity].
  intros msg. exists (_extractTexError t). split; [reflexivity|].
  exact (extractTexError_text_shape t).
Qed.

End TexErrorShapeFacts.

(** ** extension.ts: escaping an error message *)
Module EscapeHtmlFacts.
Import Extension.

Lemma escapeHtml_flat_map (text : jsstring) : escapeHtml text = flat_map entity text.
Proof.
  unfold escapeHtml, replace_all_char.
  induction text as [|c r IH]; [reflexivity|].
  cbn [flat_map]. rewrite !flat_map_app, IH. f_equal.
  unfold entity.
  destruct (N.eqb_spec c 38) as [->|H38]; [vm_compute; reflexivity|].
  cbn [flat_map app]. rewrite !app_nil_r.
  destruct (N.eqb_spec c 60) as [->|H60]; [vm_compute; reflexivity|].
  cbn [flat_map app]. rewrite !app_nil_r.
  destruct (N.eqb_spec c 62) as [->|H62]; [vm_compute; reflexivity|].
  cbn [flat_map app]. rewrite !app_nil_r.
  destruct (N.eqb_spec c 34) as [->|H34]; reflexivity.
Qed.

(** An entity is the character itself, when it is none of the four, or
    an ampersand, a name without ampersand and a semicolon. *)
Lemma entity_cases (c : N) :
  (entity c = [c] /\ c <> 38 /\ c <> 60 /\ c <> 62 /\ c <> 34) \/
  (exists name, entity c = 38 :: name ++ [59] /\
                name ∈ [u16 "amp"; u16 "lt"; u16 "gt"; u16 "quot"] /\
                (c = 38 \/ c = 60 \/ c = 62 \/ c = 34)).
Proof.
  unfold entity.
  destruct (N.eqb_spec c 38) as [->|H38].
  { right. exists (u16 "amp"). split_and!; [reflexivity | set_solver | tauto]. }
  destruct (N.eqb_spec c 60) as [->|H60].
  { right. exists (u16 "lt"). split_and!; [reflexivity | set_solver | tauto]. }
  destruct (N.eqb_spec c 62) as [->|H62].
  { right. exists (u16 "gt"). split_and!; [reflexivity | set_solver | tauto]. }
  destruct (N.eqb_spec c 34) as [->|H34].
  { right. exists (u16 "quot"). split_and!; [reflexivity | set_solver | tauto]. }
  left. tauto.
Qed.

Lemma name_plain (name : jsstring) :
  name ∈ [u16 "amp"; u16 "lt"; u16 "gt"; u16 "quot"] ->
  Forall (fun c => c <> 38 /\ c <> 60 /\ c <> 62 /\ c <> 34) (name ++ [59]).
Proof.
  intros H. repeat (apply elem_of_cons in H as [->|H]);
    [| | | |inversion H]; vm_compute; repeat constructor; discriminate.
Qed.

Lemma skip_without (x : N) (a b p q : jsstring) :
  Forall (fun c => c <> x) a -> a ++ b = p ++ x :: q ->
  exists p', p = a ++ p' /\ b = p' ++ x :: q.
Proof.
  revert p. induction a as [|c a IH]; intros p Ha H.
  - exists p. split; [reflexivity | exact H].
  - apply Forall_cons in Ha as [Hc Ha]. destruct p as [|d p].
    + cbn in H. injection H as -> _. congruence.
    + cbn in H. injection H as -> H. destruct (IH p Ha H) as (p' & -> & Hb).
      exists p'. split; [reflexivity | exact Hb].
Qed.

Lemma entity_prefix_free (c1 c2 : N) (x y : jsstring) :
  entity c1 ++ x = entity c2 ++ y -> c1 = c2 /\ x = y.
Proof.
  unfold entity.
  destruct (N.eqb_spec c1 38) as [->|?]; [|destruct (N.eqb_spec c1 60) as [->|?];
    [|destruct (N.eqb_spec c1 62) as [->|?]; [|destruct (N.eqb_spec c1 34) as [->|?]]]];
  (destruct (N.eqb_spec c2 38) as [->|?]; [|destruct (N.eqb_spec c2 60) as [->|?];
    [|destruct (N.eqb_spec c2 62) as [->|?]; [|destruct (N.eqb_spec c2 34) as [->|?]]]]);
  vm_compute; intros H; try discriminate H; injection H; intros; subst;
    try congruence; split; reflexivity.
Qed.

(** X4.  [escapeHtml] replaces each ampersand, angle bracket and double
    quote by its entity, once: the ampersand of an entity it has written
    is not escaped again.  The result has no angle bracket and no double
    quote, and each of its ampersands starts one of the four entities. *)
Theorem escapeHtml_entities (text : jsstring) :
  escapeHtml text = flat_map entity text /\
  Forall (fun c => c <> 60 /\ c <> 62 /\ c <> 34) (escapeHtml text) /\
  (forall pre post, escapeHtml text = pre ++ 38 :: post ->
     exists name rest, post = name ++ 59 :: rest /\
                       name ∈ [u16 "amp"; u16 "lt"; u16 "gt"; u16 "quot"]).
Proof.
  split; [apply escapeHtml_flat_map|]. rewrite escapeHtml_flat_map. split.
  - induction text as [|c r IH]; [constructor|]. cbn [flat_map].
    apply Forall_app. split; [|exact IH].
    destruct (entity_cases c) as [(-> & ? & ? & ? & ?)|(name & -> & Hname & _)].
    + repeat constructor; assumption.
    + constructor; [repeat split; discriminate|].
      eapply Forall_impl; [apply name_plain; exact Hname|]. cbn. tauto.
  - induction text as [|c r IH]; intros pre post H.
    { destruct pre; discriminate H. }
    cbn [flat_map] in H.
    destruct (entity_cases c) as [(He & Hc & _)|(name & He & Hname & _)]; rewrite He in H.
    + apply (skip_without 38 [c]) in H as (p' & _ & Hr);
        [|constructor; [exact Hc | constructor]].
      exact (IH _ _ Hr).
    + destruct pre as [|d pre].
      * cbn in H. injection H as <-. exists name, (flat_map entity r).
        split; [rewrite <- app_assoc; reflexivity | exact Hname].
      * cbn in H. injection H as <- H.
        apply (skip_without 38) in H as (p' & _ & Hr).
        -- exact (IH _ _ Hr).
        -- eapply Forall_impl; [apply name_plain; exact Hname|]. cbn. tauto.
Qed.

(** X5.  [escapeHtml] loses nothing: two texts with the same escaped
    form are the same text. *)
Theorem escapeHtml_injective (a b : jsstring) :
  escapeHtml a = escapeHtml b <-> a = b.
Proof.
  split; [|intros ->; reflexivity].
  rewrite !escapeHtml_flat_map. revert b.
  induction a as [|c a IH]; intros [|d b] H; cbn [flat_map] in H.
  - reflexivity.
  - exfalso. destruct (entity_cases d) as [(He & _)|(name & He & _)];
      rewrite He in H; discriminate H.
  - exfalso. destruct (entity_cases c) as [(He & _)|(name & He & _)];
      rewrite He in H; discriminate H.
  - apply entity_prefix_free in H as [-> H]. f_equal. exact (IH _ H).
Qed.

End EscapeHtmlFacts.

(** ** PreviewManager: the libraries a source loads *)
Module PreviewDetectFacts.
Import Regex Preprocessor PreviewDetect JSStringFacts RegexFacts CompatFacts TexErrorFacts
       TexErrorShapeFacts.

Lemma split_on_nonnil (sep : N) (s : jsstring) : split_on sep s <> [].
Proof.
  induction s as [|c r IH]; [discriminate|]. cbn [split_on].
  destruct (c =? sep); [discriminate|]. destruct (split_on sep r); discriminate.
Qed.

Lemma split_on_no_sep (sep : N) (s : jsstring) :
  Forall (Forall (fun c => c <> sep)) (split_on sep s).
Proof.
  induction s as [|c r IH]; [repeat constructor|]. cbn [split_on].
  destruct (N.eqb_spec c sep) as [->|Hc]; [constructor; [constructor | exact IH]|].
  destruct (split_on sep r) as [|l ls]; [repeat constructor; exact Hc|].
  apply Forall_cons in IH as [Hl Hls]. constructor; [constructor; assumption | exact Hls].
Qed.

Lemma split_on_Forall (P : N -> Prop) (sep : N) (s : jsstring) :
  Forall P s -> Forall (Forall P) (split_on sep s).
Proof.
  induction 1 as [|c r Hc Hr IH]; [repeat constructor|]. cbn [split_on].
  destruct (c =? sep); [constructor; [constructor | exact IH]|].
  destruct (split_on sep r) as [|l ls]; [repeat constructor; exact Hc|].
  apply Forall_cons in IH as [Hl Hls]. constructor; [constructor; assumption | exact Hls].
Qed.

(** Every piece of a split text is a part of the text. *)
Lemma split_on_infix (sep : N) (s : jsstring) :
  Forall (fun l => exists a b, s = a ++ l ++ b) (split_on sep s).
Proof.
  induction s as [|c r IH]; [constructor; [exists [], []; reflexivity | constructor]|].
  cbn [split_on].
  assert (Hlater : Forall (fun l => exists a b, c :: r = a ++ l ++ b) (split_on sep r)).
  { eapply Forall_impl; [exact IH|]. cbv beta. intros l (a & b & ->). exists (c :: a), b. reflexivity. }
  destruct (c =? sep).
  - constructor; [exists [], (c :: r); reflexivity | exact Hlater].
  - destruct (split_on sep r) as [|l ls] eqn:Hs.
    + constructor; [exists [], r; reflexivity | constructor].
    + apply Forall_cons in IH as [(a & b & Hl) _]. apply Forall_cons in Hlater as [_ Hls].
      constructor; [|exact Hls].
      (* the first piece of [r] starts at the start of [r] *)
      assert (Hfirst : exists b', r = l ++ b').
      { clear -Hs. revert l ls Hs. induction r as [|d r IH]; intros l ls Hs.
        - cbn in Hs. injection Hs as <- <-. exists []. reflexivity.
        - cbn [split_on] in Hs. destruct (d =? sep).
          + injection Hs as <- <-. exists (d :: r). reflexivity.
          + destruct (split_on sep r) as [|l' ls'] eqn:Hr.
            * injection Hs as <- <-. destruct r; [exists []; reflexivity|].
              exfalso. revert Hr. apply split_on_nonnil.
            * injection Hs as <- <-. destruct (IH _ _ eq_refl) as [b' ->].
              exists b'. reflexivity. }
      destruct Hfirst as [b' ->]. exists [], b'. reflexivity.
Qed.

Lemma split_join_on (sep : N) (ls : list jsstring) :
  ls <> [] -> Forall (Forall (fun c => c <> sep)) ls -> split_on sep (join_with sep ls) = ls.
Proof.
  assert (Hline : forall l r, Forall (fun c => c <> sep) l ->
            split_on sep (l ++ sep :: r) = l :: split_on sep r).
  { induction l as [|c l IH]; intros r Hl; cbn [app split_on].
    - rewrite N.eqb_refl. reflexivity.
    - apply Forall_cons in Hl as [Hc Hl]. rewrite (IH r Hl).
      destruct (N.eqb_spec c sep); [contradiction | reflexivity]. }
  assert (Hone : forall l, Forall (fun c => c <> sep) l -> split_on sep l = [l]).
  { induction l as [|c l IH]; intros Hl; [reflexivity|]. cbn [split_on].
    apply Forall_cons in Hl as [Hc Hl]. rewrite (IH Hl).
    destruct (N.eqb_spec c sep); [contradiction | reflexivity]. }
  induction ls as [|l ls IH]; [congruence|]. intros _ Hall.
  apply Forall_cons in Hall as [Hl Hls]. cbn [join_with].
  destruct ls as [|l' ls']; [apply Hone; exact Hl|].
  rewrite (Hline _ _ Hl). f_equal. apply IH; [discriminate | exact Hls].
Qed.

(** The names read from the text of one directive. *)
Lemma library_names_spec (P : N -> Prop) (group : jsstring) :
  Forall P group ->
  Forall (fun name => name <> [] /\ trimmed name /\
                      Forall (fun c => c <> 44) name /\ Forall P name /\
                      exists a b, group = a ++ name ++ b)
         (library_names group).
Proof.
  intros HP. unfold library_names. apply Forall_forall. intros name Hin.
  apply list_elem_of_filter in Hin as [Hne Hin].
  apply list_elem_of_fmap in Hin as (piece & -> & Hpiece).
  pose proof (split_on_no_sep 44 group) as Hsep.
  pose proof (split_on_Forall P 44 group HP) as HPs.
  pose proof (split_on_infix 44 group) as Hinf.
  rewrite Forall_forall in Hsep, HPs, Hinf.
  split_and!.
  - intros He. rewrite He in Hne. discriminate.
  - apply trim_trimmed.
  - apply trim_Forall. exact (Hsep _ Hpiece).
  - apply trim_Forall. exact (HPs _ Hpiece).
  - destruct (Hinf _ Hpiece) as (a & b & ->).
    destruct (trim_infix piece) as (a' & b' & Hp).
    exists (a ++ a'), (b' ++ b). rewrite Hp at 1. rewrite <- !app_assoc. reflexivity.
Qed.

(** A directive as the pattern reads it. *)
Lemma denotes_TIKZLIBRARY pre w post g :
  denotes TIKZLIBRARY_REGEX pre w post None g ->
  exists names, g = Some names /\ names <> [] /\ Forall (fun c => c <> 125) names /\
                w = u16 "\usetikzlibrary{" ++ names ++ [125].
Proof.
  unfold TIKZLIBRARY_REGEX, seq. cbn [denotes].
  intros (w1 & w2 & c1 & -> & Hlit & w3 & w4 & c2 & -> & [[c3 Hplus] ->] & Hclose).
  apply denotes_lit in Hlit as [-> ->].
  apply denotes_plus in Hplus as [[Hne Hall] _].
  apply denotes_chr in Hclose as [-> ->].
  exists w3. split_and!; [reflexivity | exact Hne | | reflexivity].
  eapply Forall_impl; [exact Hall|]. cbv beta. unfold cls_not. intros c Hc ->. discriminate.
Qed.

Lemma exec_all_TIKZLIBRARY (fuel : nat) :
  forall pre s, (length s < fuel)%nat ->
    exists ms, exec_all TIKZLIBRARY_REGEX fuel pre s = Some ms /\
      Forall (fun m => exists names a b,
                m_group m = Some names /\ names <> [] /\
                Forall (fun c => c <> 125) names /\
                rev pre ++ s = a ++ u16 "\usetikzlibrary{" ++ names ++ [125] ++ b) ms.
Proof.
  induction fuel as [|fuel IH]; intros pre s Hlen; [lia|]. cbn [exec_all].
  destruct (search TIKZLIBRARY_REGEX pre s) as [m|] eqn:Hsearch; [|exists []; split; constructor].
  apply search_Some in Hsearch as (p & rest & -> & Hhere & _).
  apply match_here_sound in Hhere as (_ & -> & Hden & Hupto).
  apply denotes_TIKZLIBRARY in Hden as (names & Hg & Hne & Hall & Htext).
  assert (Hshort : (length (m_rest m) < fuel)%nat).
  { rewrite !length_app, Htext, !length_app in Hlen. cbn [length] in Hlen. lia. }
  destruct (IH (m_upto m) (m_rest m) Hshort) as (ms & -> & Hms).
  exists (m :: ms). split; [reflexivity|]. constructor.
  - exists names, (rev pre ++ p), (m_rest m). split_and!; try assumption.
    rewrite Htext, <- !app_assoc. reflexivity.
  - eapply Forall_impl; [exact Hms|]. cbv beta.
    intros m' (names' & a & b & Hg' & Hne' & Hall' & Hwhole).
    exists names', a, b. split_and!; try assumption.
    rewrite <- Hwhole, Hupto, !rev_app_distr, !rev_involutive, <- !app_assoc. reflexivity.
Qed.

(** X6.  [_detectTikzLibraries] returns, for every source: its names are
    not empty, trimmed, without comma and closing brace, and each of
    them occurs in the source; a source without the directive has no
    name.  When there is a name at all, the option text handed to the
    engine, the names joined by commas, splits into the same names
    again. *)
Theorem detectTikzLibraries_names (source : jsstring) :
  exists libs,
    _detectTikzLibraries source = Some libs /\
    Forall (fun name => name <> [] /\ trimmed name /\
                        Forall (fun c => c <> 44 /\ c <> 125) name /\
                        includes source name = true) libs /\
    (includes source (u16 "\usetikzlibrary{") = false -> libs = []) /\
    tikzLibraries source = Some (join_with 44 libs) /\
    (libs <> [] -> split_on 44 (join_with 44 libs) = libs).
Proof.
  unfold tikzLibraries, _detectTikzLibraries.
  destruct (exec_all_TIKZLIBRARY (S (length source)) [] source ltac:(lia)) as (ms & -> & Hms).
  cbn [fmap option_fmap option_map].
  set (libs := flat_map _ ms).
  assert (Hlibs : Forall (fun name => name <> [] /\ trimmed name /\
                            Forall (fun c => c <> 44 /\ c <> 125) name /\
                            includes source name = true) libs).
  { subst libs. apply Forall_flat_map. eapply Forall_impl; [exact Hms|]. cbv beta.
    intros m (names & a & b & -> & _ & Hall & Hwhole). cbn [default].
    eapply Forall_impl; [apply (library_names_spec _ _ Hall)|]. cbv beta.
    intros name (Hne & Htrim & Hcomma & Hbrace & a' & b' & Hnames).
    split_and!; [exact Hne | exact Htrim | |].
    - apply Forall_and. split; assumption.
    - change (rev [] ++ source) with source in Hwhole. rewrite Hwhole, Hnames.
      replace (a ++ u16 "\usetikzlibrary{" ++ (a' ++ name ++ b') ++ [125] ++ b)
        with ((a ++ u16 "\usetikzlibrary{" ++ a') ++ name ++ (b' ++ [125] ++ b))
        by (rewrite <- !app_assoc; reflexivity).
      apply includes_app. }
  exists libs. split_and!.
  - reflexivity.
  - exact Hlibs.
  - intros Hnone. destruct ms as [|m ms']; [reflexivity|]. exfalso.
    apply Forall_cons in Hms as [(names & a & b & _ & _ & _ & Hwhole) _].
    cbn [rev app] in Hwhole. rewrite Hwhole, includes_app in Hnone. discriminate.
  - reflexivity.
  - intros Hne. apply split_join_on; [exact Hne|].
    eapply Forall_impl; [exact Hlibs|]. cbv beta. intros name (_ & _ & Hall & _).
    eapply Forall_impl; [exact Hall|]. cbv beta. tauto.
Qed.

End PreviewDetectFacts.

(** ** The cache: removal, statistics, expiry *)
Module CacheOperationsFacts.
Import CacheEntry CacheManager CacheManagerFacts.
Local Open Scope string_scope.

(** The size [getStats] counts for a hash: the length of the stored SVG
    and 100 for the rest of the entry. *)
Lemma sum_sizes_exact (l : list string) :
  forall (n : nat) (st : Memento),
    NoDup l -> Forall usable l -> consistent st ->
    exists st',
      sum_sizes l n st =
        Ok (n + sum_list (map (fun h => from_option (fun d => length (svg d) + 100)%nat 0%nat
                                          (peek st h)) l))%nat st' /\
      consistent st' /\ index_of st' = index_of st /\
      (forall h, peek st' h = if bool_decide (h ∈ l) then touch <$> peek st h else peek st h).
Proof.
  induction l as [|h l IH]; intros n st Hnd Hl Hc.
  - exists st. cbn. rewrite Nat.add_0_r. split_and!; [reflexivity | exact Hc | reflexivity |].
    intros h. rewrite bool_decide_eq_false_2 by (intros H; inversion H). reflexivity.
  - apply NoDup_cons in Hnd as [Hnotin Hnd]. apply Forall_cons in Hl as [Hu Hl].
    destruct (get_consistent h st Hu Hc) as (st1 & Hg & Hc1 & Hi1 & Hp1 & Hf1).
    cbn [sum_sizes]. unfold bind at 1. rewrite Hg.
    assert (Hsame : map (fun h' => from_option (fun d => length (svg d) + 100)%nat 0%nat (peek st1 h')) l
                  = map (fun h' => from_option (fun d => length (svg d) + 100)%nat 0%nat (peek st h')) l).
    { apply map_ext_in. intros h' Hin. rewrite Hf1; [reflexivity|].
      intros ->. apply Hnotin. apply list_elem_of_In. exact Hin. }
    assert (Hpeek : forall st' : Memento,
              (forall x, peek st' x = if bool_decide (x ∈ l) then touch <$> peek st1 x
                                      else peek st1 x) ->
              forall x, peek st' x = if bool_decide (x ∈ h :: l) then touch <$> peek st x
                                     else peek st x).
    { intros st' H x. rewrite H. destruct (decide (x = h)) as [->|Hne].
      - rewrite (bool_decide_eq_false_2 (h ∈ l)) by exact Hnotin.
        rewrite (bool_decide_eq_true_2 (h ∈ h :: l)) by left. exact Hp1.
      - rewrite (Hf1 x Hne). destruct (decide (x ∈ l)) as [Hin|Hnin].
        + rewrite !bool_decide_eq_true_2; [reflexivity | right; exact Hin | exact Hin].
        + rewrite !bool_decide_eq_false_2; [reflexivity | | exact Hnin].
          intros Hx. apply elem_of_cons in Hx as [?|?]; contradiction. }
    cbn [map sum_list sum_list_with].
    destruct (peek st h) as [d|] eqn:Hp; cbn [fmap option_fmap option_map from_option].
    + destruct (IH (n + (length (svg (touch d)) + 100))%nat st1 Hnd Hl Hc1)
        as (st' & Hs & Hc' & Hi' & Hp').
      exists st'. rewrite Hs, Hsame. split_and!.
      * f_equal. cbn [touch svg]. unfold id. lia.
      * exact Hc'.
      * congruence.
      * apply Hpeek, Hp'.
    + destruct (IH n st1 Hnd Hl Hc1) as (st' & Hs & Hc' & Hi' & Hp').
      exists st'. rewrite Hs, Hsame. split_and!; [f_equal; unfold id; lia | exact Hc' | congruence |].
      apply Hpeek, Hp'.
Qed.

Lemma peek_outside_index (st : Memento) (h : string) :
  consistent st -> h ∉ index_of st -> peek st h = None.
Proof.
  intros [Hi Hnd Hus Hen Hk] Hnot. unfold peek.
  destruct (st !! getCacheKey h) as [[d|idx]|] eqn:E; [|reflexivity..]. exfalso.
  destruct (decide (getCacheKey h = CACHE_INDEX_KEY)) as [Heq|Hne].
  - unfold index_ok in Hi. rewrite <- Heq, E in Hi. exact Hi.
  - destruct (Hk _ _ E Hne) as (h' & d' & Hkey & _ & Hin).
    apply getCacheKey_inj in Hkey. subst h'. contradiction.
Qed.

(** X7.  [getStats] on a consistent store returns the number of entries
    and the sum, over the entries, of the length of the SVG text plus
    100; and since it reads each entry with [get], it raises the access
    count of every entry by one, leaving the index as it is. *)
Theorem getStats_sizes_and_touches (st : Memento) :
  consistent st ->
  exists st',
    getStats st =
      Ok {| entryCount := length (index_of st);
            totalSize := sum_list (map (fun h => from_option (fun d => length (svg d) + 100)%nat
                                                   0%nat (peek st h))
                                       (index_of st)) |} st' /\
    consistent st' /\
    index_of st' = index_of st /\
    (forall h, peek st' h = touch <$> peek st h).
Proof.
  intros Hc. pose proof Hc as [Hi Hnd Hus Hen Hk].
  unfold getStats, bind. rewrite (getIndex_ok st Hi).
  destruct (sum_sizes_exact (index_of st) 0 st Hnd) as (st' & Hs & Hc' & Hi' & Hp');
    [apply Forall_forall; exact Hus | exact Hc|].
  rewrite Hs. exists st'. split_and!; [reflexivity | exact Hc' | exact Hi' |].
  intros h. rewrite Hp'. destruct (decide (h ∈ index_of st)) as [Hin|Hnin].
  - rewrite bool_decide_eq_true_2 by exact Hin. reflexivity.
  - rewrite bool_decide_eq_false_2 by exact Hnin.
    rewrite (peek_outside_index st h Hc Hnin). reflexivity.
Qed.

(** X8.  [clear] on a consistent store removes every key of the cache,
    the index with them: the store is empty afterwards, every retrieval
    misses and the statistics are zero. *)
Theorem clear_empties (st : Memento) :
  consistent st ->
  clear st = Ok tt ∅ /\
  (forall h, get h ∅ = Ok None ∅) /\
  getStats ∅ = Ok {| entryCount := 0; totalSize := 0 |} ∅.
Proof.
  intros [Hi Hnd Hus Hen Hk]. split_and!; [|reflexivity..].
  rewrite (clear_run st Hi). f_equal. apply map_eq. intros k.
  rewrite lookup_empty.
  destruct (decide (k = CACHE_INDEX_KEY)) as [->|Hne]; [apply lookup_delete_eq|].
  rewrite lookup_delete_ne by congruence. rewrite lookup_delete_all.
  destruct (st !! k) as [v|] eqn:E; [|destruct (bool_decide _); reflexivity].
  destruct (Hk _ _ E Hne) as (h & d & -> & _ & Hin).
  rewrite bool_decide_eq_true_2; [reflexivity|].
  apply list_elem_of_fmap. exists h. split; [reflexivity | exact Hin].
Qed.

(** X9.  After [invalidate(h)] the hash is gone from the index and a
    retrieval of it misses, leaving the store as it is; the other hashes
    keep their entries and their place in the index; and invalidating
    once more changes nothing. *)
Theorem invalidate_removes (h : string) (st : Memento) :
  usable h -> consistent st ->
  exists st1,
    invalidate h st = Ok tt st1 /\
    get h st1 = Ok None st1 /\
    index_of st1 = filter (fun h' => h' <> h) (index_of st) /\
    (forall h', h' <> h -> peek st1 h' = peek st h') /\
    invalidate h st1 = Ok tt st1.
Proof.
  intros Hu Hc. pose proof Hc as [Hi Hnd Hus Hen Hk].
  rewrite (invalidate_run h st Hu Hi).
  set (st1 := <[CACHE_INDEX_KEY := _]> (delete (getCacheKey h) st)).
  assert (Hidx : index_of st1 = filter (fun h' => h' <> h) (index_of st))
    by apply index_of_insert_index.
  assert (Hmiss : st1 !! getCacheKey h = None).
  { unfold st1. rewrite lookup_insert_ne by (intros E; symmetry in E; revert E; apply usable_key, Hu).
    apply lookup_delete_eq. }
  assert (Hi1 : index_ok st1).
  { unfold index_ok, st1. rewrite lookup_insert_eq. exact I. }
  exists st1. split_and!.
  - reflexivity.
  - apply get_miss. exact Hmiss.
  - exact Hidx.
  - intros h' Hne. unfold peek, st1.
    destruct (decide (getCacheKey h' = CACHE_INDEX_KEY)) as [Heq|Hnk].
    + rewrite Heq, lookup_insert_eq. unfold index_ok in Hi.
      destruct (st !! CACHE_INDEX_KEY) as [[d|idx]|]; [contradiction | reflexivity..].
    + rewrite lookup_insert_ne by congruence.
      rewrite lookup_delete_ne; [reflexivity|].
      intros E. apply getCacheKey_inj in E. congruence.
  - rewrite (invalidate_run h st1 Hu Hi1). f_equal. rewrite Hidx.
    rewrite list_filter_filter.
    assert (Hf : filter (fun x => x <> h /\ x <> h) (index_of st)
               = filter (fun h' => h' <> h) (index_of st)).
    { apply list_filter_iff. intros x. tauto. }
    rewrite Hf. unfold st1 at 1.
    rewrite delete_insert_ne by (apply usable_key, Hu).
    rewrite delete_delete_eq. rewrite insert_insert_eq. reflexivity.
Qed.

(** X10.  [isExpired] compares the age with [maxAge] strictly: an entry
    exactly [maxAge] old has not expired, one millisecond later it has;
    an expired entry stays expired as the clock goes on; an entry made
    now has not expired for any [maxAge] that is not negative; and
    [touch] does not change the answer. *)
Theorem isExpired_boundary (e : CacheEntry) (maxAge : Z) :
  isExpired (timestamp e + maxAge) e maxAge = false /\
  isExpired (timestamp e + maxAge + 1) e maxAge = true /\
  (forall now now', (now <= now')%Z -> isExpired now e maxAge = true ->
                    isExpired now' e maxAge = true) /\
  (forall now h svg, (0 <= maxAge)%Z -> isExpired now (new now h svg) maxAge = false) /\
  (forall now, isExpired now (touch e) maxAge = isExpired now e maxAge).
Proof.
  unfold isExpired. split_and!.
  - rewrite Z.gtb_ltb. apply Z.ltb_ge. lia.
  - rewrite Z.gtb_ltb. apply Z.ltb_lt. lia.
  - intros now now' Hle. rewrite !Z.gtb_ltb, !Z.ltb_lt. lia.
  - intros now h svg Hm. cbn [new new_full timestamp]. rewrite Z.gtb_ltb. apply Z.ltb_ge. lia.
  - reflexivity.
Qed.

End CacheOperationsFacts.

(** ** The parser: the source and the range of a block *)
Module ParserRangeFacts.
Import Regex DocumentParser JSStringFacts RegexFacts CompatFacts DocumentParserFacts.

Lemma ticks : u16 "```" = [96; 96; 96].
Proof. reflexivity. Qed.

(** Every match of the extraction sits in the text at its index, and is
    a fenced block there. *)
Lemma extraction_placed pre s ms :
  extraction pre s ms ->
  Forall (fun m => exists P body,
            rev pre ++ s = P ++ m_text m ++ m_rest m /\ length P = m_index m /\
            m_group m = Some body /\ fenced_block (rev P) (m_text m) body (m_rest m)) ms.
Proof.
  induction 1 as [pre s _|pre s p m ms body Hs Hidx Hg Hf _ _ IH]; [constructor|].
  constructor.
  - exists (rev pre ++ p), body. split_and!.
    + rewrite Hs, <- app_assoc. reflexivity.
    + rewrite length_app, length_rev. lia.
    + exact Hg.
    + rewrite rev_app_distr, rev_involutive. exact Hf.
  - eapply Forall_impl; [exact IH|]. cbv beta.
    intros m' (P & body' & Hwhole & Hrest). exists P, body'. split; [|exact Hrest].
    rewrite <- Hwhole, Hs, !rev_app_distr, !rev_involutive, <- !app_assoc. reflexivity.
Qed.

(** The body of a fenced block is never empty: it starts with the line
    terminator that ends the opening line and ends with the one before
    the closing fence. *)
Lemma fenced_block_body pre w body rest :
  fenced_block pre w body rest ->
  exists c d, first_char body = Some c /\ is_line_terminator c = true /\
              last_char body = Some d /\ is_line_terminator d = true.
Proof.
  intros (tag & ws & fence & _ & _ & _ & _ & Hend & (ws' & -> & Hstart & _ & _) & _).
  unfold line_end, line_start in *. rewrite ticks in *.
  destruct body as [|c body]; [discriminate Hend|].
  cbn [app at_eol andb] in Hend. exists c.
  destruct (last (c :: body)) as [d|] eqn:Hlast.
  - exists d. split_and!; [reflexivity | exact Hend | exact Hlast |].
    apply last_Some in Hlast as [b0 Hb0]. rewrite Hb0 in Hstart.
    rewrite !app_assoc, rev_app_distr in Hstart. cbn [rev app at_bol andb] in Hstart.
    exact Hstart.
  - apply last_None in Hlast. discriminate.
Qed.

Lemma indexOf_first (a r : jsstring) :
  Forall (fun c => c <> LF) a -> indexOf (a ++ LF :: r) [LF] = Z.of_nat (length a).
Proof.
  induction 1 as [|c a Hc Ha IH]; [reflexivity|].
  cbn [app indexOf starts_with length]. rewrite IH.
  destruct (N.eqb_spec LF c) as [E|_]; [congruence|]. cbn [andb].
  destruct (Z.ltb_spec (Z.of_nat (length a)) 0); lia.
Qed.

Lemma lastIndexOf_space (ws : jsstring) :
  Forall (fun c => is_space c = true) ws -> lastIndexOf ws (LF :: [96; 96; 96]) = (-1)%Z.
Proof.
  induction 1 as [|c ws Hc Hws IH]; [reflexivity|].
  cbn [lastIndexOf]. rewrite IH. cbn [Z.leb Z.compare starts_with].
  destruct (LF =? c); [|reflexivity]. cbn [andb].
  destruct Hws as [|d ws Hd _]; [reflexivity|].
  destruct (N.eqb_spec 96 d) as [<-|_]; [discriminate Hd | reflexivity].
Qed.

Lemma lastIndexOf_fence (ws : jsstring) :
  Forall (fun c => is_space c = true) ws ->
  lastIndexOf (LF :: [96; 96; 96] ++ ws) (LF :: [96; 96; 96]) = 0%Z.
Proof.
  intros Hws. cbn [app lastIndexOf]. rewrite (lastIndexOf_space ws Hws). reflexivity.
Qed.

Lemma lastIndexOf_app (a s t : jsstring) :
  (0 <= lastIndexOf s t)%Z -> lastIndexOf (a ++ s) t = (Z.of_nat (length a) + lastIndexOf s t)%Z.
Proof.
  intros Hs. induction a as [|c a IH]; [cbn; lia|].
  cbn [app lastIndexOf length]. rewrite IH.
  destruct (Z.leb_spec 0 (Z.of_nat (length a) + lastIndexOf s t)); lia.
Qed.

(** The part of a text before its first line feed. *)
Lemma first_LF (l : jsstring) :
  exists a b, l = a ++ b /\ Forall (fun c => c <> LF) a /\ (b = [] \/ exists b', b = LF :: b').
Proof.
  induction l as [|c l (a & b & -> & Ha & Hb)].
  - exists [], []. split_and!; [reflexivity | constructor | left; reflexivity].
  - destruct (N.eqb_spec c LF) as [->|Hc].
    + exists [], (LF :: a ++ b). split_and!; [reflexivity | constructor | right; eexists; reflexivity].
    + exists (c :: a), b. split_and!; [reflexivity | constructor; assumption | exact Hb].
Qed.

Lemma tikz_tag_no_LF (tag : jsstring) :
  is_tikz_tag tag -> Forall (fun c => c <> LF) tag /\ length tag = 4%nat.
Proof.
  intros (t & i & k & z & -> & Ht & Hi & Hk & Hz). split; [|reflexivity].
  repeat constructor; intros ->; destruct Ht, Hi, Hk, Hz; discriminate.
Qed.

(** A greedy star that fails has tried its continuation after every
    repetition. *)
Lemma star_greedy_None {R : Type} (p : N -> bool) (k : ctx -> jsstring -> option R) :
  forall s x, mt (Star true p) k x s = None ->
    forall w s', s = w ++ s' -> Forall (fun c => p c = true) w -> k (adv w x) s' = None.
Proof.
  induction s as [|c s IH]; intros x H w s' Hs Hw.
  - destruct w; [|discriminate]. cbn in Hs. subst s'. rewrite adv_nil. exact H.
  - cbn in H. destruct w as [|c' w].
    + cbn in Hs. subst s'. rewrite adv_nil. destruct (p c); [|exact H].
      match type of H with match ?t with _ => _ end = _ => destruct t end;
        [discriminate | exact H].
    + injection Hs as <- ->. apply Forall_cons in Hw as [Hc Hw]. rewrite Hc in H.
      match type of H with match ?t with _ => _ end = _ => destruct t eqn:E end;
        [discriminate|].
      rewrite adv_cons. exact (IH _ E w s' eq_refl Hw).
Qed.

(** A greedy star settles on the longest repetition after which its
    continuation succeeds. *)
Lemma star_greedy_longest {R : Type} (p : N -> bool) (k : ctx -> jsstring -> option R) :
  forall s x res,
    mt (Star true p) k x s = Some res ->
    exists w s', s = w ++ s' /\ Forall (fun c => p c = true) w /\
                 k (adv w x) s' = Some res /\
                 (forall w2 s2, s' = w2 ++ s2 -> w2 <> [] ->
                    Forall (fun c => p c = true) w2 -> k (adv (w ++ w2) x) s2 = None).
Proof.
  induction s as [|c s IH]; intros x res H.
  - exists [], []. rewrite adv_nil. split_and!; [reflexivity | constructor | exact H |].
    intros w2 s2 Hs Hne. destruct w2; [contradiction | discriminate].
  - cbn in H. destruct (p c) eqn:Hp.
    + match type of H with match ?t with _ => _ end = _ => destruct t as [res'|] eqn:E end.
      * injection H as <-. apply IH in E as (w & s' & -> & Hw & Hk & Hlong).
        exists (c :: w), s'. rewrite adv_cons.
        split_and!; [reflexivity | constructor; assumption | exact Hk |].
        intros w2 s2 Hs Hne Hw2. cbn [app]. rewrite adv_cons. exact (Hlong w2 s2 Hs Hne Hw2).
      * exists [], (c :: s). rewrite adv_nil.
        split_and!; [reflexivity | constructor | exact H |].
        intros w2 s2 Hs Hne Hw2. destruct w2 as [|c' w2]; [contradiction|].
        injection Hs as <- ->. apply Forall_cons in Hw2 as [_ Hw2].
        cbn [app]. rewrite adv_cons. exact (star_greedy_None p k _ _ E w2 s2 eq_refl Hw2).
    + exists [], (c :: s). rewrite adv_nil.
      split_and!; [reflexivity | constructor | exact H |].
      intros w2 s2 Hs Hne Hw2. destruct w2 as [|c' w2]; [contradiction|].
      injection Hs as <- ->. apply Forall_cons in Hw2 as [Hc _]. congruence.
Qed.

(** The white space after the tag is read greedily: the captured body
    starts at the last place of the white-space run that is the end of a
    line, so in the body no white space leads up to a further line
    terminator. *)
Lemma match_here_TIKZ_greedy pre s m :
  match_here TIKZ_BLOCK_REGEX pre s = Some m ->
  forall ws e tail,
    m_group m = Some (ws ++ e :: tail) -> ws <> [] ->
    Forall (fun c => is_space c = true) ws -> is_line_terminator e = false.
Proof.
  intros Hm ws e tail Hgroup Hne Hws.
  destruct (is_line_terminator e) eqn:He; [exfalso|reflexivity].
  unfold match_here in Hm.
  set (x0 := {| before := pre; cap := None |}) in *.
  set (kf := fun (x : ctx) (s' : jsstring) => Some _) in Hm.
  change (mt TIKZ_BLOCK_REGEX kf x0 s)
    with (mt (Bol true) (mt (lit_i (u16 "```tikz")) (mt (Star true cls_space)
            (mt (Seq (Eol true) (Seq (Group (Star false cls_any)) CLOSING_FENCE)) kf))) x0 s)
    in Hm.
  apply mt_sound in Hm as (w0 & s0 & x1 & -> & _ & _ & Hm).
  apply mt_sound in Hm as (w1 & s1 & x2 & -> & _ & _ & Hm).
  apply star_greedy_longest in Hm as (sp & s2 & -> & Hsp & Hm & Hlong).
  (* the match as it was found *)
  change (mt (Seq (Eol true) (Seq (Group (Star false cls_any)) CLOSING_FENCE)) kf (adv sp x2) s2)
    with (if at_eol true s2
          then mt (Star false cls_any)
                 (fun x' s' => mt CLOSING_FENCE kf (close_group (adv sp x2) x') s')
                 (adv sp x2) s2
          else None) in Hm.
  destruct (at_eol true s2); [|discriminate].
  apply star_lazy_first in Hm as (body & s4 & -> & _ & Hm & _).
  apply mt_sound in Hm as (fence & s5 & x5 & -> & Hclose & _ & Hm).
  apply denotes_CLOSING_FENCE in Hclose as [Hclose Hc5].
  unfold kf in Hm. injection Hm as <-. cbn [m_group] in Hgroup.
  rewrite Hc5 in Hgroup. cbn [close_group cap] in Hgroup.
  assert (Hcons : consumed (adv sp x2) (adv body (adv sp x2)) = body).
  { destruct x2 as [b2 c2]. unfold adv. cbn [before cap]. apply consumed_app. }
  rewrite Hcons in Hgroup. injection Hgroup as ->.
  (* the longer white space would have done as well *)
  specialize (Hlong ws ((e :: tail) ++ fence ++ s5)).
  rewrite <- !app_assoc in Hlong. specialize (Hlong eq_refl Hne Hws).
  assert (Hsome : is_Some (mt (Seq (Eol true) (Seq (Group (Star false cls_any)) CLOSING_FENCE))
                             kf (adv (sp ++ ws) x2) (((e :: tail) ++ fence) ++ s5))).
  { apply (mt_complete _ _ _ _ _ _ None (Some (e :: tail))).
    - apply (denotes_Seq_app _ _ _ [] _ s5 None None).
      { split; [split; [reflexivity|] | reflexivity]. cbn [app at_eol]. rewrite He. reflexivity. }
      apply (denotes_Seq_app _ _ _ (e :: tail) _ s5 None (Some (e :: tail))).
      { split; [|reflexivity]. exists None. split; [|reflexivity].
        apply Forall_forall. intros; reflexivity. }
      apply denotes_CLOSING_FENCE. split; [|reflexivity].
      destruct Hclose as (ws' & -> & Hbol & Hws' & Heol). exists ws'.
      split_and!; [reflexivity | | exact Hws' | exact Heol].
      unfold line_start in *. etransitivity; [|exact Hbol]. f_equal.
      unfold adv. cbn [close_group before rev app].
      rewrite !rev_app_distr. cbn [rev app]. rewrite <- !app_assoc. reflexivity.
    - intros x' _. eexists; reflexivity. }
  rewrite <- !app_assoc in Hsome. cbn [app] in Hsome, Hlong.
  rewrite Hlong in Hsome. destruct Hsome; discriminate.
Qed.

Lemma exec_loop_attempts (fuel : nat) :
  forall pre s ms, exec_loop fuel pre s = Some ms ->
    Forall (fun m => exists pre' s', match_here TIKZ_BLOCK_REGEX pre' s' = Some m) ms.
Proof.
  induction fuel as [|fuel IH]; intros pre s ms H; [discriminate|].
  cbn [exec_loop] in H.
  destruct (search TIKZ_BLOCK_REGEX pre s) as [m|] eqn:Hs.
  - destruct (exec_loop fuel (m_upto m) (m_rest m)) as [ms'|] eqn:Hl; [|discriminate].
    injection H as <-. constructor; [|exact (IH _ _ _ Hl)].
    apply search_Some in Hs as (p & rest & _ & Hm & _). eauto.
  - injection H as <-. constructor.
Qed.

Section Blocks.
Variable generateHash : jsstring -> string.

(** X11.  The source of every extracted block starts with a line
    terminator and ends with one (the end of the last line before the
    closing fence), so it is never empty.  The white space after the tag
    is read greedily, blank lines included: the source starts at the
    last line terminator of the white space that follows the tag, which
    is the end of the opening line only when no blank line follows, and
    so, within the source, white space never leads up to a further line
    terminator.  The hash is taken of the trimmed source. *)
Theorem parse_source_lines (text : jsstring) :
  Forall (fun b => exists c rest d,
            source b = c :: rest /\ is_line_terminator c = true /\
            last_char (source b) = Some d /\ is_line_terminator d = true /\
            (exists P tag ws post,
               text = P ++ u16 "```" ++ tag ++ ws ++ source b ++ post /\
               line_start (rev P) /\ is_tikz_tag tag /\
               Forall (fun a => is_space a = true) ws) /\
            (forall ws e tail,
               source b = ws ++ e :: tail -> ws <> [] ->
               Forall (fun a => is_space a = true) ws -> is_line_terminator e = false) /\
            hash b = generateHash (trim (source b)))
         (default [] (parse generateHash text)).
Proof.
  unfold parse, parse_matches.
  destruct (exec_loop_spec (S (length text)) [] text ltac:(lia)) as (ms & Hloop & Hext & _).
  rewrite Hloop. cbn [fmap option_fmap option_map default]. apply Forall_fmap.
  pose proof (conj (extraction_placed _ _ _ Hext) (exec_loop_attempts _ _ _ _ Hloop)) as Hboth.
  apply Forall_and in Hboth.
  eapply Forall_impl; [exact Hboth|]. cbv beta.
  intros m [(P & body & Hwhole & _ & Hg & Hf) (pre' & s' & Hm)].
  change (rev [] ++ text) with text in Hwhole.
  destruct (fenced_block_body _ _ _ _ Hf) as (c & d & H1 & H2 & H3 & H4).
  unfold compose, block_of_match, new_TikzBlock. cbn [source hash].
  rewrite Hg. cbn [default].
  destruct body as [|c' rest]; [discriminate H1|]. injection H1 as ->.
  exists c, rest, d. split_and!; trivial.
  - destruct Hf as (tag & ws & fence & Hw & Hstart & Htag & Hws & _).
    exists P, tag, ws, (fence ++ m_rest m). split_and!; [|exact Hstart | exact Htag | exact Hws].
    rewrite Hwhole, Hw, <- !app_assoc. reflexivity.
  - intros ws e tail Hsplit Hne Hws.
    apply (match_here_TIKZ_greedy pre' s' m Hm ws e tail); [|exact Hne | exact Hws].
    rewrite Hg. f_equal. exact Hsplit.
Qed.

(** X12.  In a text whose only line terminator is the line feed, the
    range of every extracted block starts right after the line feed that
    ends the opening fence line and ends at the line feed before the
    closing fence; the start is at most one past the end, which happens
    for a block without a line between the fences. *)
Theorem parse_ranges (text : jsstring) :
  Forall (fun c => is_line_terminator c = true -> c = LF) text ->
  Forall (fun b =>
            (0 < fst (range b) <= snd (range b) + 1)%Z /\
            (exists P tag ws,
               take (Z.to_nat (fst (range b))) text = P ++ u16 "```" ++ tag ++ ws ++ [LF] /\
               line_start (rev P) /\ is_tikz_tag tag /\
               Forall (fun c => is_space c = true /\ c <> LF) ws) /\
            (exists ws rest,
               drop (Z.to_nat (snd (range b))) text = LF :: u16 "```" ++ ws ++ rest /\
               Forall (fun c => is_space c = true) ws /\ line_end rest))
         (default [] (parse generateHash text)).
Proof.
  intros HLF. unfold parse, parse_matches.
  destruct (exec_loop_spec (S (length text)) [] text ltac:(lia)) as (ms & -> & Hext & _).
  cbn [fmap option_fmap option_map default]. apply Forall_fmap.
  eapply Forall_impl; [exact (extraction_placed _ _ _ Hext)|]. cbv beta.
  intros m (P & body & Hwhole & HP & Hg & Hf).
  change (rev [] ++ text) with text in Hwhole.
  destruct (fenced_block_body _ _ _ _ Hf) as (c & d & Hc & Hcl & Hd & Hdl).
  destruct Hf as (tag & ws & fence & Hw & Hstart & Htag & Hws & _ &
                  (ws' & -> & _ & Hws' & Hend) & _).
  (* every character of the match is a character of the text *)
  assert (Hin : forall x, x ∈ m_text m -> is_line_terminator x = true -> x = LF).
  { intros x Hx. rewrite Forall_forall in HLF. apply HLF. rewrite Hwhole.
    apply elem_of_app. right. apply elem_of_app. left. exact Hx. }
  (* the body ends with a line feed *)
  apply last_Some in Hd as [b0 Hb0].
  assert (d = LF) as ->.
  { apply Hin; [|exact Hdl]. rewrite Hw, Hb0. set_solver. }
  assert (c = LF) as ->.
  { apply Hin; [|exact Hcl]. rewrite Hw. destruct body; [discriminate|].
    cbn in Hc. injection Hc as ->. set_solver. }
  destruct (tikz_tag_no_LF tag Htag) as [Htag_LF Htag_len].
  (* the opening line: up to the first line feed of the match *)
  destruct (first_LF ws) as (a & b & Hab & Ha & Hb).
  assert (Hopen : exists tail, m_text m = (u16 "```" ++ tag ++ a) ++ LF :: tail /\
                               (length a <= length ws)%nat).
  { destruct Hb as [->|[b' ->]].
    - rewrite app_nil_r in Hab. subst a. destruct body as [|c body]; [discriminate|].
      cbn in Hc. injection Hc as ->. exists (body ++ u16 "```" ++ ws').
      split; [|lia]. rewrite Hw, <- !app_assoc. reflexivity.
    - exists (b' ++ body ++ u16 "```" ++ ws'). split.
      + rewrite Hw, Hab, <- !app_assoc. reflexivity.
      + rewrite Hab, length_app. lia. }
  destruct Hopen as (tail & Hopen & Hlen_a).
  assert (Hidx : indexOf (m_text m) [LF] = Z.of_nat (length (u16 "```" ++ tag ++ a))).
  { rewrite Hopen. apply indexOf_first. rewrite ticks.
    repeat (apply Forall_app; split); try assumption.
    repeat constructor; discriminate. }
  (* the closing fence: the last line feed followed by three backticks *)
  assert (Hclose : m_text m = (u16 "```" ++ tag ++ ws ++ b0) ++ LF :: [96; 96; 96] ++ ws').
  { rewrite Hw, Hb0, ticks, <- !app_assoc. reflexivity. }
  assert (Hlast : lastIndexOf (m_text m) (LF :: u16 "```")
                  = Z.of_nat (length (u16 "```" ++ tag ++ ws ++ b0))).
  { rewrite Hclose at 1. rewrite ticks at 2.
    rewrite lastIndexOf_app; rewrite (lastIndexOf_fence ws' Hws'); lia. }
  unfold compose, block_of_match, new_TikzBlock. cbn [range fst snd].
  rewrite Hidx, Hlast, <- HP.
  split_and!.
  - lia.
  - rewrite ticks, !length_app. cbn [length]. lia.
  - exists P, tag, a. split_and!.
    + rewrite Hwhole, Hopen.
      replace (P ++ ((u16 "```" ++ tag ++ a) ++ LF :: tail) ++ m_rest m)
        with ((P ++ u16 "```" ++ tag ++ a ++ [LF]) ++ tail ++ m_rest m)
        by (rewrite <- !app_assoc; reflexivity).
      apply take_app_length'. rewrite !length_app. cbn [length]. lia.
    + exact Hstart.
    + exact Htag.
    + apply Forall_and. split; [|exact Ha].
      rewrite Hab in Hws. apply Forall_app in Hws as [Hws _]. exact Hws.
  - exists ws', (m_rest m). split_and!; [|exact Hws' | exact Hend].
    rewrite Hwhole, Hclose.
    replace (P ++ ((u16 "```" ++ tag ++ ws ++ b0) ++ LF :: [96; 96; 96] ++ ws') ++ m_rest m)
      with ((P ++ u16 "```" ++ tag ++ ws ++ b0) ++ LF :: u16 "```" ++ ws' ++ m_rest m)
      by (rewrite ticks, <- !app_assoc; reflexivity).
    apply drop_app_length'. rewrite !length_app. lia.
Qed.

End Blocks.

(** Blank lines after the opening fence: the range starts after the
    opening line, the source two line feeds later. *)
Example parse_blank_lines_skipped :
  let text := u16 "```tikz" ++ [LF; LF; LF] ++ u16 "A" ++ [LF] ++ u16 "```" ++ [LF] in
  map (fun b => (source b, range b)) (default [] (parse Demo.demo_hash text))
  = [([LF] ++ u16 "A" ++ [LF], (8, 11)%Z)].
Proof. vm_compute. reflexivity. Qed.

End ParserRangeFacts.

(** ** PreviewManager: what a render leaves in the caches *)
Module PreviewPassFacts.
Import CacheEntry CacheManager CacheManagerFacts CacheOperationsFacts DocumentParser PreviewText
       PreviewManager PreviewOutcome PreviewManagerFacts.

Section Host.
Variable generateHash : jsstring -> string.
Variable postProcessSvg : jsstring -> bool -> option jsstring.
Variable tex2svg : list jsstring -> jsstring -> engine_reply.
Variable darkMode : bool.
Variable Date_now : nat -> Z.
Variable renderTimeout : N.

Let settle' := settle postProcessSvg darkMode Date_now.
Let renderSingleBlock := _renderSingleBlock postProcessSvg tex2svg darkMode Date_now renderTimeout.
Let render_block' := render_block postProcessSvg tex2svg darkMode Date_now renderTimeout.
Let renderDocument' :=
  renderDocument generateHash postProcessSvg tex2svg darkMode Date_now renderTimeout.
Let retryBlock' := retryBlock postProcessSvg tex2svg darkMode Date_now renderTimeout.
Let memory_result' := memory_result postProcessSvg darkMode.
Let restored' := restored postProcessSvg darkMode.

Lemma settle_exact (s : state) (h : string) (r : jsstring + thrown) :
  usable h -> consistent (globalState s) ->
  exists s',
    settle' h r s = Ok tt s' /\
    svgCache s' = <[h := memory_result' r]> (svgCache s) /\
    consistent (globalState s') /\
    peek (globalState s') h =
      match r with
      | inl _ => persisted (Date_now (length (engineCalls s))) h r
      | inr _ => peek (globalState s) h
      end /\
    others_kept h s s' /\ same_pass s s' /\
    engineCalls s' = engineCalls s /\ nudges s' = nudges s.
Proof.
  intros Hu Hc. unfold settle', settle. destruct r as [svg|err].
  - unfold bind, modify, on_cache. cbn [globalState with_svgCache engineCalls].
    destruct (set_consistent h (new (Date_now (length (engineCalls s))) h svg) (globalState s) Hu Hc)
      as (g' & Hset & Hc' & Hp & Hf).
    rewrite Hset. eexists. split; [reflexivity|].
    split_and!; try reflexivity; try assumption; [|split; reflexivity].
    intros h' Hne. cbn. split; [apply lookup_insert_ne; congruence | apply Hf, Hne].
  - unfold modify. eexists. split; [reflexivity|].
    split_and!; try reflexivity; try assumption; [|split; reflexivity].
    intros h' Hne. cbn. split; [apply lookup_insert_ne; congruence | reflexivity].
Qed.

Let settled_reply := PreviewOutcome.settled_reply tex2svg renderTimeout.

Lemma renderSingleBlock_exact (s : state) (h : string) (source : jsstring) :
  usable h -> consistent (globalState s) ->
  exists s',
    renderSingleBlock h source s = Ok tt s' /\
    svgCache s' = <[h := memory_result' (settled_reply s source)]> (svgCache s) /\
    consistent (globalState s') /\
    peek (globalState s') h =
      match settled_reply s source with
      | inl _ => persisted (Date_now (S (length (engineCalls s)))) h (settled_reply s source)
      | inr _ => peek (globalState s) h
      end /\
    others_kept h s s' /\ same_pass s s' /\
    engineCalls s' = engineCalls s ++ [(h, engine_source source)] /\
    nudges s' = nudges s.
Proof.
  intros Hu Hc. unfold renderSingleBlock, _renderSingleBlock, bind at 1, _renderTikzToSvg.
  set (s1 := with_engine_call _ _ _).
  change (race renderTimeout (tex2svg (map snd (engineCalls s)) (engine_source source)))
    with (settled_reply s source).
  destruct (settle_exact s1 h (settled_reply s source) Hu Hc)
    as (s' & Hs & Hm & Hc' & Hp & Ho & Hsame & He & Hn).
  fold settle'. rewrite Hs. exists s'. split; [reflexivity|].
  split_and!; try assumption.
  - rewrite Hp. unfold s1. cbn [engineCalls with_engine_call]. rewrite length_app.
    cbn [length]. rewrite Nat.add_1_r. reflexivity.
Qed.

Lemma peek_usable (st : Memento) (h : string) :
  consistent st -> is_Some (peek st h) -> usable h.
Proof.
  intros Hc [d Hd] ->. rewrite (peek_index st (cons_index st Hc)) in Hd. discriminate.
Qed.

Lemma render_block_restore (b : TikzBlock) (s : state) (d : CacheEntry) :
  consistent (globalState s) -> memory_miss s (hash b) ->
  peek (globalState s) (hash b) = Some d ->
  exists s',
    render_block' b s = Ok tt s' /\
    svgCache s' = <[hash b := restored' d]> (svgCache s) /\
    consistent (globalState s') /\
    peek (globalState s') (hash b) = Some (touch d) /\
    others_kept (hash b) s s' /\ same_pass s s' /\
    engineCalls s' = engineCalls s /\ nudges s' = S (nudges s).
Proof.
  intros Hc Hmiss Hpeek.
  assert (Hu : usable (hash b)) by (eapply peek_usable; [exact Hc | eexists; exact Hpeek]).
  unfold render_block', render_block. unfold memory_miss in Hmiss. rewrite Hmiss.
  rewrite bool_decide_eq_false_2 by (intros [x Hx]; discriminate).
  destruct (get_consistent (hash b) (globalState s) Hu Hc) as (g1 & Hget & Hc1 & _ & Hp1 & Hf1).
  unfold bind at 1. unfold on_cache at 1. rewrite Hget, Hpeek.
  cbn [fmap option_fmap option_map]. unfold bind, modify, _nudgeDocument.
  eexists. split; [reflexivity|].
  split_and!; try reflexivity; try assumption.
  - cbn. rewrite Hp1, Hpeek. reflexivity.
  - intros h' Hne. cbn. split; [apply lookup_insert_ne; congruence | apply Hf1, Hne].
  - split; reflexivity.
Qed.

Lemma render_block_render (b : TikzBlock) (s : state) :
  usable (hash b) -> consistent (globalState s) -> memory_miss s (hash b) ->
  peek (globalState s) (hash b) = None ->
  exists s',
    render_block' b s = Ok tt s' /\
    svgCache s' = <[hash b := memory_result' (settled_reply s (source b))]> (svgCache s) /\
    consistent (globalState s') /\
    peek (globalState s') (hash b) =
      persisted (Date_now (S (length (engineCalls s)))) (hash b) (settled_reply s (source b)) /\
    others_kept (hash b) s s' /\ same_pass s s' /\
    engineCalls s' = engineCalls s ++ [(hash b, engine_source (source b))] /\
    nudges s' = S (nudges s).
Proof.
  intros Hu Hc Hmiss Hpeek.
  unfold render_block', render_block. unfold memory_miss in Hmiss. rewrite Hmiss.
  rewrite bool_decide_eq_false_2 by (intros [x Hx]; discriminate).
  destruct (get_consistent (hash b) (globalState s) Hu Hc) as (g1 & Hget & Hc1 & _ & Hp1 & Hf1).
  unfold bind at 1. unfold on_cache at 1. rewrite Hget, Hpeek.
  cbn [fmap option_fmap option_map]. unfold bind at 1.
  set (s1 := with_globalState g1 s).
  destruct (renderSingleBlock_exact s1 (hash b) (source b) Hu Hc1)
    as (s2 & Hr & Hm & Hc2 & Hp2 & Ho & Hsame & He & Hn).
  fold renderSingleBlock. rewrite Hr. unfold _nudgeDocument, modify.
  eexists. split; [reflexivity|].
  split_and!; try assumption.
  - cbn. rewrite Hp2. change (settled_reply s1 (source b)) with (settled_reply s (source b)).
    destruct (settled_reply s (source b)); [reflexivity|].
    cbn. rewrite Hp1, Hpeek. reflexivity.
  - intros h' Hne. destruct (Ho h' Hne) as [H1 H2]. cbn. split; [exact H1|].
    rewrite H2. cbn. apply Hf1, Hne.
  - cbn. f_equal. exact Hn.
Qed.

(** What every block leaves behind, whichever way it is resolved. *)
Lemma render_block_step (b : TikzBlock) (s : state) :
  usable (hash b) -> consistent (globalState s) ->
  exists s',
    render_block' b s = Ok tt s' /\
    consistent (globalState s') /\ same_pass s s' /\
    is_Some (svgCache s' !! hash b) /\
    others_kept (hash b) s s' /\
    nudges s' = (nudges s + if bool_decide (memory_miss s (hash b)) then 1 else 0)%nat /\
    (forall x, svgCache s' !! hash b = Some x ->
       svgCache s !! hash b = Some x \/
       (exists d, peek (globalState s) (hash b) = Some d /\ x = restored' d /\
                  engineCalls s' = engineCalls s) \/
       (exists r, x = memory_result' r)).
Proof.
  intros Hu Hc. destruct (svgCache s !! hash b) as [x0|] eqn:Hmem.
  - exists s. split; [apply render_block_skip; eexists; exact Hmem|].
    split_and!; try assumption.
    + split; reflexivity.
    + eexists; exact Hmem.
    + intros h' _. split; reflexivity.
    + rewrite bool_decide_eq_false_2 by (unfold memory_miss; congruence). lia.
    + intros x Hx. left. congruence.
  - destruct (peek (globalState s) (hash b)) as [d|] eqn:Hpeek.
    + destruct (render_block_restore b s d Hc Hmem Hpeek)
        as (s' & Hr & Hm & Hc' & Hp & Ho & Hsame & He & Hn).
      exists s'. split; [exact Hr|]. split_and!; try assumption.
      * rewrite Hm, lookup_insert_eq. eexists; reflexivity.
      * rewrite bool_decide_eq_true_2 by exact Hmem. lia.
      * intros x Hx. rewrite Hm, lookup_insert_eq in Hx. injection Hx as <-.
        right. left. exists d. split_and!; [reflexivity | reflexivity | exact He].
    + destruct (render_block_render b s Hu Hc Hmem Hpeek)
        as (s' & Hr & Hm & Hc' & Hp & Ho & Hsame & He & Hn).
      exists s'. split; [exact Hr|]. split_and!; try assumption.
      * rewrite Hm, lookup_insert_eq. eexists; reflexivity.
      * rewrite bool_decide_eq_true_2 by exact Hmem. lia.
      * intros x Hx. rewrite Hm, lookup_insert_eq in Hx. injection Hx as <-.
        right. right. eexists. reflexivity.
Qed.

(** The loop of [renderDocument]: the preview is nudged once for each
    distinct hash that the memory cache did not hold; hashes that are
    not of the blocks are left alone. *)
Lemma render_blocks_nudges (blocks : list TikzBlock) :
  forall s : state,
    consistent (globalState s) -> Forall (fun b => usable (hash b)) blocks ->
    exists s',
      for_each blocks render_block' s = Ok tt s' /\
      consistent (globalState s') /\ same_pass s s' /\
      Forall (fun b => is_Some (svgCache s' !! hash b)) blocks /\
      (forall h, h ∉ map hash blocks ->
         svgCache s' !! h = svgCache s !! h /\
         peek (globalState s') h = peek (globalState s) h) /\
      (forall h, is_Some (svgCache s !! h) -> svgCache s' !! h = svgCache s !! h) /\
      nudges s' =
        (nudges s + length (distinct (filter (memory_miss s) (map hash blocks))))%nat.
Proof.
  induction blocks as [|b blocks IH]; intros s Hc Hu.
  - exists s. split_and!; try reflexivity; try assumption; try tauto.
    + split; reflexivity.
    + constructor.
    + cbn. lia.
  - apply Forall_cons in Hu as [Hb Hbs].
    destruct (render_block_step b s Hb Hc) as (s1 & Hr1 & Hc1 & [Hi1 Hx1] & Hm1 & Ho1 & Hn1 & _).
    destruct (IH s1 Hc1 Hbs) as (s' & Hr' & Hc' & [Hi' Hx'] & Hall & Hout & Hkeep & Hn').
    exists s'. cbn [for_each]. unfold bind at 1. rewrite Hr1.
    split_and!; try assumption.
    + split; congruence.
    + constructor; [|exact Hall]. rewrite (Hkeep _ Hm1). exact Hm1.
    + intros h Hh. cbn [map] in Hh. apply not_elem_of_cons in Hh as [Hne Hh].
      destruct (Hout h Hh) as [-> ->]. apply Ho1, Hne.
    + intros h Hh. destruct (decide (h = hash b)) as [->|Hne].
      * rewrite (Hkeep _ Hm1).
        destruct (svgCache s !! hash b) as [x|] eqn:Hmem; [|destruct Hh; discriminate].
        pose proof (render_block_skip postProcessSvg tex2svg darkMode Date_now renderTimeout
                      b s ltac:(eexists; exact Hmem)) as Hskip.
        fold render_block' in Hskip. rewrite Hskip in Hr1. injection Hr1 as <-. exact Hmem.
      * destruct (Ho1 h Hne) as [Hs1 _]. rewrite <- Hs1 in Hh. rewrite (Hkeep h Hh). exact Hs1.
    + rewrite Hn', Hn1.
      assert (Hfilter : filter (memory_miss s1) (map hash blocks) =
                        filter (fun h => h <> hash b)
                          (filter (memory_miss s) (map hash blocks))).
      { rewrite list_filter_filter. apply list_filter_iff. intros h. unfold memory_miss.
        destruct (decide (h = hash b)) as [->|Hne].
        - destruct Hm1 as [x Hx]. rewrite Hx. split; [discriminate | tauto].
        - destruct (Ho1 h Hne) as [-> _]. tauto. }
      cbn [map]. rewrite filter_cons.
      destruct (decide (memory_miss s (hash b))) as [Hmiss|Hhit].
      * rewrite bool_decide_eq_true_2 by exact Hmiss. cbn [distinct length].
        rewrite Hfilter, <- distinct_filter. lia.
      * rewrite bool_decide_eq_false_2 by exact Hhit. rewrite Hfilter.
        rewrite <- distinct_filter, filter_all; [lia|].
        apply Forall_forall. intros h Hh Heq. subst h.
        apply distinct_subset, list_elem_of_filter in Hh as [Hmiss _]. contradiction.
Qed.






End Host.

End PreviewPassFacts.

(** ** extension.ts: the commands, the theme handler and the fence rule *)
Module ExtensionFacts.
Import CacheEntry CacheManager CacheManagerFacts CacheOperationsFacts DocumentParser PreviewText
       PreviewManager PreviewOutcome PreviewManagerFacts PreviewPassFacts Extension
       TexErrorShapeFacts.


Section Host.
Variable generateHash : jsstring -> string.
Variable postProcessSvg : jsstring -> bool -> option jsstring.
Variable tex2svg : list jsstring -> jsstring -> engine_reply.
Variable darkMode : bool.
Variable Date_now : nat -> Z.
Variable renderTimeout : N.
Variable toLowerCase : jsstring -> jsstring.

Let render_block' := render_block postProcessSvg tex2svg darkMode Date_now renderTimeout.
Let renderDocument' :=
  renderDocument generateHash postProcessSvg tex2svg darkMode Date_now renderTimeout.
Let memory_result' := memory_result postProcessSvg darkMode.
Let restored' := restored postProcessSvg darkMode.
Let onDidChangeActiveColorTheme' :=
  onDidChangeActiveColorTheme generateHash postProcessSvg tex2svg darkMode Date_now renderTimeout.
Let fence' := fence generateHash toLowerCase.
Let step' := step generateHash postProcessSvg tex2svg darkMode Date_now renderTimeout toLowerCase.
Let run' := run generateHash postProcessSvg tex2svg darkMode Date_now renderTimeout toLowerCase.

(** The loop of [renderDocument] when every block is resolved by one of
    the caches: the engine is not called, and the memory cache gains,
    for each hash of a block it did not hold, what is restored from the
    stored entry. *)
Lemma render_blocks_restored (blocks : list TikzBlock) :
  forall s : state,
    consistent (globalState s) ->
    Forall (fun b => is_Some (svgCache s !! hash b) \/
                     is_Some (peek (globalState s) (hash b))) blocks ->
    exists s',
      for_each blocks render_block' s = Ok tt s' /\
      consistent (globalState s') /\ same_pass s s' /\
      engineCalls s' = engineCalls s /\
      (forall h, svgCache s' !! h =
                 match svgCache s !! h with
                 | Some x => Some x
                 | None => if bool_decide (h ∈ map hash blocks)
                           then restored' <$> peek (globalState s) h else None
                 end).
Proof.
  induction blocks as [|b blocks IH]; intros s Hc Hres.
  - exists s. split_and!; try reflexivity; try assumption; [split; reflexivity|].
    intros h. destruct (svgCache s !! h); [reflexivity|].
    rewrite bool_decide_eq_false_2 by (intros H; inversion H). reflexivity.
  - apply Forall_cons in Hres as [Hb Hbs]. cbn [for_each]. unfold bind at 1.
    destruct (svgCache s !! hash b) as [x|] eqn:Hmem.
    + pose proof (render_block_skip postProcessSvg tex2svg darkMode Date_now renderTimeout
                    b s ltac:(eexists; exact Hmem)) as Hskip.
      fold render_block' in Hskip. rewrite Hskip.
      destruct (IH s Hc Hbs) as (s' & Hr & Hc' & Hsame & He & Hm).
      exists s'. split_and!; try assumption.
      intros h. rewrite Hm. destruct (svgCache s !! h) as [y|] eqn:Hh; [reflexivity|].
      assert (Hne : h <> hash b) by congruence.
      cbn [map]. destruct (decide (h ∈ map hash blocks)) as [Hin|Hnin].
      * rewrite !bool_decide_eq_true_2; [reflexivity | right; exact Hin | exact Hin].
      * rewrite !bool_decide_eq_false_2; [reflexivity | | exact Hnin].
        intros H. apply elem_of_cons in H as [?|?]; contradiction.
    + destruct Hb as [[x Hx]|[d Hd]]; [discriminate|].
      destruct (render_block_restore postProcessSvg tex2svg darkMode Date_now renderTimeout
                  b s d Hc Hmem Hd) as (s1 & Hr1 & Hm1 & Hc1 & Hp1 & Ho1 & [Hi1 Hx1] & He1 & _).
      fold render_block' in Hr1. rewrite Hr1.
      assert (Hbs1 : Forall (fun b' => is_Some (svgCache s1 !! hash b') \/
                                       is_Some (peek (globalState s1) (hash b'))) blocks).
      { eapply Forall_impl; [exact Hbs|]. cbv beta. intros b' Hb'.
        destruct (decide (hash b' = hash b)) as [->|Hne].
        - left. rewrite Hm1, lookup_insert_eq. eexists; reflexivity.
        - destruct (Ho1 _ Hne) as [-> ->]. exact Hb'. }
      destruct (IH s1 Hc1 Hbs1) as (s' & Hr & Hc' & [Hi' Hx'] & He & Hm).
      exists s'. split_and!; try assumption; try congruence; [split; congruence|].
      intros h. rewrite Hm. destruct (decide (h = hash b)) as [->|Hne].
      * rewrite Hm1, lookup_insert_eq, Hmem.
        rewrite bool_decide_eq_true_2 by (cbn; left). rewrite Hd. reflexivity.
      * destruct (Ho1 h Hne) as [-> ->]. destruct (svgCache s !! h); [reflexivity|].
        cbn [map]. destruct (decide (h ∈ map hash blocks)) as [Hin|Hnin].
        -- rewrite !bool_decide_eq_true_2; [reflexivity | right; exact Hin | exact Hin].
        -- rewrite !bool_decide_eq_false_2; [reflexivity | | exact Hnin].
           intros H. apply elem_of_cons in H as [?|?]; contradiction.
Qed.

(** X16.  When the colour theme changes, the memory cache is emptied
    and the document rendered again.  If the persistent cache holds all
    its blocks, the engine is not called: the memory cache then holds,
    for the hashes of the blocks and no others, the stored SVG
    post-processed for the theme of the moment. *)
Theorem theme_change_restores (text : jsstring) (s : state) :
  isRendering s = false ->
  consistent (globalState s) ->
  Forall (fun b => is_Some (peek (globalState s) (hash b))) (parse_blocks generateHash text) ->
  exists s',
    onDidChangeActiveColorTheme' (Some text) s = Ok tt s' /\
    engineCalls s' = engineCalls s /\
    isRendering s' = false /\
    (forall h, svgCache s' !! h =
               if bool_decide (h ∈ map hash (parse_blocks generateHash text))
               then restored' <$> peek (globalState s) h else None).
Proof.
  intros Hidle Hc Hall.
  unfold onDidChangeActiveColorTheme', onDidChangeActiveColorTheme, clearMemoryCache.
  unfold bind at 1. unfold modify at 1.
  set (s0 := with_svgCache (fun _ => ∅) s).
  unfold renderDocument. change (isRendering s0) with (isRendering s). rewrite Hidle.
  destruct (parse_blocks generateHash text) as [|b0 bs] eqn:Hblocks.
  - eexists. split; [reflexivity|]. split_and!; [reflexivity | exact Hidle |].
    intros h. cbn. rewrite lookup_empty.
    rewrite bool_decide_eq_false_2 by (intros H; inversion H). reflexivity.
  - set (sa := with_isRendering true (with_extraction s0)).
    assert (Hres : Forall (fun b => is_Some (svgCache sa !! hash b) \/
                                    is_Some (peek (globalState sa) (hash b))) (b0 :: bs)).
    { eapply Forall_impl; [exact Hall|]. cbv beta. intros b Hb. right. exact Hb. }
    destruct (render_blocks_restored (b0 :: bs) sa Hc Hres) as (sb & Hloop & _ & _ & He & Hm).
    unfold bind at 1. unfold modify at 1. fold sa.
    unfold bind at 1. fold render_block'. rewrite Hloop. unfold modify.
    eexists. split; [reflexivity|]. split_and!.
    + cbn. exact He.
    + reflexivity.
    + intros h. cbn. rewrite Hm. cbn. rewrite lookup_empty. reflexivity.
Qed.


(** A pass over a document none of whose blocks is resolved: the engine
    is called once for each distinct hash, and the caches change for the
    hashes of the blocks only. *)
Lemma renderDocument_cold (text : jsstring) (s : state) :
  isRendering s = false ->
  consistent (globalState s) ->
  Forall (fun b => usable (hash b)) (parse_blocks generateHash text) ->
  (forall h, h ∈ map hash (parse_blocks generateHash text) -> unresolved s h) ->
  exists s',
    renderDocument' text s = Ok tt s' /\
    consistent (globalState s') /\
    isRendering s' = false /\
    engine_hashes s' = engine_hashes s ++ distinct (map hash (parse_blocks generateHash text)) /\
    Forall (fun b => is_Some (svgCache s' !! hash b)) (parse_blocks generateHash text) /\
    (forall h, h ∉ map hash (parse_blocks generateHash text) ->
       svgCache s' !! h = svgCache s !! h /\
       peek (globalState s') h = peek (globalState s) h).
Proof.
  intros Hidle Hc Hu Hun. unfold renderDocument', renderDocument. rewrite Hidle.
  destruct (parse_blocks generateHash text) as [|b0 bs] eqn:Hblocks.
  - eexists. split; [reflexivity|].
    split_and!; try assumption; [| constructor | intros h _; split; reflexivity].
    unfold engine_hashes. cbn. rewrite app_nil_r. reflexivity.
  - set (sa := with_isRendering true (with_extraction s)).
    destruct (render_blocks_spec postProcessSvg tex2svg darkMode Date_now renderTimeout
                (b0 :: bs) sa Hc Hu) as (sb & Hloop & Hcb & _ & _ & _ & Hall & Heb).
    destruct (render_blocks_nudges postProcessSvg tex2svg darkMode Date_now renderTimeout
                (b0 :: bs) sa Hc Hu) as (sb' & Hloop' & _ & _ & _ & Hout & _).
    rewrite Hloop in Hloop'. injection Hloop' as <-.
    unfold bind at 1. unfold modify at 1. fold sa.
    unfold bind at 1. rewrite Hloop. unfold modify.
    eexists. split; [reflexivity|]. split_and!; try assumption; try reflexivity.
    change (engine_hashes (with_isRendering false sb)) with (engine_hashes sb).
    rewrite Heb. f_equal. f_equal. apply filter_all.
    apply Forall_forall. intros h Hh. destruct (Hun h Hh) as [Hm Hp].
    unfold unresolvedb. cbn [svgCache globalState sa with_isRendering with_extraction].
    rewrite Hm, Hp. reflexivity.
Qed.





Lemma timers_step (ev : event) (e e' : ext) :
  timers e = (if bgRenderScheduled e then 1 else 0)%nat ->
  step' ev e = Some e' ->
  timers e' = (if bgRenderScheduled e' then 1 else 0)%nat.
Proof.
  intros Hinv Hstep. destruct ev as [info content|doc|text|i]; cbn in Hstep.
  - injection Hstep as <-. unfold fence.
    destruct (bool_decide _); [|exact Hinv].
    assert (Hs : timers (scheduleBackgroundRender e) =
                 (if bgRenderScheduled (scheduleBackgroundRender e) then 1 else 0)%nat).
    { unfold scheduleBackgroundRender. destruct (bgRenderScheduled e) eqn:Hf.
      - rewrite Hf. exact Hinv.
      - cbn. rewrite Hinv. reflexivity. }
    destruct (getSvg _ _) as [[[|c svg]|[|c err]]|]; cbn [snd]; assumption.
  - unfold background_render in Hstep. destruct (timers e) as [|n] eqn:Ht; [discriminate|].
    injection Hstep as <-. cbn. destruct (bgRenderScheduled e); lia.
  - injection Hstep as <-. exact Hinv.
  - destruct (Orchestrator.resume _ _ _ _ _ _ _) as [w|]; [|discriminate].
    injection Hstep as <-. exact Hinv.
Qed.

(** X20.  However fences are met, timers fire and passes go on, at most
    one timer of [scheduleBackgroundRender] is pending, and one is
    pending exactly while the flag [bgRenderScheduled] is set; after a
    call of [scheduleBackgroundRender] one timer is pending, whether the
    call has set it or found it set. *)
Theorem background_render_single_timer (evs : list event) (e : ext) :
  run' evs initial_ext = Some e ->
  timers e = (if bgRenderScheduled e then 1 else 0)%nat /\
  timers (scheduleBackgroundRender e) = 1%nat /\
  bgRenderScheduled (scheduleBackgroundRender e) = true.
Proof.
  assert (Hrun : forall evs0 e0 e1,
            timers e0 = (if bgRenderScheduled e0 then 1 else 0)%nat ->
            run' evs0 e0 = Some e1 ->
            timers e1 = (if bgRenderScheduled e1 then 1 else 0)%nat).
  { intros evs0. induction evs0 as [|ev evs0 IH]; intros e0 e1 Hinv Hr; cbn in Hr.
    - injection Hr as <-. exact Hinv.
    - destruct (step _ _ _ _ _ _ _ ev e0) as [e'|] eqn:Hstep; [|discriminate].
      eapply IH; [|exact Hr]. eapply timers_step; eassumption. }
  intros Hr. pose proof (Hrun evs initial_ext e eq_refl Hr) as Hinv.
  split; [exact Hinv|]. unfold scheduleBackgroundRender.
  destruct (bgRenderScheduled e) eqn:Hf.
  - rewrite Hf. split; [exact Hinv | reflexivity].
  - cbn. split; [rewrite Hinv|]; reflexivity.
Qed.

End Host.

End ExtensionFacts.

(** ** The sample store and the sample pass *)
Module DemoFacts.
Import CacheEntry CacheManager CacheManagerFacts DocumentParser PreviewManager ExtensionFacts Demo.

Lemma demo_store_consistent : consistent demo_store.
Proof.
  destruct (set_consistent "abc123" demo_entry ∅) as (st & Hs & Hc & _).
  - vm_compute. discriminate.
  - apply consistent_empty.
  - rewrite set_run in Hs; [|vm_compute; discriminate | vm_compute; exact I].
    injection Hs as <-. exact Hc.
Qed.

Lemma demo_hashes_usable :
  Forall (fun b => usable (hash b)) (parse_blocks demo_hash demo_text).
Proof. vm_compute. repeat constructor; discriminate. Qed.

Lemma demo_rendered_consistent :
  consistent (globalState demo_rendered) /\ isRendering demo_rendered = false.
Proof.
  destruct (renderDocument_cold demo_hash demo_post demo_engine false demo_now 0
              demo_text initial eq_refl consistent_empty demo_hashes_usable)
    as (s' & Hr & Hc & Hi & _).
  - intros h _. split; reflexivity.
  - unfold demo_rendered. rewrite Hr. cbn [final_state default]. split; assumption.
Qed.

End DemoFacts.

(** ** DocumentParser.watchDocument: the debounce *)
Module WatcherFacts.
Import DocumentParser PreviewManager Watcher.

Section Host.
Variable generateHash : jsstring -> string.

Let step' := step generateHash.
Let run' := run generateHash.
Let debounced' := debounced generateHash.

Lemma debounced_start (t : Z) (content : jsstring) : debounced' 0 (watchDocument t content).
Proof.
  split; cbn; [discriminate | discriminate | lia | constructor].
Qed.

Lemma debounced_step (ev : event) (n : nat) (w w' : watcher) :
  debounced' n w -> step' ev w = Some w' ->
  debounced' (n + if is_watched_change ev then 1 else 0) w'.
Proof.
  intros [Ht Hc Hn Hcalls] Hstep. destruct ev as [[|] content|ms| |]; cbn in Hstep.
  - injection Hstep as <-. destruct (listening w) eqn:Hl; cbn [is_watched_change].
    + unfold changeListener. split; cbn.
      * intros d [= <-]. split; [reflexivity|]. f_equal. unfold DEBOUNCE. lia.
      * intros t [= <-]. lia.
      * destruct (debounceTimer w); lia.
      * exact Hcalls.
    + split; cbn.
      * intros d Hd. destruct (Ht d Hd) as [Hl' _]. congruence.
      * intros t [= <-]. lia.
      * destruct (debounceTimer w); lia.
      * exact Hcalls.
  - assert (w' = w) as -> by (destruct (listening w); injection Hstep as <-; reflexivity).
    cbn [is_watched_change]. rewrite Nat.add_0_r. split; assumption.
  - destruct (Z.leb_spec 0 ms); [|discriminate]. injection Hstep as <-.
    cbn [is_watched_change]. rewrite Nat.add_0_r. split; cbn; try assumption.
    intros t Hch. specialize (Hc t Hch). lia.
  - destruct (debounceTimer w) as [d|] eqn:Hd; [|discriminate].
    destruct (Z.leb_spec d (now w)); [|discriminate]. injection Hstep as <-.
    cbn [is_watched_change]. rewrite Nat.add_0_r. destruct (Ht d eq_refl) as [_ Hch].
    split; cbn.
    + discriminate.
    + exact Hc.
    + rewrite length_app. cbn. lia.
    + apply Forall_app. split; [exact Hcalls|]. constructor; [|constructor]. cbn.
      split; [reflexivity|]. exists (d - DEBOUNCE)%Z. split; [exact Hch | lia].
  - injection Hstep as <-. cbn [is_watched_change]. rewrite Nat.add_0_r. split; cbn.
    + discriminate.
    + exact Hc.
    + destruct (debounceTimer w); lia.
    + exact Hcalls.
Qed.

Lemma debounced_run (evs : list event) :
  forall n w w', debounced' n w -> run' evs w = Some w' ->
                 debounced' (n + length (filter (fun ev => is_watched_change ev = true) evs)) w'.
Proof.
  induction evs as [|ev evs IH]; intros n w w' Hd Hrun; cbn in Hrun.
  - injection Hrun as <-. cbn. rewrite Nat.add_0_r. exact Hd.
  - destruct (step generateHash ev w) as [w1|] eqn:Hstep; [|discriminate].
    pose proof (IH _ _ _ (debounced_step ev n w w1 Hd Hstep) Hrun) as H.
    rewrite filter_cons. destruct (is_watched_change ev).
    + rewrite decide_True by reflexivity. cbn [length].
      replace (n + S (length (filter (fun ev => is_watched_change ev = true) evs)))%nat
        with (n + 1 + length (filter (fun ev => is_watched_change ev = true) evs))%nat by lia.
      exact H.
    + rewrite decide_False by discriminate. rewrite Nat.add_0_r in H. exact H.
Qed.

Lemma disposed_step (ev : event) (w w' : watcher) :
  listening w = false -> debounceTimer w = None -> step' ev w = Some w' ->
  listening w' = false /\ debounceTimer w' = None /\ notified w' = notified w.
Proof.
  intros Hl Ht Hstep. destruct ev as [[|] content|ms| |]; cbn in Hstep.
  - rewrite Hl in Hstep. injection Hstep as <-. cbn. tauto.
  - rewrite Hl in Hstep. injection Hstep as <-. tauto.
  - destruct (0 <=? ms)%Z; [|discriminate]. injection Hstep as <-. cbn. tauto.
  - rewrite Ht in Hstep. discriminate.
  - injection Hstep as <-. cbn. tauto.
Qed.

(** X23.  [watchDocument] debounces: however documents change, time
    passes and the timer fires, every call of [onChange] comes 500 ms or
    more after the last change of the watched document before it, with
    the blocks of the document's text of that moment; there are no more
    calls than changes of the watched document; and once the disposable
    is disposed no timer is pending and [onChange] is not called
    again. *)
Theorem watchDocument_debounced (evs : list event) (t0 : Z) (content : jsstring) (w : watcher) :
  run' evs (watchDocument t0 content) = Some w ->
  Forall (fun n => n_blocks n = parse_blocks generateHash (n_text n) /\
                   exists t, n_changed n = Some t /\ (t + 500 <= n_time n)%Z)
         (notified w) /\
  (length (notified w) <= length (filter (fun ev => is_watched_change ev = true) evs))%nat /\
  (listening w = false ->
   debounceTimer w = None /\
   forall evs' w', run' evs' w = Some w' -> notified w' = notified w).
Proof.
  intros Hrun.
  pose proof (debounced_run evs 0 _ _ (debounced_start t0 content) Hrun) as [Ht Hc Hn Hcalls].
  split_and!.
  - exact Hcalls.
  - cbn in Hn. lia.
  - intros Hl.
    assert (Hnone : debounceTimer w = None).
    { destruct (debounceTimer w) as [d|] eqn:Hd; [|reflexivity].
      destruct (Ht d eq_refl) as [Hl' _]. congruence. }
    split; [exact Hnone|]. intros evs'. clear Hrun Ht Hc Hn Hcalls. revert w Hl Hnone.
    induction evs' as [|ev evs' IH]; intros w Hl Hnone w' Hrun'; cbn in Hrun'.
    + injection Hrun' as <-. reflexivity.
    + destruct (step generateHash ev w) as [w1|] eqn:Hstep; [|discriminate].
      destruct (disposed_step ev w w1 Hl Hnone Hstep) as (Hl1 & Ht1 & Hn1).
      rewrite <- Hn1. exact (IH w1 Hl1 Ht1 w' Hrun').
Qed.

End Host.

End WatcherFacts.

(** ** PreviewManager: the catch block, for any thrown value *)
Module PreviewCatchFacts.
Import CacheEntry CacheManager DocumentParser PreviewText PreviewManager PreviewOutcome.
Import JSStringFacts TexErrorFacts CacheManagerFacts PreviewManagerFacts PreviewCatch.

Lemma on_cache_frame {A} (c : M Memento A) (s s' : state) (a : A) :
  on_cache c s = Ok a s' ->
  exists g, c (globalState s) = Ok a g /\ s' = with_globalState g s.
Proof.
  unfold on_cache. destruct (c (globalState s)) as [a' g|]; [|discriminate].
  intros [= <- <-]. exists g. split; reflexivity.
Qed.

Section Host.
Variable generateHash : jsstring -> string.
Variable postProcessSvg : jsstring -> bool -> option jsstring.
Variable darkMode : bool.
Variable Date_now : nat -> Z.
Variable renderTimeout : N.

(** *** An engine that throws texts only

    With an engine whose thrown values all read as text, and a chain
    that is not rejected, the methods run as in [PreviewManager]. *)
Section Texts.
Variable engine : list jsstring -> jsstring -> engine_reply.

Let tex2svg (history : list jsstring) (tex : jsstring) : any_reply :=
  of_reply (engine history tex).

Lemma renderSingleBlock_of_reply (hash : string) (source : jsstring) (m : manager) :
  chainRejected m = false ->
  _renderSingleBlock postProcessSvg tex2svg darkMode Date_now renderTimeout hash source m =
  of_outcome (PreviewManager._renderSingleBlock postProcessSvg engine darkMode Date_now
                renderTimeout hash source (pm m)).
Proof.
  intros Hc. unfold _renderSingleBlock, PreviewManager._renderSingleBlock, _renderTikzToSvg, bind.
  rewrite Hc. unfold tex2svg.
  destruct (engine _ _) as [svg|err|]; cbn [of_reply race PreviewManager.race].
  - destruct (settle _ _ _ _ _ _) as [[] s'|]; reflexivity.
  - reflexivity.
  - reflexivity.
Qed.

Lemma render_block_of_reply (b : TikzBlock) (m : manager) :
  chainRejected m = false ->
  render_block postProcessSvg tex2svg darkMode Date_now renderTimeout b m =
  of_outcome (PreviewManager.render_block postProcessSvg engine darkMode Date_now
                renderTimeout b (pm m)).
Proof.
  intros Hc. unfold render_block, PreviewManager.render_block.
  destruct (bool_decide _).
  - destruct m as [s r]. cbn in *. subst r. reflexivity.
  - unfold bind at 1. destruct (on_cache _ _) as [[entry|] s|]; [| |reflexivity].
    + unfold bind, modify, _nudgeDocument, modify. cbn [of_outcome]. rewrite Hc. reflexivity.
    + rewrite Hc. rewrite renderSingleBlock_of_reply by reflexivity. cbn [pm].
      unfold bind at 1.
      destruct (PreviewManager._renderSingleBlock _ _ _ _ _ _ _ _) as [[] s'|]; reflexivity.
Qed.

Lemma render_blocks_of_reply (blocks : list TikzBlock) :
  forall m, chainRejected m = false ->
    render_blocks postProcessSvg tex2svg darkMode Date_now renderTimeout blocks m =
    of_outcome (for_each blocks
                  (PreviewManager.render_block postProcessSvg engine darkMode Date_now
                     renderTimeout) (pm m)).
Proof.
  induction blocks as [|b rest IH]; intros m Hc.
  - destruct m as [s r]. cbn in *. subst r. reflexivity.
  - cbn [render_blocks for_each]. rewrite render_block_of_reply by exact Hc.
    unfold bind at 1.
    destruct (PreviewManager.render_block _ _ _ _ _ _ _) as [[] s'|]; [|reflexivity].
    cbn [of_outcome]. rewrite IH by reflexivity. reflexivity.
Qed.

(** [renderDocument] with an engine that throws texts only. *)
Lemma renderDocument_of_reply (text : jsstring) (m : manager) :
  chainRejected m = false ->
  renderDocument generateHash postProcessSvg tex2svg darkMode Date_now renderTimeout text m =
  of_outcome (PreviewManager.renderDocument generateHash postProcessSvg engine darkMode
                Date_now renderTimeout text (pm m)).
Proof.
  intros Hc. unfold renderDocument, PreviewManager.renderDocument.
  destruct (isRendering (pm m)).
  - destruct m as [s r]. cbn in *. subst r. reflexivity.
  - destruct (parse_blocks generateHash text) as [|b rest] eqn:Hb.
    + destruct m as [s r]. cbn in *. subst r. reflexivity.
    + rewrite render_blocks_of_reply by exact Hc.
      unfold bind, modify. cbn [with_pm pm].
      destruct (for_each _ _ _) as [[] s'|]; reflexivity.
Qed.

End Texts.

(** *** Any engine *)
Section Any.
Variable tex2svg : list jsstring -> jsstring -> any_reply.

Let renderSingleBlock' :=
  _renderSingleBlock postProcessSvg tex2svg darkMode Date_now renderTimeout.
Let render_block' := render_block postProcessSvg tex2svg darkMode Date_now renderTimeout.
Let render_blocks' := render_blocks postProcessSvg tex2svg darkMode Date_now renderTimeout.
Let renderDocument' :=
  renderDocument generateHash postProcessSvg tex2svg darkMode Date_now renderTimeout.
Let retryBlock' := retryBlock postProcessSvg tex2svg darkMode Date_now renderTimeout.
Let do_call' := do_call generateHash postProcessSvg tex2svg darkMode Date_now renderTimeout.
Let do_calls' := do_calls generateHash postProcessSvg tex2svg darkMode Date_now renderTimeout.

(** X25.  What the [catch] block of [_renderSingleBlock] makes of a
    failed render, a time-out included, on a chain that is not rejected.
    The engine was called once and the persistent store and the other
    entries of the memory cache are as before.  When the thrown value
    reads as text the call returns, the message [_extractTexError] makes
    of the text is in the memory cache under the hash, and the chain
    goes on; the message is the heading followed by the trimmed marker
    when the first [!] of the text opens a marker that runs to the end of
    its line, and the time-out text itself after a time-out.  When the
    thrown value does not read as text ([err.message] truthy and not a
    string, or [String(err)] throwing) the call throws, the memory cache
    is as before, and the chain is left rejected. *)
Theorem catch_block_recovers_texts (m : manager) (hash : string) (source : jsstring) (err : any) :
  chainRejected m = false ->
  race renderTimeout (tex2svg (map snd (engineCalls (pm m))) (engine_source source)) = inr err ->
  exists m',
    ends_in (renderSingleBlock' hash source m) = Some m' /\
    engineCalls (pm m') = engineCalls (pm m) ++ [(hash, engine_source source)] /\
    globalState (pm m') = globalState (pm m) /\
    (forall h, h <> hash -> svgCache (pm m') !! h = svgCache (pm m) !! h) /\
    match err with
    | Text t =>
        renderSingleBlock' hash source m = Returns m' /\
        chainRejected m' = false /\
        svgCache (pm m') !! hash = Some (ResultError (PreviewText._extractTexError t)) /\
        (forall pre body tail,
           error_text t = pre ++ 33 :: body ++ tail ->
           Forall (fun c => c <> 33) pre ->
           Forall (fun c => is_line_terminator c = false) body ->
           tail = [] \/ (exists t', tail = LF :: t') ->
           PreviewText._extractTexError t = u16 "TeX compilation failed: " ++ trim body /\
           includes (PreviewText._extractTexError t) (trim body) = true) /\
        (tex2svg (map snd (engineCalls (pm m))) (engine_source source) = NotInTime ->
         PreviewText._extractTexError t =
           u16 "Render timed out after " ++ decimal (timeout_ms renderTimeout) ++ u16 "ms")
    | MessageNotString | NotConvertible =>
        renderSingleBlock' hash source m = Throws m' /\
        chainRejected m' = true /\
        svgCache (pm m') !! hash = svgCache (pm m) !! hash
    end.
Proof.
  intros Hc Hrace. unfold renderSingleBlock', _renderSingleBlock. rewrite Hc, Hrace.
  destruct err as [t| |]; cbn [_extractTexError].
  - eexists. split; [reflexivity|]. cbn [ends_in pm chainRejected].
    split_and!; try reflexivity.
    + intros h Hne. cbn. apply lookup_insert_ne. congruence.
    + cbn. apply lookup_insert_eq.
    + intros pre body tail Hmsg Hpre Hbody Htail.
      assert (Hdot : Forall (fun c => Regex.cls_dot c = true) body).
      { eapply Forall_impl; [exact Hbody|]. intros c Hb. unfold Regex.cls_dot. rewrite Hb. reflexivity. }
      rewrite (extractTexError_marker t pre body tail Hmsg Hpre Hdot Htail).
      split; [reflexivity|].
      rewrite <- (app_nil_r (trim body)) at 1. apply includes_app.
    + intros Hlate. rewrite Hlate in Hrace. cbn in Hrace. injection Hrace as <-.
      apply extractTexError_timeout, decimal_no_bang.
  - eexists. split; [reflexivity|]. cbn [ends_in pm chainRejected].
    split_and!; reflexivity.
  - eexists. split; [reflexivity|]. cbn [ends_in pm chainRejected].
    split_and!; reflexivity.
Qed.

(** On a rejected chain a call changes neither the chain nor the calls
    of the engine. *)
Lemma render_block_rejected (b : TikzBlock) (m m' : manager) :
  chainRejected m = true ->
  ends_in (render_block' b m) = Some m' ->
  chainRejected m' = true /\ engineCalls (pm m') = engineCalls (pm m) /\
  isRendering (pm m') = isRendering (pm m).
Proof.
  intros Hc. unfold render_block', render_block.
  destruct (bool_decide _).
  - intros [= <-]. repeat split; assumption.
  - destruct (on_cache _ _) as [[entry|] s|] eqn:Hget; [| |discriminate].
    + apply on_cache_frame in Hget as (g & _ & ->). intros [= <-]. cbn. repeat split. exact Hc.
    + apply on_cache_frame in Hget as (g & _ & ->).
      unfold _renderSingleBlock. cbn [chainRejected]. rewrite Hc.
      intros [= <-]. cbn. repeat split.
Qed.

Lemma render_blocks_rejected (blocks : list TikzBlock) :
  forall m m', chainRejected m = true ->
    ends_in (render_blocks' blocks m) = Some m' ->
    chainRejected m' = true /\ engineCalls (pm m') = engineCalls (pm m) /\
    isRendering (pm m') = isRendering (pm m).
Proof.
  induction blocks as [|b rest IH]; intros m m' Hc He.
  - cbn in He. injection He as <-. repeat split; assumption.
  - cbn [render_blocks' render_blocks] in He.
    destruct (render_block postProcessSvg tex2svg darkMode Date_now renderTimeout b m)
      as [m1|m1|] eqn:Hb; [| |discriminate].
    + destruct (render_block_rejected b m m1 Hc) as (Hc1 & He1 & Hi1).
      { unfold render_block'. rewrite Hb. reflexivity. }
      destruct (IH m1 m' Hc1 He) as (Hc' & He' & Hi'). repeat split; congruence.
    + cbn in He. injection He as <-.
      apply (render_block_rejected b m m1 Hc). unfold render_block'. rewrite Hb. reflexivity.
Qed.

Lemma do_call_rejected (c : call) (m m' : manager) :
  chainRejected m = true ->
  ends_in (do_call' c m) = Some m' ->
  chainRejected m' = true /\ engineCalls (pm m') = engineCalls (pm m).
Proof.
  intros Hc. destruct c as [text|hash source|]; cbn [do_call' do_call].
  - unfold renderDocument. destruct (isRendering (pm m)).
    { intros [= <-]. split; [exact Hc | reflexivity]. }
    destruct (parse_blocks generateHash text) as [|b rest].
    { intros [= <-]. split; [exact Hc | reflexivity]. }
    set (m0 := with_pm (with_isRendering true) (with_pm with_extraction m)).
    assert (Hc0 : chainRejected m0 = true) by exact Hc.
    pose proof (render_blocks_rejected (b :: rest) m0) as Hloop. unfold render_blocks' in Hloop.
    destruct (render_blocks _ _ _ _ _ (b :: rest) m0) as [m1|m1|]; [| |discriminate].
    + destruct (Hloop m1 Hc0 eq_refl) as (Hc1 & He1 & _). intros [= <-]. cbn. split; assumption.
    + destruct (Hloop m1 Hc0 eq_refl) as (Hc1 & He1 & _). intros [= <-]. cbn. split; assumption.
  - unfold retryBlock.
    destruct (on_cache _ _) as [[] s|] eqn:Hinv; [|discriminate].
    apply on_cache_frame in Hinv as (g & _ & ->).
    unfold _renderSingleBlock. cbn [chainRejected]. rewrite Hc. intros [= <-].
    cbn. split; reflexivity.
  - unfold resetEngine, PreviewManager.resetEngine, modify. intros [= <-]. cbn.
    split; [exact Hc | reflexivity].
Qed.

Lemma do_calls_rejected (cs : list call) :
  forall m m', chainRejected m = true -> do_calls' cs m = Some m' ->
    chainRejected m' = true /\ engineCalls (pm m') = engineCalls (pm m).
Proof.
  induction cs as [|c cs IH]; intros m m' Hc Hrun; cbn in Hrun.
  - injection Hrun as <-. split; [exact Hc | reflexivity].
  - pose proof (do_call_rejected c m) as Hstep. unfold do_call' in Hstep.
    destruct (do_call _ _ _ _ _ _ c m) as [m1|m1|]; [| |discriminate];
      destruct (Hstep m1 Hc eq_refl) as [Hc1 He1];
      destruct (IH m1 m' Hc1 Hrun) as [Hc' He']; split; congruence.
Qed.

(** On a rejected chain the loop of [renderDocument] does not get past
    a block that neither cache resolves. *)
Lemma render_blocks_stopped (blocks : list TikzBlock) :
  forall m b, chainRejected m = true ->
    b ∈ blocks -> unresolved (pm m) (hash b) ->
    forall m', render_blocks' blocks m <> Returns m'.
Proof.
  induction blocks as [|b0 rest IH]; intros m b Hc Hin [Hmem Hstore] m'.
  - apply elem_of_nil in Hin. contradiction.
  - cbn [render_blocks' render_blocks]. unfold render_block.
    destruct (decide (hash b0 = hash b)) as [Heq|Hne].
    + rewrite Heq, bool_decide_eq_false_2 by (rewrite Hmem; apply is_Some_None).
      unfold on_cache, get. unfold peek in Hstore.
      destruct (globalState (pm m) !! getCacheKey (hash b)) as [[d|ix]|] eqn:Hk;
        [discriminate | discriminate |].
      unfold _renderSingleBlock. cbn [chainRejected]. rewrite Hc. discriminate.
    + assert (Hnext : forall m1, chainRejected m1 = true -> unresolved (pm m1) (hash b) ->
                                 render_blocks' rest m1 <> Returns m').
      { intros m1 Hc1 Hu1. apply elem_of_cons in Hin as [->|Hin]; [contradiction|].
        exact (IH m1 b Hc1 Hin Hu1 m'). }
      destruct (bool_decide _); [apply Hnext; [exact Hc | split; assumption]|].
      destruct (on_cache _ _) as [[entry|] s|] eqn:Hget; [| |discriminate].
      * apply Hnext; [exact Hc|]. cbn [pm].
        unfold on_cache in Hget.
        destruct (get (hash b0) (globalState (pm m))) as [o g|] eqn:Hg; [|discriminate].
        injection Hget as -> <-. unfold unresolved.
        cbn [with_nudge with_svgCache with_globalState svgCache globalState].
        split; [rewrite lookup_insert_ne by exact Hne; exact Hmem|].
        unfold get in Hg.
        destruct (globalState (pm m) !! getCacheKey (hash b0)) as [[d|ix]|]; try discriminate.
        cbn in Hg. injection Hg as _ <-. unfold peek.
        rewrite lookup_insert_ne; [exact Hstore|].
        intros Hk. apply getCacheKey_inj in Hk. contradiction.
      * unfold _renderSingleBlock. cbn [chainRejected]. rewrite Hc. discriminate.
Qed.

(** X21.  A rejected render chain stays rejected.  Whatever is called
    afterwards ([renderDocument], [retryBlock], [resetEngine], in any
    number and order), the chain is still rejected and the engine has
    not been called again.  From then on [_renderSingleBlock] and
    [retryBlock] never return normally, whatever the block, and neither
    does [renderDocument] for a document with a block that neither cache
    resolves. *)
Theorem render_chain_rejected_for_good (cs : list call) (m m' : manager) :
  chainRejected m = true ->
  do_calls' cs m = Some m' ->
  chainRejected m' = true /\
  engineCalls (pm m') = engineCalls (pm m) /\
  (forall hash source, renderSingleBlock' hash source m' = Throws m') /\
  (forall hash source m'', retryBlock' hash source m' <> Returns m'') /\
  (forall text b m'',
     isRendering (pm m') = false ->
     b ∈ parse_blocks generateHash text ->
     unresolved (pm m') (hash b) ->
     renderDocument' text m' <> Returns m'').
Proof.
  intros Hc Hrun. destruct (do_calls_rejected cs m m' Hc Hrun) as [Hc' He'].
  split_and!; [exact Hc' | exact He' | | |].
  - intros hash source. unfold renderSingleBlock', _renderSingleBlock. rewrite Hc'. reflexivity.
  - intros hash source m''. unfold retryBlock', retryBlock.
    destruct (on_cache _ _) as [[] s|]; [|discriminate].
    unfold _renderSingleBlock. cbn [chainRejected]. rewrite Hc'. discriminate.
  - intros text b m'' Hidle Hin Hu. unfold renderDocument', renderDocument. rewrite Hidle.
    destruct (parse_blocks generateHash text) as [|b0 rest] eqn:Hb.
    { apply elem_of_nil in Hin. contradiction. }
    set (m0 := with_pm (with_isRendering true) (with_pm with_extraction m')).
    pose proof (render_blocks_stopped (b0 :: rest) m0 b Hc' Hin Hu) as Hstop.
    unfold render_blocks' in Hstop.
    destruct (render_blocks _ _ _ _ _ (b0 :: rest) m0) as [m1|m1|]; try discriminate.
    exfalso. exact (Hstop m1 eq_refl).
Qed.

End Any.

End Host.

Import Demo.

(** C3, where the code departs from it.  The engine rejects its first
    call with the value [{message: 42}]: [_extractTexError] throws inside
    the [catch] block, so [_renderSingleBlock] throws, nothing is stored
    under the hash in either cache, and the chain is left rejected: the
    next request, which the engine would answer, is not served and
    throws as well; [renderDocument] lets the exception through.
    And when the engine rejects with an error whose text holds a [!]
    before the marker line, the failure is recovered but the stored
    message is made of what follows that [!] and does not contain the
    marker text. *)
Theorem render_failure_not_recovered :
  (exists m1,
     _renderSingleBlock demo_post moody_engine false demo_now 0 "h" draw_11 fresh = Throws m1 /\
     svgCache (pm m1) !! "h"%string = None /\
     peek (globalState (pm m1)) "h" = None /\
     chainRejected m1 = true /\
     moody_engine (map snd (engineCalls (pm m1))) (engine_source draw_11) = Fulfils demo_svg /\
     _renderSingleBlock demo_post moody_engine false demo_now 0 "g" draw_11 m1 = Throws m1) /\
  (exists m2,
     renderDocument demo_hash demo_post moody_engine false demo_now 0 demo_text fresh
       = Throws m2 /\
     svgCache (pm m2) = ∅ /\ nudges (pm m2) = 0%nat /\ chainRejected m2 = true) /\
  (exists m3,
     _renderSingleBlock demo_post echoing_engine false demo_now 0 "h" (u16 "\draw (0,0);") fresh
       = Returns m3 /\
     error_text echoed_source_error =
       u16 "\draw[fill=blue!20] (0,0);" ++ [LF] ++ u16 "! Undefined control sequence" /\
     svgCache (pm m3) !! "h"%string
       = Some (ResultError (u16 "TeX compilation failed: 20] (0,0);")) /\
     includes (u16 "TeX compilation failed: 20] (0,0);") (u16 "Undefined control sequence")
       = false).
Proof.
  split_and!.
  - eexists. split; [vm_compute; reflexivity|].
    split_and!; vm_compute; reflexivity.
  - eexists. split; [vm_compute; reflexivity|].
    split_and!; vm_compute; reflexivity.
  - eexists. split; [vm_compute; reflexivity|].
    split_and!; vm_compute; reflexivity.
Qed.

End PreviewCatchFacts.

(** ** The statements on sample inputs *)
Module Witnesses.
Import Regex Preprocessor PreviewText CacheEntry CacheManager DocumentParser PreviewManager Demo.

Lemma set_get_roundtrip_witness :
  exists st1 st2 r,
    CacheManager.set "abc123" demo_entry ∅ = Ok tt st1 /\
    get_times 2 "abc123" st1 = Ok (Some r) st2 /\
    CacheEntry.hash r = CacheEntry.hash demo_entry /\ svg r = svg demo_entry /\
    timestamp r = timestamp demo_entry /\
    accessCount r = (accessCount demo_entry + Z.of_nat 2)%Z /\
    st2 !! getCacheKey "abc123" = Some (EntryData r).
Proof.
  apply (CacheManagerFacts.set_get_roundtrip "abc123" demo_entry ∅ 1).
  - vm_compute. discriminate.
  - vm_compute. exact I.
Defined.

Lemma index_consistency_witness :
  exists st idx,
    run_ops demo_ops ∅ = Ok tt st /\
    getIndex st = Ok idx st /\
    NoDup idx /\
    (forall h, h ∈ idx <-> present st h) /\
    exists stats st',
      getStats st = Ok stats st' /\
      entryCount stats = length idx /\
      counts (present st) (entryCount stats).
Proof.
  apply (CacheManagerFacts.index_consistency demo_ops).
  repeat constructor; vm_compute; discriminate.
Defined.

Lemma createdAt_frame_witness :
  (forall ops, Forall op_usable ops -> Forall (fun o => ~ sets_hash "abc123" o) ops ->
     exists st', run_ops ops demo_store = Ok tt st' /\
                 forall d', peek st' "abc123" = Some d' -> timestamp d' = timestamp demo_entry) /\
  (exists r st', CacheManager.get "abc123" demo_store = Ok (Some r) st' /\
                 peek st' "abc123" = Some r /\
                 accessCount r = (accessCount demo_entry + 1)%Z /\
                 timestamp r = timestamp demo_entry) /\
  (forall e, exists st', CacheManager.set "abc123" e demo_store = Ok tt st' /\
                         peek st' "abc123" = Some e).
Proof.
  apply (CacheManagerFacts.createdAt_frame demo_store "abc123" demo_entry).
  - destruct (CacheManagerFacts.set_consistent "abc123" demo_entry ∅) as (st & Hs & Hc & _).
    + vm_compute. discriminate.
    + apply CacheManagerFacts.consistent_empty.
    + rewrite CacheManagerFacts.set_run in Hs; [|vm_compute; discriminate | vm_compute; exact I].
      injection Hs as <-. exact Hc.
  - vm_compute. discriminate.
  - unfold peek, demo_store.
    rewrite lookup_insert_ne by (vm_compute; discriminate).
    rewrite lookup_insert_eq. reflexivity.
Defined.

Lemma engine_source_first_compat_directive_witness :
  engine_source (u16 "\pgfplotsset{compat=1.18}") = [] ++ COMPAT_1_16 ++ [].
Proof.
  apply (CompatFacts.engine_source_first_compat_directive
           (u16 "\pgfplotsset{compat=1.18}") [] (u16 "\pgfplotsset{compat=1.18}") []).
  - vm_compute. reflexivity.
  - exists [], [], [], [], (u16 "1.18"), []. split; [reflexivity|].
    unfold all_space, is_version. repeat split; repeat constructor. discriminate.
  - intros p d' r _ _. simpl. lia.
Defined.


Lemma reentrancy_guard_witness :
  exists w,
    Orchestrator.run demo_hash demo_post demo_engine false demo_now 0
      [Orchestrator.Call demo_text; Orchestrator.Call demo_text; Orchestrator.Resume 0]
      Orchestrator.initial_world = Some w /\
    (isRendering (Orchestrator.pm w) = true <->
     exists i todo, Orchestrator.passes w !! i = Some (Orchestrator.Running todo)).
Proof.
  eexists. split; [vm_compute; reflexivity|].
  eapply (OrchestratorFacts.reentrancy_guard demo_hash demo_post demo_engine false demo_now 0
            [Orchestrator.Call demo_text; Orchestrator.Call demo_text; Orchestrator.Resume 0]).
  vm_compute. reflexivity.
Defined.

Lemma render_chain_serialized_witness :
  exists c,
    RenderChain.run demo_post false demo_now 0
      [RenderChain.Submit "a" draw_11; RenderChain.Submit "b" draw_11;
       RenderChain.Start 0; RenderChain.EngineDone 0 (inl (u16 "<svg>A</svg>"));
       RenderChain.CallerResumes 0; RenderChain.Start 1;
       RenderChain.EngineDone 1 (inr undefined_control_sequence);
       RenderChain.CallerResumes 1]
      RenderChain.initial_chain = Some c /\
    (forall i j ri rj,
       RenderChain.requests c !! i = Some ri -> RenderChain.requests c !! j = Some rj ->
       RenderChain.r_status ri = RenderChain.Racing ->
       RenderChain.r_status rj = RenderChain.Racing -> i = j).
Proof.
  eexists. split; [vm_compute; reflexivity|].
  eapply (RenderChainFacts.render_chain_serialized demo_post false demo_now 0
            [RenderChain.Submit "a" draw_11; RenderChain.Submit "b" draw_11;
             RenderChain.Start 0; RenderChain.EngineDone 0 (inl (u16 "<svg>A</svg>"));
             RenderChain.CallerResumes 0; RenderChain.Start 1;
             RenderChain.EngineDone 1 (inr undefined_control_sequence);
             RenderChain.CallerResumes 1]).
  vm_compute. reflexivity.
Defined.


Import PreviewOutcome Extension DemoFacts.

Lemma getStats_sizes_and_touches_witness :
  exists st',
    getStats demo_store =
      Ok {| entryCount := length (index_of demo_store);
            totalSize := sum_list (map (fun h => from_option (fun d => length (svg d) + 100)%nat
                                                   0%nat (peek demo_store h))
                                       (index_of demo_store)) |} st' /\
    consistent st' /\
    index_of st' = index_of demo_store /\
    (forall h, peek st' h = touch <$> peek demo_store h).
Proof.
  apply (CacheOperationsFacts.getStats_sizes_and_touches demo_store).
  apply demo_store_consistent.
Defined.

Lemma clear_empties_witness :
  clear demo_store = Ok tt ∅ /\
  (forall h, CacheManager.get h ∅ = Ok None ∅) /\
  getStats ∅ = Ok {| entryCount := 0; totalSize := 0 |} ∅.
Proof.
  apply (CacheOperationsFacts.clear_empties demo_store).
  apply demo_store_consistent.
Defined.

Lemma invalidate_removes_witness :
  exists st1,
    invalidate "abc123" demo_store = Ok tt st1 /\
    CacheManager.get "abc123" st1 = Ok None st1 /\
    index_of st1 = filter (fun h' => h' <> "abc123"%string) (index_of demo_store) /\
    (forall h', h' <> "abc123"%string -> peek st1 h' = peek demo_store h') /\
    invalidate "abc123" st1 = Ok tt st1.
Proof.
  apply (CacheOperationsFacts.invalidate_removes "abc123" demo_store).
  - vm_compute. discriminate.
  - apply demo_store_consistent.
Defined.

Lemma parse_ranges_witness :
  Forall (fun b =>
            (0 < fst (range b) <= snd (range b) + 1)%Z /\
            (exists P tag ws,
               take (Z.to_nat (fst (range b))) demo_text = P ++ u16 "```" ++ tag ++ ws ++ [LF] /\
               line_start (rev P) /\ is_tikz_tag tag /\
               Forall (fun c => is_space c = true /\ c <> LF) ws) /\
            (exists ws rest,
               drop (Z.to_nat (snd (range b))) demo_text = LF :: u16 "```" ++ ws ++ rest /\
               Forall (fun c => is_space c = true) ws /\ line_end rest))
         (default [] (parse demo_hash demo_text)).
Proof.
  apply (ParserRangeFacts.parse_ranges demo_hash demo_text).
  vm_compute. repeat constructor; intros H; try discriminate H; reflexivity.
Defined.




Lemma theme_change_restores_witness :
  exists s',
    onDidChangeActiveColorTheme demo_hash demo_post demo_engine true demo_now 0
      (Some demo_text) demo_rendered = Ok tt s' /\
    engineCalls s' = engineCalls demo_rendered /\
    isRendering s' = false /\
    (forall h, svgCache s' !! h =
               if bool_decide (h ∈ map DocumentParser.hash (parse_blocks demo_hash demo_text))
               then restored demo_post true <$> peek (globalState demo_rendered) h else None).
Proof.
  apply (ExtensionFacts.theme_change_restores demo_hash demo_post demo_engine true demo_now 0
           demo_text demo_rendered).
  - apply demo_rendered_consistent.
  - apply demo_rendered_consistent.
  - vm_compute. repeat constructor; eexists; reflexivity.
Defined.




Lemma background_render_single_timer_witness :
  exists e,
    Extension.run demo_hash demo_post demo_engine false demo_now 0 demo_lower
      [Fence (u16 "tikz") draw_11; Fence (u16 "tikz") draw_11;
       Extension.TimerFires (Some demo_text); Fence (u16 "tikz") draw_11;
       Extension.Resume 0]
      initial_ext = Some e /\
    timers e = (if bgRenderScheduled e then 1 else 0)%nat /\
    timers (scheduleBackgroundRender e) = 1%nat /\
    bgRenderScheduled (scheduleBackgroundRender e) = true.
Proof.
  eexists. split; [vm_compute; reflexivity|].
  eapply (ExtensionFacts.background_render_single_timer demo_hash demo_post demo_engine false
            demo_now 0 demo_lower
            [Fence (u16 "tikz") draw_11; Fence (u16 "tikz") draw_11;
             Extension.TimerFires (Some demo_text); Fence (u16 "tikz") draw_11;
             Extension.Resume 0]).
  vm_compute. reflexivity.
Defined.


Lemma watchDocument_debounced_witness :
  exists w,
    Watcher.run demo_hash
      [Watcher.Changed true draw_11; Watcher.Elapse 100; Watcher.Changed true demo_text;
       Watcher.Changed false draw_11; Watcher.Elapse 500; Watcher.Timeout; Watcher.Dispose]
      (Watcher.watchDocument 0 draw_11) = Some w /\
    Forall (fun n => Watcher.n_blocks n = parse_blocks demo_hash (Watcher.n_text n) /\
                     exists t, Watcher.n_changed n = Some t /\ (t + 500 <= Watcher.n_time n)%Z)
           (Watcher.notified w) /\
    (length (Watcher.notified w) <=
     length (filter (fun ev => Watcher.is_watched_change ev = true)
               [Watcher.Changed true draw_11; Watcher.Elapse 100; Watcher.Changed true demo_text;
                Watcher.Changed false draw_11; Watcher.Elapse 500; Watcher.Timeout;
                Watcher.Dispose]))%nat /\
    (Watcher.listening w = false ->
     Watcher.debounceTimer w = None /\
     forall evs' w', Watcher.run demo_hash evs' w = Some w' ->
                     Watcher.notified w' = Watcher.notified w).
Proof.
  eexists. split; [vm_compute; reflexivity|].
  eapply (WatcherFacts.watchDocument_debounced demo_hash
            [Watcher.Changed true draw_11; Watcher.Elapse 100; Watcher.Changed true demo_text;
             Watcher.Changed false draw_11; Watcher.Elapse 500; Watcher.Timeout; Watcher.Dispose]
            0 draw_11).
  vm_compute. reflexivity.
Defined.

Lemma catch_block_recovers_texts_witness :
  exists m',
    PreviewCatch.ends_in
      (PreviewCatch._renderSingleBlock demo_post
         (fun history tex => PreviewCatch.of_reply (failing_engine history tex))
         false demo_now 0 "h" draw_11 fresh) = Some m' /\
    engineCalls (PreviewCatch.pm m') =
      engineCalls (PreviewCatch.pm fresh) ++ [("h"%string, engine_source draw_11)] /\
    globalState (PreviewCatch.pm m') = globalState (PreviewCatch.pm fresh) /\
    (forall h, h <> "h"%string ->
       svgCache (PreviewCatch.pm m') !! h = svgCache (PreviewCatch.pm fresh) !! h) /\
    (PreviewCatch._renderSingleBlock demo_post
       (fun history tex => PreviewCatch.of_reply (failing_engine history tex))
       false demo_now 0 "h" draw_11 fresh = PreviewCatch.Returns m' /\
     PreviewCatch.chainRejected m' = false /\
     svgCache (PreviewCatch.pm m') !! "h"%string =
       Some (ResultError (_extractTexError undefined_control_sequence)) /\
     (forall pre body tail,
        error_text undefined_control_sequence = pre ++ 33 :: body ++ tail ->
        Forall (fun c => c <> 33) pre ->
        Forall (fun c => is_line_terminator c = false) body ->
        tail = [] \/ (exists t', tail = LF :: t') ->
        _extractTexError undefined_control_sequence
          = u16 "TeX compilation failed: " ++ trim body /\
        includes (_extractTexError undefined_control_sequence) (trim body) = true) /\
     (PreviewCatch.of_reply
        (failing_engine (map snd (engineCalls (PreviewCatch.pm fresh))) (engine_source draw_11))
        = PreviewCatch.NotInTime ->
      _extractTexError undefined_control_sequence =
        u16 "Render timed out after " ++ decimal (timeout_ms 0) ++ u16 "ms")).
Proof.
  apply (PreviewCatchFacts.catch_block_recovers_texts demo_post false demo_now 0
           (fun history tex => PreviewCatch.of_reply (failing_engine history tex))
           fresh "h" draw_11 (PreviewCatch.Text undefined_control_sequence)).
  - reflexivity.
  - reflexivity.
Defined.

Lemma render_chain_rejected_for_good_witness :
  exists m',
    PreviewCatch.do_calls demo_hash demo_post moody_engine false demo_now 0
      [PreviewCatch.RetryBlock "h" draw_11; PreviewCatch.ResetEngine;
       PreviewCatch.RenderDocument demo_text]
      after_throw = Some m' /\
    PreviewCatch.chainRejected m' = true /\
    engineCalls (PreviewCatch.pm m') = engineCalls (PreviewCatch.pm after_throw) /\
    (forall hash source,
       PreviewCatch._renderSingleBlock demo_post moody_engine false demo_now 0 hash source m'
       = PreviewCatch.Throws m') /\
    (forall hash source m'',
       PreviewCatch.retryBlock demo_post moody_engine false demo_now 0 hash source m'
       <> PreviewCatch.Returns m'') /\
    (forall text b m'',
       isRendering (PreviewCatch.pm m') = false ->
       b ∈ parse_blocks demo_hash text ->
       unresolved (PreviewCatch.pm m') (DocumentParser.hash b) ->
       PreviewCatch.renderDocument demo_hash demo_post moody_engine false demo_now 0 text m'
       <> PreviewCatch.Returns m'').
Proof.
  eexists. split; [vm_compute; reflexivity|].
  eapply (PreviewCatchFacts.render_chain_rejected_for_good demo_hash demo_post false demo_now 0
            moody_engine
            [PreviewCatch.RetryBlock "h" draw_11; PreviewCatch.ResetEngine;
             PreviewCatch.RenderDocument demo_text]
            after_throw).
  - vm_compute. reflexivity.
  - vm_compute. reflexivity.
Defined.

End Witnesses.
